(** * Installation-plan construction: a shallow embedding

    The repository holds three revisions of [constructInstallationPlan]:
    - [construct-plan.ts]: the plain resolver, caching registry answers whole;
    - the revision with the usage ledger and the hoisting loop, caching
      only each version's [dependencies];
    - [construct-plan-v3.ts]: the resolver with the cache file.
    The three share [resolveVersion] and [processDependency] line for line,
    so one embedding is indexed by a [Variant] and branches exactly where
    the revisions differ.

    JavaScript [Map]s that are never iterated are [gmap]s; the usage ledger,
    whose iteration order decides the order of the hoisted entries, and
    JavaScript objects, whose key order [Object.keys] exposes, are
    association lists in enumeration order.  [async]/[await] is sequential
    here (every promise is awaited at once), so the embedding is a state
    and exception monad; recursion on the dependency graph need not
    terminate (a cycle nests directories for ever), hence the fuel. *)

From stdpp Require Import gmap strings list fin_maps.
From Stdlib Require Import Ascii String.

Local Open Scope string_scope.
Local Open Scope list_scope.

(** ** Values *)

(** [Dependency] of [types.ts], as the code uses it: [{ name, version }]
    where [version] is a range. *)
Record Dependency := {
  dep_name : string;
  dep_version : string
}.

(** An element of [InstallationPlan].  [parentDirectory] is [undefined] for
    a top-level package.  [version] is declared a string; the hoisting loop
    takes it from a destructured [split], which leaves [undefined] when the
    split has a single part, hence the option. *)
Record DependencyInstallation := {
  name : string;
  version : option string;
  parentDirectory : option string
}.

Definition InstallationPlan := list DependencyInstallation.

(** The value type of [dependencyMap].  [versionRange] holds [null] once
    [semver.validRange] rejects a merged range (the [!] of the source is
    erased at run time). *)
Record PendingResolution := {
  slot_name : string;
  versionRange : option string;
  slot_parentDirectory : option string
}.

Record PackageVersionInfo := {
  count : nat;
  parentDirectories : list string
}.

(** A registry document, typed as the code casts it: a [versions] object
    from version string to an object with an optional [dependencies] object.
    Whatever else the registry sends (description, dist, ...) is kept as
    named opaque fields, so that dropping them is observable. *)
Record VersionData := {
  dependencies : option (list (string * string));
  otherVersionFields : list (string * string)
}.

Record PackageData := {
  versions : list (string * VersionData);
  otherFields : list (string * string)
}.

Record Response := {
  status : nat;
  body : PackageData
}.

(** The three thrown values.  The source throws plain [Error]s; the
    constructors stand for the two messages,
    "Failed to fetch metadata for package ..." and
    "Could not find a version for ...", and for the run-time [TypeError]
    of a property read on [undefined]. *)
Inductive Error :=
| FetchError (packageName : string)
| UnsatisfiableRangeError (range : string)
| TypeError.

Inductive Variant :=
| Plain       (* construct-plan.ts *)
| Hoisting    (* the revision with versionUsageCount and the hoisting loop *)
| Persistent. (* construct-plan-v3.ts *)

(** ** JavaScript helpers *)

(** [x || 'root'] and the test [x ? _ : _] on a [string | undefined]:
    [undefined] and the empty string are falsy. *)
Definition truthy (x : option string) : bool :=
  match x with
  | Some s => negb (String.eqb s "")
  | None => false
  end.

Definition orRoot (x : option string) : string :=
  match x with
  | Some s => if String.eqb s "" then "root" else s
  | None => "root"
  end.

(** Template literal of a [string | null]. *)
Definition render (x : option string) : string :=
  match x with
  | Some s => s
  | None => "null"
  end.

(** [s.split(c)] for a one-character separator. *)
Fixpoint split (c : ascii) (s : string) : list string :=
  match s with
  | EmptyString => [EmptyString]
  | String a s' =>
      if Ascii.eqb a c then EmptyString :: split c s'
      else match split c s' with
           | p :: ps => String a p :: ps
           | [] => [String a EmptyString]
           end
  end.

(** Own keys of an object, [o[k]], and an insertion-ordered [Map]. *)
Definition keys {V} (o : list (string * V)) : list string := map fst o.

Fixpoint prop {V} (k : string) (o : list (string * V)) : option V :=
  match o with
  | [] => None
  | (k', v) :: o' => if String.eqb k' k then Some v else prop k o'
  end.

Fixpoint mapSet {V} (k : string) (v : V) (m : list (string * V)) : list (string * V) :=
  match m with
  | [] => [(k, v)]
  | (k', v') :: m' =>
      if String.eqb k' k then (k, v) :: m' else (k', v') :: mapSet k v m'
  end.

(** ** State *)

(** The four locals of [constructInstallationPlan] that the closures
    mutate, the two effects on the outside world, and one history variable
    that no code reads: [firstSighted] keeps, for every slot key, the
    dependency as it stood at [dependencyMap.set]. *)
Record State := {
  installationPlan : InstallationPlan;
  dependencyMap : gmap string PendingResolution;
  packageInfoCache : gmap string PackageData;
  versionUsageCount : list (string * PackageVersionInfo);
  requests : list string;                          (* registry GETs, oldest first *)
  cacheFileWrites : list (gmap string PackageData); (* writeFileSync payloads *)
  firstSighted : gmap string Dependency
}.

Definition withPlan (f : InstallationPlan → InstallationPlan) (st : State) : State :=
  {| installationPlan := f (installationPlan st);
     dependencyMap := dependencyMap st;
     packageInfoCache := packageInfoCache st;
     versionUsageCount := versionUsageCount st;
     requests := requests st;
     cacheFileWrites := cacheFileWrites st;
     firstSighted := firstSighted st |}.

Definition withDependencyMap
    (f : gmap string PendingResolution → gmap string PendingResolution) (st : State) : State :=
  {| installationPlan := installationPlan st;
     dependencyMap := f (dependencyMap st);
     packageInfoCache := packageInfoCache st;
     versionUsageCount := versionUsageCount st;
     requests := requests st;
     cacheFileWrites := cacheFileWrites st;
     firstSighted := firstSighted st |}.

Definition withCache
    (f : gmap string PackageData → gmap string PackageData) (st : State) : State :=
  {| installationPlan := installationPlan st;
     dependencyMap := dependencyMap st;
     packageInfoCache := f (packageInfoCache st);
     versionUsageCount := versionUsageCount st;
     requests := requests st;
     cacheFileWrites := cacheFileWrites st;
     firstSighted := firstSighted st |}.

Definition withUsage
    (f : list (string * PackageVersionInfo) → list (string * PackageVersionInfo))
    (st : State) : State :=
  {| installationPlan := installationPlan st;
     dependencyMap := dependencyMap st;
     packageInfoCache := packageInfoCache st;
     versionUsageCount := f (versionUsageCount st);
     requests := requests st;
     cacheFileWrites := cacheFileWrites st;
     firstSighted := firstSighted st |}.

Definition logRequest (packageName : string) (st : State) : State :=
  {| installationPlan := installationPlan st;
     dependencyMap := dependencyMap st;
     packageInfoCache := packageInfoCache st;
     versionUsageCount := versionUsageCount st;
     requests := requests st ++ [packageName];
     cacheFileWrites := cacheFileWrites st;
     firstSighted := firstSighted st |}.

Definition logCacheWrite (st : State) : State :=
  {| installationPlan := installationPlan st;
     dependencyMap := dependencyMap st;
     packageInfoCache := packageInfoCache st;
     versionUsageCount := versionUsageCount st;
     requests := requests st;
     cacheFileWrites := cacheFileWrites st ++ [packageInfoCache st];
     firstSighted := firstSighted st |}.

Definition noteFirstSighting (depKey : string) (dep : Dependency) (st : State) : State :=
  {| installationPlan := installationPlan st;
     dependencyMap := dependencyMap st;
     packageInfoCache := packageInfoCache st;
     versionUsageCount := versionUsageCount st;
     requests := requests st;
     cacheFileWrites := cacheFileWrites st;
     firstSighted := <[depKey := dep]> (firstSighted st) |}.

(** ** The monad: state, exceptions, fuel *)

Inductive Outcome (A : Type) :=
| Return (a : A) (st : State)
| Throw (e : Error) (st : State)
| OutOfFuel (st : State).

Arguments Return {A} a st.
Arguments Throw {A} e st.
Arguments OutOfFuel {A} st.

Definition M (A : Type) : Type := State → Outcome A.

Definition ret {A} (a : A) : M A := fun st => Return a st.

Definition bind {A B} (m : M A) (k : A → M B) : M B :=
  fun st =>
    match m st with
    | Return a st' => k a st'
    | Throw e st' => Throw e st'
    | OutOfFuel st' => OutOfFuel st'
    end.

Definition throw {A} (e : Error) : M A := fun st => Throw e st.
Definition outOfFuel {A} : M A := fun st => OutOfFuel st.
Definition gets {A} (f : State → A) : M A := fun st => Return (f st) st.
Definition modify (f : State → State) : M unit := fun st => Return tt (f st).

Notation "'do' x <- m ; k" := (bind m (fun x => k))
  (at level 10, x name, m at level 100, k at level 200).
Notation "'run' m ; k" := (bind m (fun _ => k))
  (at level 10, m at level 100, k at level 200).

(** [for (const x of l) await f(x)] *)
Fixpoint forEach {A} (f : A → M unit) (l : list A) : M unit :=
  match l with
  | [] => ret tt
  | x :: l' => run f x; forEach f l'
  end.

Definition stateOf {A} (o : Outcome A) : State :=
  match o with
  | Return _ st | Throw _ st | OutOfFuel st => st
  end.

(** What the caller of the [async] function gets: the resolved value, if
    the promise resolves. *)
Definition returned {A} (o : Outcome A) : option A :=
  match o with
  | Return a _ => Some a
  | Throw _ _ | OutOfFuel _ => None
  end.

(** ** The program *)

Section Planner.

(** The [semver] package: [satisfies version range], the strict order
    behind [a.compare(b) === -1], and [validRange]. *)
Variable satisfies : string → string → bool.
Variable semverLt : string → string → bool.
Variable validRange : string → option string.

(** [path.join] of Node. *)
Variable pathJoin : list string → string.

(** The registry: the answer to [GET https://registry.npmjs.org/<name>]
    under a given [Accept] header. *)
Variable fetch : string → string → Response.

(** The parsed content of [packageInfoCache.json] when the file exists and
    parses, in [Object.entries] order. *)
Variable cacheFile : option (list (string * PackageData)).

(** [semver.maxSatisfying(versions, range)] as the package documents it:
    the highest version of the list that satisfies the range, the earliest
    one among equals, and [null] when there is none (an invalid range is
    satisfied by nothing). *)
Definition maxSatisfying (versions : list string) (range : string) : option string :=
  fold_left
    (fun max v =>
       if satisfies v range then
         match max with
         | None => Some v
         | Some m => if semverLt m v then Some v else max
         end
       else max)
    versions None.

Definition resolveVersion (versions : list string) (range : string) : M string :=
  match maxSatisfying versions range with
  | Some maxSatisfyingVersion =>
      if String.eqb maxSatisfyingVersion "" (* a falsy string *)
      then throw (UnsatisfiableRangeError range)
      else ret maxSatisfyingVersion
  | None => throw (UnsatisfiableRangeError range)
  end.

Section Revision.

Variable revision : Variant.

Definition acceptHeader : string :=
  match revision with
  | Plain | Hoisting => "application/json"
  | Persistent => "application/vnd.npm.install-v1+json"
  end.

(** What goes into the cache for a fetched document: [data] itself,
    [relevantData], or [minimalData]. *)
Definition cachedForm (allData : PackageData) : PackageData :=
  match revision with
  | Plain => allData
  | Hoisting =>
      {| versions :=
           map (fun '(k, version) =>
                  (k, {| dependencies := dependencies version;
                         otherVersionFields := [] |}))
               (versions allData);
         otherFields := [] |}
  | Persistent =>
      {| versions :=
           map (fun '(version, versionData) =>
                  (version, {| dependencies := Some (default [] (dependencies versionData));
                               otherVersionFields := [] |}))
               (versions allData);
         otherFields := [] |}
  end.

Definition writeCacheFile : M unit :=
  match revision with
  | Persistent => modify logCacheWrite
  | Plain | Hoisting => ret tt
  end.

Definition getCachedPackageInfo (packageName : string) : M PackageData :=
  do cached <- gets (fun st => packageInfoCache st !! packageName);
  match cached with
  | Some info => ret info
  | None =>
      run modify (logRequest packageName);
      let resp := fetch acceptHeader packageName in
      if negb (Nat.eqb (status resp) 200) then throw (FetchError packageName)
      else
        let data := cachedForm (body resp) in
        run modify (withCache <[packageName := data]>);
        run writeCacheFile;
        ret data
  end.

Definition versionCountKey (name resolvedVersion : string) : string :=
  name +:+ "@" +:+ resolvedVersion.

(** Lines 108-114 of the hoisting revision; absent from the other two. *)
Definition trackUsage (name resolvedVersion : string) (parentDirectory : option string)
    : M unit :=
  match revision with
  | Hoisting =>
      let key := versionCountKey name resolvedVersion in
      modify (withUsage (fun usage =>
        let usage :=
          match prop key usage with
          | Some _ => usage
          | None => mapSet key {| count := 0; parentDirectories := [] |} usage
          end in
        match prop key usage with
        | Some usageInfo =>
            mapSet key {| count := S (count usageInfo);
                          parentDirectories :=
                            parentDirectories usageInfo ++ [orRoot parentDirectory] |}
                   usage
        | None => usage
        end))
  | Plain | Persistent => ret tt
  end.

Definition depKeyOf (parentDirectory : option string) (name : string) : string :=
  orRoot parentDirectory +:+ "##" +:+ name.

Definition childParentDirectoryOf (parentDirectory : option string) (name : string) : string :=
  match parentDirectory with
  | Some dir => if truthy parentDirectory then pathJoin [dir; "node_modules"; name] else name
  | None => name
  end.

Fixpoint processDependency (fuel : nat) (dep : Dependency) (parentDirectory : option string)
    : M unit :=
  match fuel with
  | 0 => outOfFuel
  | S fuel =>
      let depKey := depKeyOf parentDirectory (dep_name dep) in
      do existing <- gets (fun st => dependencyMap st !! depKey);
      match existing with
      | Some existing =>
          modify (withDependencyMap
            <[depKey := {| slot_name := slot_name existing;
                           versionRange :=
                             validRange (render (versionRange existing) +:+ " || "
                                         +:+ dep_version dep);
                           slot_parentDirectory := slot_parentDirectory existing |}]>)
      | None =>
          run modify (withDependencyMap
            <[depKey := {| slot_name := dep_name dep;
                           versionRange := Some (dep_version dep);
                           slot_parentDirectory := parentDirectory |}]>);
          run modify (noteFirstSighting depKey dep);
          do packageInfo <- getCachedPackageInfo (dep_name dep);
          let allVersions := keys (versions packageInfo) in
          do resolvedVersion <- resolveVersion allVersions (dep_version dep);
          match prop resolvedVersion (versions packageInfo) with
          | None => throw TypeError
          | Some versionInfo =>
              let dependencies := default [] (dependencies versionInfo) in
              run trackUsage (dep_name dep) resolvedVersion parentDirectory;
              run modify (withPlan (fun plan =>
                    plan ++ [{| name := dep_name dep;
                                version := Some resolvedVersion;
                                parentDirectory := parentDirectory |}]));
              forEach
                (fun '(childName, childVersionRange) =>
                   let childDep := {| dep_name := childName; dep_version := childVersionRange |} in
                   let childParentDirectory :=
                     childParentDirectoryOf parentDirectory (dep_name dep) in
                   processDependency fuel childDep (Some childParentDirectory))
                dependencies
          end
      end
  end.

(** One turn of the hoisting loop, on the ledger key [pkgVersion]. *)
Definition hoistOne (plan : InstallationPlan) (pkgVersion : string) : InstallationPlan :=
  let parts := split "@"%char pkgVersion in
  let name' := List.hd "" parts in
  let version' := List.nth_error parts 1 in
  let rootParentDirectory := "root" in
  let existingPlanItem :=
    List.find
      (fun item =>
         bool_decide (name item = name')
         && bool_decide (version item = version')
         && bool_decide (parentDirectory item = Some rootParentDirectory))
      plan in
  match existingPlanItem with
  | Some _ => plan
  | None =>
      plan ++ [{| name := name'; version := version';
                  parentDirectory := Some rootParentDirectory |}]
  end.

(** The hoisting loop over [versionUsageCount.entries()]. *)
Definition hoist (usage : list (string * PackageVersionInfo)) (plan : InstallationPlan)
    : InstallationPlan :=
  fold_left hoistOne (keys usage) plan.

(** The start of a call: empty plan, maps and ledger; the cache is empty,
    or, in the persistent revision, filled from the cache file. *)
Definition initialCache : gmap string PackageData :=
  match revision with
  | Persistent =>
      match cacheFile with
      | Some cacheJson => fold_left (fun cache '(key, value) => <[key := value]> cache) cacheJson ∅
      | None => ∅
      end
  | Plain | Hoisting => ∅
  end.

Definition initialState : State :=
  {| installationPlan := [];
     dependencyMap := ∅;
     packageInfoCache := initialCache;
     versionUsageCount := [];
     requests := [];
     cacheFileWrites := [];
     firstSighted := ∅ |}.

Definition hoistingPass : M unit :=
  match revision with
  | Hoisting =>
      modify (fun st => withPlan (hoist (versionUsageCount st)) st)
  | Plain | Persistent => ret tt
  end.

(** The walk over the top-level dependencies, before any hoisting. *)
Definition walk (fuel : nat) (topLevelDependencies : list (string * string)) : M unit :=
  forEach
    (fun '(name, versionRange) =>
       processDependency fuel {| dep_name := name; dep_version := versionRange |} None)
    topLevelDependencies.

Definition constructInstallationPlan (fuel : nat)
    (topLevelDependencies : list (string * string)) : Outcome InstallationPlan :=
  (run walk fuel topLevelDependencies;
   run hoistingPass;
   gets installationPlan) initialState.

End Revision.
End Planner.
(** ** A small instance of the environment

    Enough of [semver] and [path] to run the scenarios: versions are
    [major.minor.patch] in decimal, a range is a [||]-separated list of
    [^x.y.z], [x.y.z] and [*].  [Mini.validRange] answers the range itself
    when it parses (the package would answer its normal form) and [null]
    otherwise. *)

Module Mini.

Definition digit (a : ascii) : option nat :=
  let n := nat_of_ascii a in
  if (48 <=? n)%nat && (n <=? 57)%nat then Some (n - 48) else None.

Fixpoint numeral (s : string) (acc : nat) : option nat :=
  match s with
  | EmptyString => Some acc
  | String a s' =>
      match digit a with
      | Some d => numeral s' (10 * acc + d)
      | None => None
      end
  end.

Definition number (s : string) : option nat :=
  match s with
  | EmptyString => None
  | _ => numeral s 0
  end.

Definition parseVersion (s : string) : option (nat * nat * nat) :=
  match split "."%char s with
  | [a; b; c] =>
      match number a, number b, number c with
      | Some x, Some y, Some z => Some (x, y, z)
      | _, _, _ => None
      end
  | _ => None
  end.

Inductive Comparator :=
| Caret (v : nat * nat * nat)
| Exact (v : nat * nat * nat)
| Any.

Definition parseComparator (s : string) : option Comparator :=
  match s with
  | "*" => Some Any
  | String "^"%char s' => Caret <$> parseVersion s'
  | _ => Exact <$> parseVersion s
  end.

Fixpoint unspace (s : string) : string :=
  match s with
  | EmptyString => EmptyString
  | String a s' => if Ascii.eqb a " "%char then unspace s' else String a (unspace s')
  end.

Definition parseRange (s : string) : option (list Comparator) :=
  let pieces := filter (fun p => p ≠ "") (split "|"%char (unspace s)) in
  match pieces with
  | [] => None
  | _ => mapM parseComparator pieces
  end.

Definition ltVersion (a b : nat * nat * nat) : bool :=
  let '(a1, a2, a3) := a in
  let '(b1, b2, b3) := b in
  (a1 <? b1)%nat
  || ((a1 =? b1)%nat && ((a2 <? b2)%nat || ((a2 =? b2)%nat && (a3 <? b3)%nat))).

Definition test (c : Comparator) (v : nat * nat * nat) : bool :=
  match c with
  | Any => true
  | Exact w => bool_decide (v = w)
  | Caret (x, y, z) =>
      let '(v1, v2, v3) := v in
      negb (ltVersion v (x, y, z))
      && match x, y with
         | 0, 0 => bool_decide (v = (x, y, z))
         | 0, _ => (v1 =? 0)%nat && (v2 =? y)%nat
         | _, _ => (v1 =? x)%nat
         end
  end.

Definition satisfies (version range : string) : bool :=
  match parseVersion version, parseRange range with
  | Some v, Some cs => existsb (fun c => test c v) cs
  | _, _ => false
  end.

Definition semverLt (a b : string) : bool :=
  match parseVersion a, parseVersion b with
  | Some x, Some y => ltVersion x y
  | _, _ => false
  end.

Definition validRange (range : string) : option string :=
  match parseRange range with
  | Some _ => Some range
  | None => None
  end.

Definition pathJoin (segments : list string) : string :=
  String.concat "/" segments.

Definition package (vs : list (string * list (string * string))) : Response :=
  {| status := 200;
     body := {| versions :=
                  map (fun '(v, deps) =>
                         (v, {| dependencies := Some deps;
                                otherVersionFields := [("dist", "{...}")] |}))
                      vs;
                otherFields := [("description", "...")] |} |}.

Definition notFound : Response :=
  {| status := 404; body := {| versions := []; otherFields := [] |} |}.

(** Scenario 1 of the specification: [a] has 1.0.0, 1.2.0 and 2.0.0, none
    with dependencies. *)
Definition registry1 (accept packageName : string) : Response :=
  match packageName with
  | "a" => package [("1.0.0", []); ("1.2.0", []); ("2.0.0", [])]
  | _ => notFound
  end.

(** [a] needs [c ^1.0.0]; [c] has 1.0.0 and 2.0.0. *)
Definition registry2 (accept packageName : string) : Response :=
  match packageName with
  | "a" => package [("1.0.0", [("c", "^1.0.0")])]
  | "c" => package [("1.0.0", []); ("2.0.0", [])]
  | _ => notFound
  end.

Definition plan (revision : Variant) (registry : string → string → Response)
    (fuel : nat) (topLevelDependencies : list (string * string))
    : Outcome InstallationPlan :=
  constructInstallationPlan satisfies semverLt validRange pathJoin registry None revision
    fuel topLevelDependencies.

End Mini.

(** ** Vocabulary of the properties *)

#[global] Instance DependencyInstallation_eq_dec : EqDecision DependencyInstallation.
Proof. solve_decision. Defined.

#[global] Instance Error_eq_dec : EqDecision Error.
Proof. solve_decision. Defined.

Fixpoint contains (c : ascii) (s : string) : bool :=
  match s with
  | EmptyString => false
  | String a s' => Ascii.eqb a c || contains c s'
  end.

(** The test of the [find] in the hoisting loop, and the entry the loop
    pushes when the test finds nothing. *)
Definition atRoot (pkgVersion : string) (item : DependencyInstallation) : bool :=
  bool_decide (name item = List.hd "" (split "@" pkgVersion))
  && bool_decide (version item = List.nth_error (split "@" pkgVersion) 1)
  && bool_decide (parentDirectory item = Some "root").

Definition rootEntry (pkgVersion : string) : DependencyInstallation :=
  {| name := List.hd "" (split "@" pkgVersion);
     version := List.nth_error (split "@" pkgVersion) 1;
     parentDirectory := Some "root" |}.


(** A cached document that holds nothing but [versions], each version
    nothing but [dependencies]. *)
Definition onlyDependencies (data : PackageData) : bool :=
  bool_decide (otherFields data = [])
  && forallb (fun '(_, v) => bool_decide (otherVersionFields v = [])) (versions data).

(** The dependency manifest of every version, an absent one being empty. *)
Definition manifests (data : PackageData) : list (string * list (string * string)) :=
  map (fun '(k, v) => (k, default [] (dependencies v))) (versions data).

(** The slot key of a plan entry, as [processDependency] computes it. *)
Definition slotOf (item : DependencyInstallation) : string :=
  depKeyOf (parentDirectory item) (name item).

(** The install location of a plan entry.  An undefined parent directory
    is the top level, which [processDependency] writes as ["root"] in the
    slot key and in the usage ledger. *)
Definition installLocation (item : DependencyInstallation) : string :=
  orRoot (parentDirectory item).

Definition entryOf (dep : Dependency) (resolvedVersion : string)
    (parentDirectory : option string) : DependencyInstallation :=
  {| name := dep_name dep; version := Some resolvedVersion;
     parentDirectory := parentDirectory |}.

Section Vocabulary.

Variable satisfies : string → string → bool.
Variable fetch : string → string → Response.
Variable revision : Variant.

(** Range satisfaction: the slot of the entry has a first sighting, under
    the entry's name, and the entry's version satisfies the range of that
    sighting. *)
Definition rangeSatisfied (st : State) (item : DependencyInstallation) : bool :=
  match firstSighted st !! slotOf item, version item with
  | Some dep, Some resolvedVersion =>
      String.eqb (dep_name dep) (name item)
      && satisfies resolvedVersion (dep_version dep)
  | _, _ => false
  end.

(** A registry request of the run that was answered with a status other
    than 200. *)
Definition fetchFailed (st : State) (packageName : string) : Prop :=
  packageName ∈ requests st
  ∧ status (fetch (acceptHeader revision) packageName) ≠ 200.

(** A visited dependency none of whose known versions satisfies the range
    it was first sighted with. *)
Definition unsatisfiable (st : State) (dep : Dependency) : Prop :=
  (∃ depKey, firstSighted st !! depKey = Some dep)
  ∧ ∃ info, packageInfoCache st !! dep_name dep = Some info
            ∧ Forall (fun v => satisfies v (dep_version dep) = false)
                     (keys (versions info)).

(** The invariant of the walk, true whenever [processDependency] is
    entered or left normally. *)
Record Inv (st : State) : Prop := {
  inv_plan_nodup : NoDup (installationPlan st);
  inv_plan_keys :
    ∀ item, item ∈ installationPlan st → is_Some (dependencyMap st !! slotOf item);
  inv_plan_satisfied :
    ∀ item, item ∈ installationPlan st → rangeSatisfied st item = true;
  inv_requests_nodup : NoDup (requests st);
  inv_requests_ok :
    ∀ n, n ∈ requests st →
      status (fetch (acceptHeader revision) n) = 200
      ∧ is_Some (packageInfoCache st !! n);
  inv_sighted_resolved :
    ∀ depKey dep, firstSighted st !! depKey = Some dep →
      ∃ info v, packageInfoCache st !! dep_name dep = Some info
                ∧ v ∈ keys (versions info)
                ∧ satisfies v (dep_version dep) = true;
  inv_sighted_keys :
    ∀ depKey, is_Some (firstSighted st !! depKey) → is_Some (dependencyMap st !! depKey);
  inv_usage :
    ∀ pkgVersion, pkgVersion ∈ keys (versionUsageCount st) →
      ∃ item v, item ∈ installationPlan st
                ∧ version item = Some v
                ∧ pkgVersion = versionCountKey (name item) v
}.

(** What holds of the state in which an error [e] leaves the walk: [e] is
    the error of every failed request and of every unsatisfiable sighting
    in it. *)
Record Failed (e : Error) (st : State) : Prop := {
  failed_requests_nodup : NoDup (requests st);
  failed_fetch : ∀ n, fetchFailed st n → e = FetchError n;
  failed_range :
    ∀ dep, unsatisfiable st dep → e = UnsatisfiableRangeError (dep_version dep)
}.

(** The plan that the call returns is the plan of the walk, followed in
    the hoisting revision by what the hoisting loop appends; nothing else
    of the state moves after the walk. *)
Definition afterWalk (plan : InstallationPlan) (st' : State) : Prop :=
  ∃ st,
    Inv st
    ∧ plan = installationPlan st'
    ∧ installationPlan st' =
        match revision with
        | Hoisting => hoist (versionUsageCount st) (installationPlan st)
        | Plain | Persistent => installationPlan st
        end
    ∧ requests st' = requests st
    ∧ packageInfoCache st' = packageInfoCache st
    ∧ firstSighted st' = firstSighted st
    ∧ versionUsageCount st' = versionUsageCount st.

(** How one first sighting moves the cache and the request log. *)
Definition cacheStep (st st' : State) (packageName : string) (info : PackageData) : Prop :=
  (packageInfoCache st !! packageName = Some info
   ∧ packageInfoCache st' = packageInfoCache st
   ∧ requests st' = requests st)
  ∨ (packageInfoCache st !! packageName = None
     ∧ packageInfoCache st' = <[packageName := info]> (packageInfoCache st)
     ∧ requests st' = requests st ++ [packageName]
     ∧ status (fetch (acceptHeader revision) packageName) = 200).

End Vocabulary.

(** Postconditions by outcome. *)
Definition post {A} (o : Outcome A) (R : A → State → Prop) (T : Error → State → Prop)
    (F : State → Prop) : Prop :=
  match o with
  | Return a st => R a st
  | Throw e st => T e st
  | OutOfFuel st => F st
  end.

(** ** Vocabulary of the further properties *)

(** The ledger update of [trackUsage], as a function of the ledger. *)
Definition recordUsage (key dir : string) (usage : list (string * PackageVersionInfo))
    : list (string * PackageVersionInfo) :=
  let usage :=
    match prop key usage with
    | Some _ => usage
    | None => mapSet key {| count := 0; parentDirectories := [] |} usage
    end in
  match prop key usage with
  | Some usageInfo =>
      mapSet key {| count := S (count usageInfo);
                    parentDirectories := parentDirectories usageInfo ++ [dir] |}
             usage
  | None => usage
  end.

(** The ledger key of a plan entry. *)
Definition ledgerKey (item : DependencyInstallation) : string :=
  versionCountKey (name item) (default "" (version item)).

(** What the ledger should say of a key, given the entries of the walk. *)
Definition ledgerOf (plan : list DependencyInstallation) (pkgVersion : string)
    : option PackageVersionInfo :=
  match filter (fun item => ledgerKey item = pkgVersion) plan with
  | [] => None
  | items =>
      Some {| count := List.length items;
              parentDirectories := map (fun item => orRoot (parentDirectory item)) items |}
  end.

Section Sightings.

Variable satisfies : string → string → bool.
Variable semverLt : string → string → bool.
Variable pathJoin : list string → string.
Variable fetch : string → string → Response.
Variable revision : Variant.

(** How the metadata of [packageName] is obtained from state [st]: from
    the cache, or by a request answered 200, cached and, in the persistent
    revision, written to the cache file. *)
Definition obtained (packageName : string) (info : PackageData) (st st' : State) : Prop :=
  (packageInfoCache st !! packageName = Some info
   ∧ packageInfoCache st' = packageInfoCache st
   ∧ requests st' = requests st
   ∧ cacheFileWrites st' = cacheFileWrites st)
  ∨ (packageInfoCache st !! packageName = None
     ∧ status (fetch (acceptHeader revision) packageName) = 200
     ∧ info = cachedForm revision (body (fetch (acceptHeader revision) packageName))
     ∧ packageInfoCache st' = <[packageName := info]> (packageInfoCache st)
     ∧ requests st' = requests st ++ [packageName]
     ∧ cacheFileWrites st' =
         match revision with
         | Persistent => cacheFileWrites st ++ [packageInfoCache st']
         | Plain | Hoisting => cacheFileWrites st
         end).

(** A first sighting of [dep] under [pd] that succeeds, from [st] to the
    state [st'] in which the loop over the children [deps] starts. *)
Inductive Sighted (dep : Dependency) (pd : option string) (st st' : State)
    (deps : list (string * string)) : Prop :=
| sighted (info : PackageData) (v : string) (versionInfo : VersionData)
    (Hplan : installationPlan st' = installationPlan st ++ [entryOf dep v pd])
    (Hmap : dependencyMap st' =
              <[depKeyOf pd (dep_name dep) :=
                  {| slot_name := dep_name dep;
                     versionRange := Some (dep_version dep);
                     slot_parentDirectory := pd |}]> (dependencyMap st))
    (Hfirst : firstSighted st' = <[depKeyOf pd (dep_name dep) := dep]> (firstSighted st))
    (Hinfo : obtained (dep_name dep) info st st')
    (Husage : versionUsageCount st' =
                match revision with
                | Hoisting =>
                    recordUsage (versionCountKey (dep_name dep) v) (orRoot pd)
                      (versionUsageCount st)
                | Plain | Persistent => versionUsageCount st
                end)
    (Hmax : maxSatisfying satisfies semverLt (keys (versions info)) (dep_version dep) = Some v)
    (Hnonempty : v ≠ "")
    (Hversion : prop v (versions info) = Some versionInfo)
    (Hdeps : deps = default [] (dependencies versionInfo)).

(** A first sighting that throws [e], in state [st']. *)
Inductive SightFailed (dep : Dependency) (pd : option string) (st : State)
    (e : Error) (st' : State) : Prop :=
| sightFailed
    (Hplan : installationPlan st' = installationPlan st)
    (Hmap : dependencyMap st' =
              <[depKeyOf pd (dep_name dep) :=
                  {| slot_name := dep_name dep;
                     versionRange := Some (dep_version dep);
                     slot_parentDirectory := pd |}]> (dependencyMap st))
    (Hfirst : firstSighted st' = <[depKeyOf pd (dep_name dep) := dep]> (firstSighted st))
    (Husage : versionUsageCount st' = versionUsageCount st)
    (Hwhy :
       (e = FetchError (dep_name dep)
        ∧ packageInfoCache st !! dep_name dep = None
        ∧ status (fetch (acceptHeader revision) (dep_name dep)) ≠ 200
        ∧ packageInfoCache st' = packageInfoCache st
        ∧ requests st' = requests st ++ [dep_name dep]
        ∧ cacheFileWrites st' = cacheFileWrites st)
       ∨ (e = UnsatisfiableRangeError (dep_version dep)
          ∧ ∃ info, obtained (dep_name dep) info st st'
                    ∧ (maxSatisfying satisfies semverLt (keys (versions info))
                         (dep_version dep) = None
                       ∨ maxSatisfying satisfies semverLt (keys (versions info))
                           (dep_version dep) = Some ""))).

(** The directory handed to the children of an entry. *)
Definition childDirectory (item : DependencyInstallation) : string :=
  childParentDirectoryOf pathJoin (parentDirectory item) (name item).

(** A parent directory is either none (top level) or the child directory
    of an entry of the plan. *)
Definition placed (plan : InstallationPlan) (pd : option string) : Prop :=
  pd = None ∨ ∃ parent, parent ∈ plan ∧ pd = Some (childDirectory parent).

(** The requests of the log that the registry answered with 200. *)
Definition answered (st : State) : list string :=
  filter (fun n => status (fetch (acceptHeader revision) n) = 200) (requests st).

(** The cache file mirrors the cache: one write per answered request, the
    last write being the cache in memory. *)
Definition mirrored (st : State) : Prop :=
  List.length (cacheFileWrites st) = List.length (answered st)
  ∧ ∀ written, last (cacheFileWrites st) = Some written → written = packageInfoCache st.

End Sightings.

(** An outcome other than running out of fuel: the call has returned or
    thrown. *)
Definition finished {A} (o : Outcome A) : Prop :=
  match o with
  | OutOfFuel _ => False
  | Return _ _ | Throw _ _ => True
  end.

(** What the minimising revisions read of a registry document: the version
    keys in order, each with its [dependencies] (or [undefined]). *)
Definition dependencyTable (data : PackageData)
    : list (string * option (list (string * string))) :=
  map (fun '(k, v) => (k, dependencies v)) (versions data).

(** The error of an outcome, if it is a throw. *)
Definition thrown {A} (o : Outcome A) : option Error :=
  match o with
  | Throw e _ => Some e
  | Return _ _ | OutOfFuel _ => None
  end.

(** Two states that two revisions can be in at the same point of the same
    walk: the same plan, slots, request log and first sightings, and caches
    that hold, under the same names, documents with the same dependency
    manifests.  The ledger and the cache file are left out. *)
Definition alike (s1 s2 : State) : Prop :=
  installationPlan s1 = installationPlan s2
  ∧ dependencyMap s1 = dependencyMap s2
  ∧ requests s1 = requests s2
  ∧ firstSighted s1 = firstSighted s2
  ∧ ∀ n, manifests <$> (packageInfoCache s1 !! n) = manifests <$> (packageInfoCache s2 !! n).

Definition sameOutcome {A} (o1 o2 : Outcome A) : Prop :=
  match o1, o2 with
  | Return _ s1, Return _ s2 => alike s1 s2
  | Throw e1 s1, Throw e2 s2 => e1 = e2 ∧ alike s1 s2
  | OutOfFuel s1, OutOfFuel s2 => alike s1 s2
  | _, _ => False
  end.

(** Two registries for one package [a], with the same versions and
    dependencies; the first also sends a description and [dist] fields. *)
Definition verboseRegistry (accept packageName : string) : Response :=
  if String.eqb packageName "a"
  then Mini.package [("1.0.0", []); ("1.2.0", [])]
  else Mini.notFound.

Definition terseRegistry (accept packageName : string) : Response :=
  if String.eqb packageName "a"
  then {| status := 200;
          body := {| versions :=
                       [("1.0.0", {| dependencies := Some []; otherVersionFields := [] |});
                        ("1.2.0", {| dependencies := Some []; otherVersionFields := [] |})];
                     otherFields := [] |} |}
  else Mini.notFound.

(** The directories and slots that a package [n] depending on itself goes
    through: at depth 0 the top level, then [n], then
    [path.join(n, 'node_modules', n)], and so on. *)
Fixpoint nestedDirectory (pathJoin : list string → string) (n : string) (depth : nat)
    : string :=
  match depth with
  | 0 => childParentDirectoryOf pathJoin None n
  | S depth' => childParentDirectoryOf pathJoin (Some (nestedDirectory pathJoin n depth')) n
  end.

Definition directoryAtDepth (pathJoin : list string → string) (n : string) (depth : nat)
    : option string :=
  match depth with
  | 0 => None
  | S depth' => Some (nestedDirectory pathJoin n depth')
  end.

Definition slotAtDepth (pathJoin : list string → string) (n : string) (depth : nat)
    : string :=
  depKeyOf (directoryAtDepth pathJoin n depth) n.

(** A registry whose only package, [a], needs itself. *)
Definition selfRegistry (accept packageName : string) : Response :=
  if String.eqb packageName "a"
  then Mini.package [("1.0.0", [("a", "^1.0.0")])]
  else Mini.notFound.

(** * Properties *)

(** ** Strings: [split] and the ledger key *)

Lemma split_nonempty c s : split c s ≠ [].
Proof. destruct s as [|a s]; simpl; [done|]. destruct (Ascii.eqb a c), (split c s); done. Qed.

Lemma split_without c s : contains c s = false → split c s = [s].
Proof.
  induction s as [|a s IH]; simpl; [done|].
  destruct (Ascii.eqb a c); simpl; [done|].
  intros H. by rewrite (IH H).
Qed.

Lemma split_at_first c s t :
  contains c s = false → split c (s +:+ String c t) = s :: split c t.
Proof.
  induction s as [|a s IH]; simpl.
  - by rewrite Ascii.eqb_refl.
  - destruct (Ascii.eqb a c); simpl; [done|].
    intros H. by rewrite (IH H).
Qed.

Lemma split_versionCountKey name' resolvedVersion :
  contains "@" name' = false → contains "@" resolvedVersion = false →
  split "@" (versionCountKey name' resolvedVersion) = [name'; resolvedVersion].
Proof.
  intros Hn Hv. unfold versionCountKey.
  change (name' +:+ "@" +:+ resolvedVersion)
    with (name' +:+ String "@" resolvedVersion).
  by rewrite split_at_first, (split_without _ _ Hv).
Qed.

(** A character other than the separator occurs in a string only if it
    occurs in one of the pieces. *)
Lemma contains_split c d s :
  c ≠ d → Forall (fun p => contains d p = false) (split c s) → contains d s = false.
Proof.
  intros Hcd. induction s as [|a s IH]; simpl; [done|].
  destruct (Ascii.eqb_spec a c) as [->|Hac].
  - intros H. apply Forall_cons in H as [_ H].
    destruct (Ascii.eqb_spec c d); [done|]. by apply IH.
  - pose proof (split_nonempty c s) as Hne.
    destruct (split c s) as [|p ps]; [done|].
    intros H. apply Forall_cons in H as [Hp Hps]. simpl in Hp.
    apply orb_false_iff in Hp as [-> Hp]. simpl.
    apply IH. by constructor.
Qed.

(** ** The hoisting loop *)

Lemma atRoot_iff pkgVersion item : atRoot pkgVersion item = true ↔ item = rootEntry pkgVersion.
Proof.
  unfold atRoot, rootEntry. rewrite !andb_true_iff, !bool_decide_eq_true.
  destruct item as [n v p]; simpl. split.
  - by intros [[-> ->] ->].
  - by intros [= -> -> ->].
Qed.

Lemma hoistOne_found plan pkgVersion :
  rootEntry pkgVersion ∈ plan → hoistOne plan pkgVersion = plan.
Proof.
  intros Hin. unfold hoistOne.
  destruct (List.find _ plan) as [item|] eqn:Hfind; [done|].
  exfalso. apply list_elem_of_In in Hin.
  pose proof (List.find_none _ _ Hfind _ Hin) as Hno.
  change (atRoot pkgVersion (rootEntry pkgVersion) = false) in Hno.
  by rewrite (proj2 (atRoot_iff _ _) eq_refl) in Hno.
Qed.

Lemma hoistOne_missing plan pkgVersion :
  rootEntry pkgVersion ∉ plan → hoistOne plan pkgVersion = plan ++ [rootEntry pkgVersion].
Proof.
  intros Hnot. unfold hoistOne.
  destruct (List.find _ plan) as [item|] eqn:Hfind; [|done].
  exfalso. apply List.find_some in Hfind as [Hin Hp].
  change (atRoot pkgVersion item = true) in Hp.
  apply atRoot_iff in Hp as ->. by apply Hnot, list_elem_of_In.
Qed.

Lemma hoistOne_cases plan pkgVersion :
  (rootEntry pkgVersion ∈ plan ∧ hoistOne plan pkgVersion = plan)
  ∨ ((rootEntry pkgVersion ∉ plan) ∧ hoistOne plan pkgVersion = plan ++ [rootEntry pkgVersion]).
Proof.
  destruct (decide (rootEntry pkgVersion ∈ plan)) as [Hin|Hnot].
  - left. eauto using hoistOne_found.
  - right. eauto using hoistOne_missing.
Qed.

Lemma hoistOne_incl plan pkgVersion item : item ∈ plan → item ∈ hoistOne plan pkgVersion.
Proof.
  intros Hin. destruct (hoistOne_cases plan pkgVersion) as [[_ ->]|[_ ->]]; [done|].
  apply elem_of_app. by left.
Qed.

Lemma hoistOne_present plan pkgVersion : rootEntry pkgVersion ∈ hoistOne plan pkgVersion.
Proof.
  destruct (hoistOne_cases plan pkgVersion) as [[Hin ->]|[_ ->]]; [done|].
  apply elem_of_app. right. by apply list_elem_of_singleton.
Qed.

Lemma hoistKeys_incl pkgVersions plan item :
  item ∈ plan → item ∈ fold_left hoistOne pkgVersions plan.
Proof.
  revert plan. induction pkgVersions as [|k ks IH]; intros plan Hin; simpl; [done|].
  by apply IH, hoistOne_incl.
Qed.

Lemma hoistKeys_present pkgVersions plan pkgVersion :
  pkgVersion ∈ pkgVersions → rootEntry pkgVersion ∈ fold_left hoistOne pkgVersions plan.
Proof.
  revert plan. induction pkgVersions as [|k ks IH]; intros plan Hin; simpl.
  - by apply elem_of_nil in Hin.
  - apply elem_of_cons in Hin as [->|Hin].
    + apply hoistKeys_incl, hoistOne_present.
    + by apply IH.
Qed.



(** ** The version resolver *)

Section Resolver.

Variable satisfies : string → string → bool.
Variable semverLt : string → string → bool.

Let step (range : string) (max : option string) (v : string) : option string :=
  if satisfies v range then
    match max with
    | None => Some v
    | Some m => if semverLt m v then Some v else max
    end
  else max.

Lemma maxSatisfying_fold versions range acc v :
  fold_left (step range) versions acc = Some v →
  acc = Some v ∨ (v ∈ versions ∧ satisfies v range = true).
Proof.
  revert acc. induction versions as [|w ws IH]; intros acc H; simpl in H; [by left|].
  destruct (IH _ H) as [Hacc|[Hin Hsat]].
  - unfold step in Hacc. destruct (satisfies w range) eqn:Hw; [|by left].
    destruct acc as [m|].
    + destruct (semverLt m w); [|by left].
      injection Hacc as ->. right. split; [left|done].
    + injection Hacc as ->. right. split; [left|done].
  - right. split; [by right|done].
Qed.

Lemma maxSatisfying_sound versions range v :
  maxSatisfying satisfies semverLt versions range = Some v →
  v ∈ versions ∧ satisfies v range = true.
Proof.
  intros H. by destruct (maxSatisfying_fold versions range None v H).
Qed.

Lemma maxSatisfying_fold_some versions range m :
  ∃ v, fold_left (step range) versions (Some m) = Some v.
Proof.
  revert m. induction versions as [|w ws IH]; intros m; simpl; [by eexists|].
  unfold step at 2. destruct (satisfies w range); [|apply IH].
  destruct (semverLt m w); apply IH.
Qed.

(** [maxSatisfying] answers [null] exactly when no version satisfies. *)
Lemma maxSatisfying_none versions range :
  maxSatisfying satisfies semverLt versions range = None ↔
  Forall (fun v => satisfies v range = false) versions.
Proof.
  unfold maxSatisfying. fold (step range).
  induction versions as [|w ws IH]; simpl; [by split; [constructor|]|].
  unfold step at 2. destruct (satisfies w range) eqn:Hw.
  - split.
    + intros H. destruct (maxSatisfying_fold_some ws range w) as [v Hv]. congruence.
    + intros H. apply Forall_cons in H as [H _]. congruence.
  - rewrite IH. split.
    + intros H. by constructor.
    + intros H. by apply Forall_cons in H as [_ H].
Qed.

Lemma resolveVersion_cases versions range st :
  (∃ v, resolveVersion satisfies semverLt versions range st = Return v st
        ∧ v ∈ versions ∧ satisfies v range = true ∧ v ≠ "")
  ∨ (resolveVersion satisfies semverLt versions range st
       = Throw (UnsatisfiableRangeError range) st).
Proof.
  unfold resolveVersion.
  destruct (maxSatisfying _ _ _ _) as [v|] eqn:Hmax; [|by right].
  destruct (String.eqb_spec v ""); [by right|].
  left. exists v. by destruct (maxSatisfying_sound _ _ _ Hmax).
Qed.

Lemma resolveVersion_unsatisfiable versions range st :
  Forall (fun v => satisfies v range = false) versions →
  resolveVersion satisfies semverLt versions range st
    = Throw (UnsatisfiableRangeError range) st.
Proof.
  intros H. unfold resolveVersion. by rewrite (proj2 (maxSatisfying_none _ _) H).
Qed.

End Resolver.

(** ** Straight-line facts about the planner *)

Section PlannerFacts.

Variable satisfies : string → string → bool.
Variable semverLt : string → string → bool.
Variable validRange : string → option string.
Variable pathJoin : list string → string.
Variable fetch : string → string → Response.
Variable cacheFile : option (list (string * PackageData)).

(** C10. On an empty top-level dependency map the call returns the empty
    plan, sends no registry request and, in the revision with the cache
    file, writes nothing to it; no fuel is needed. *)
Theorem empty_dependencies_empty_plan (revision : Variant) (fuel : nat) :
  let outcome :=
    constructInstallationPlan satisfies semverLt validRange pathJoin fetch cacheFile
      revision fuel [] in
  returned outcome = Some []
  ∧ requests (stateOf outcome) = []
  ∧ cacheFileWrites (stateOf outcome) = [].
Proof. by destruct revision. Qed.

(** C4. A sighting of a slot key that [dependencyMap] already holds only
    rewrites the stored range of that slot to [validRange] of the old and
    new ranges joined by [||] and returns: the plan, the cache, the ledger,
    the request log and the cache file are as before, every other slot is
    as before, and no fuel beyond the call itself is consumed, so no child
    is visited. *)
Theorem merge_only_rewrites_range (revision : Variant) (fuel : nat) (dep : Dependency)
    (parentDirectory : option string) (st : State) (existing : PendingResolution) :
  dependencyMap st !! depKeyOf parentDirectory (dep_name dep) = Some existing →
  ∃ st',
    processDependency satisfies semverLt validRange pathJoin fetch revision
      (S fuel) dep parentDirectory st = Return tt st'
    ∧ dependencyMap st' =
        <[depKeyOf parentDirectory (dep_name dep) :=
            {| slot_name := slot_name existing;
               versionRange :=
                 validRange (render (versionRange existing) +:+ " || " +:+ dep_version dep);
               slot_parentDirectory := slot_parentDirectory existing |}]>
          (dependencyMap st)
    ∧ installationPlan st' = installationPlan st
    ∧ packageInfoCache st' = packageInfoCache st
    ∧ versionUsageCount st' = versionUsageCount st
    ∧ requests st' = requests st
    ∧ cacheFileWrites st' = cacheFileWrites st
    ∧ firstSighted st' = firstSighted st.
Proof.
  intros Hsome. eexists. split.
  - simpl. unfold bind, gets. rewrite Hsome. reflexivity.
  - done.
Qed.

(** What [getCachedPackageInfo] does on a miss. *)
Lemma getCachedPackageInfo_miss (revision : Variant) (packageName : string) (st : State) :
  packageInfoCache st !! packageName = None →
  let resp := fetch (acceptHeader revision) packageName in
  let data := cachedForm revision (body resp) in
  getCachedPackageInfo fetch revision packageName st =
    if negb (Nat.eqb (status resp) 200)
    then Throw (FetchError packageName) (logRequest packageName st)
    else Return data
           (let st' := withCache <[packageName := data]> (logRequest packageName st) in
            match revision with
            | Persistent => logCacheWrite st'
            | Plain | Hoisting => st'
            end).
Proof.
  intros Hmiss. unfold getCachedPackageInfo, bind, gets. rewrite Hmiss. simpl.
  destruct (negb _); [done|]. by destruct revision.
Qed.

Lemma getCachedPackageInfo_hit (revision : Variant) (packageName : string) (st : State)
    (info : PackageData) :
  packageInfoCache st !! packageName = Some info →
  getCachedPackageInfo fetch revision packageName st = Return info st.
Proof. intros Hhit. unfold getCachedPackageInfo, bind, gets. by rewrite Hhit. Qed.

Lemma cachedForm_onlyDependencies (revision : Variant) (allData : PackageData) :
  revision ≠ Plain → onlyDependencies (cachedForm revision allData) = true.
Proof.
  intros Hrev. unfold onlyDependencies.
  destruct revision; [done| |]; simpl;
    induction (versions allData) as [|[k v] vs IH]; simpl; auto.
Qed.

Lemma cachedForm_manifests (revision : Variant) (allData : PackageData) :
  manifests (cachedForm revision allData) = manifests allData.
Proof.
  unfold manifests. destruct revision; [done| |]; simpl;
    induction (versions allData) as [|[k v] vs IH]; simpl; [done| |done|];
    by rewrite IH.
Qed.

(** C8, amended. In the two revisions that build [relevantData] or
    [minimalData], the value that a registry fetch stores in the cache has
    nothing but [versions], each version nothing but [dependencies], and
    the dependency manifest of every version is that of the response. *)
Theorem cache_keeps_only_dependencies (revision : Variant) (packageName : string)
    (st st' : State) (info : PackageData) :
  revision ≠ Plain →
  packageInfoCache st !! packageName = None →
  getCachedPackageInfo fetch revision packageName st = Return info st' →
  packageInfoCache st' !! packageName = Some info
  ∧ onlyDependencies info = true
  ∧ manifests info = manifests (body (fetch (acceptHeader revision) packageName)).
Proof.
  intros Hrev Hmiss. rewrite (getCachedPackageInfo_miss _ _ _ Hmiss). cbv zeta.
  destruct (negb _); [done|]. intros [= <- <-].
  split; [destruct revision; apply lookup_insert_eq|].
  split; [by apply cachedForm_onlyDependencies | apply cachedForm_manifests].
Qed.

End PlannerFacts.

(** ** The invariant of the walk *)

Lemma prop_keys {V} (k : string) (o : list (string * V)) : k ∈ keys o → is_Some (prop k o).
Proof.
  unfold keys. induction o as [|[k' v] o IH]; simpl; intros H.
  - by apply elem_of_nil in H.
  - destruct (String.eqb_spec k' k) as [->|Hne]; [by eexists|].
    apply IH. by apply elem_of_cons in H as [->|H].
Qed.

Lemma keys_mapSet {V} (k k' : string) (v : V) (m : list (string * V)) :
  k' ∈ keys (mapSet k v m) ↔ k' = k ∨ k' ∈ keys m.
Proof.
  unfold keys. induction m as [|[k0 v0] m IH]; simpl.
  - rewrite list_elem_of_singleton, elem_of_nil. tauto.
  - destruct (String.eqb_spec k0 k) as [->|Hne]; simpl; rewrite !elem_of_cons.
    + tauto.
    + rewrite IH. tauto.
Qed.

Lemma is_Some_insert {V} (m : gmap string V) (i j : string) (x : V) :
  is_Some (m !! j) → is_Some (<[i := x]> m !! j).
Proof.
  intros H. destruct (decide (i = j)) as [->|Hne].
  - rewrite lookup_insert_eq. by eexists.
  - by rewrite lookup_insert_ne.
Qed.

Lemma post_bind {A B} (m : M A) (k : A → M B) (st : State)
    (R : B → State → Prop) (T : Error → State → Prop) (F : State → Prop) :
  post (m st) (fun a st' => post (k a st') R T F) T F → post (bind m k st) R T F.
Proof. unfold bind. by destruct (m st). Qed.

Lemma post_forEach {A} (f : A → M unit) (l : list A)
    (I : State → Prop) (T : Error → State → Prop) :
  (∀ x st, I st → post (f x st) (fun _ => I) T I) →
  ∀ st, I st → post (forEach f l st) (fun _ => I) T I.
Proof.
  intros Hf. induction l as [|x l IH]; intros st Hst; simpl; [done|].
  apply post_bind. specialize (Hf x st Hst).
  destruct (f x st); simpl in *; auto.
Qed.

Section WalkInvariant.

Variable satisfies : string → string → bool.
Variable semverLt : string → string → bool.
Variable validRange : string → option string.
Variable pathJoin : list string → string.
Variable fetch : string → string → Response.
Variable cacheFile : option (list (string * PackageData)).
Variable revision : Variant.

Lemma Inv_merge st depKey pr :
  Inv satisfies fetch revision st →
  Inv satisfies fetch revision (withDependencyMap <[depKey := pr]> st).
Proof.
  intros [H1 H2 H3 H4 H5 H6 H7 H8]. split; simpl; auto.
  - intros item Hin. by apply is_Some_insert, H2.
  - intros k Hk. by apply is_Some_insert, H7.
Qed.

Lemma Inv_requests st st' n info :
  Inv satisfies fetch revision st →
  cacheStep fetch revision st st' n info →
  NoDup (requests st')
  ∧ (∀ m, m ∈ requests st' →
       status (fetch (acceptHeader revision) m) = 200
       ∧ is_Some (packageInfoCache st' !! m))
  ∧ packageInfoCache st' !! n = Some info
  ∧ (∀ m i, packageInfoCache st !! m = Some i → packageInfoCache st' !! m = Some i).
Proof.
  intros [_ _ _ Hnd Hok _ _ _] [(Hhit & Hc & Hr)|(Hmiss & Hc & Hr & Hstatus)];
    rewrite Hc, Hr.
  - split; [done|]. split; [done|]. split; done.
  - split; [|split; [|split]].
    + apply NoDup_app. split; [done|]. split; [|apply NoDup_singleton].
      intros m Hm ->%list_elem_of_singleton.
      destruct (Hok _ Hm) as [_ [x Hx]]. congruence.
    + intros m [Hm| ->%list_elem_of_singleton]%elem_of_app.
      * destruct (Hok _ Hm) as [? ?]. split; [done|]. by apply is_Some_insert.
      * split; [done|]. rewrite lookup_insert_eq. by eexists.
    + apply lookup_insert_eq.
    + intros m i Hm. rewrite lookup_insert_ne; [done|]. congruence.
Qed.

Lemma rangeSatisfied_frame st st' item :
  firstSighted st' !! slotOf item = firstSighted st !! slotOf item →
  rangeSatisfied satisfies st' item = rangeSatisfied satisfies st item.
Proof. intros H. unfold rangeSatisfied. by rewrite H. Qed.

Lemma Inv_sighted st st' dep parentDirectory info v pr :
  Inv satisfies fetch revision st →
  dependencyMap st !! depKeyOf parentDirectory (dep_name dep) = None →
  installationPlan st' = installationPlan st ++ [entryOf dep v parentDirectory] →
  dependencyMap st' = <[depKeyOf parentDirectory (dep_name dep) := pr]> (dependencyMap st) →
  firstSighted st' = <[depKeyOf parentDirectory (dep_name dep) := dep]> (firstSighted st) →
  cacheStep fetch revision st st' (dep_name dep) info →
  (∀ k, k ∈ keys (versionUsageCount st') →
     k ∈ keys (versionUsageCount st) ∨ k = versionCountKey (dep_name dep) v) →
  v ∈ keys (versions info) →
  satisfies v (dep_version dep) = true →
  Inv satisfies fetch revision st'.
Proof.
  intros HI Hfresh Hplan Hmap Hfirst Hcache Husage Hv Hsat.
  destruct (Inv_requests _ _ _ _ HI Hcache) as (Hnd & Hok & Hinfo & Hmono).
  assert (Hold : ∀ item, item ∈ installationPlan st →
            slotOf item ≠ depKeyOf parentDirectory (dep_name dep)).
  { intros item Hin Heq. destruct (inv_plan_keys _ _ _ _ HI _ Hin) as [x Hx]. congruence. }
  split; auto.
  - rewrite Hplan. apply NoDup_app. split; [by apply (inv_plan_nodup _ _ _ _ HI)|].
    split; [|apply NoDup_singleton].
    intros item Hin ->%list_elem_of_singleton. by apply (Hold _ Hin).
  - intros item. rewrite Hplan, Hmap.
    intros [Hin| ->%list_elem_of_singleton]%elem_of_app.
    + by apply is_Some_insert, (inv_plan_keys _ _ _ _ HI).
    + unfold slotOf, entryOf; simpl. rewrite lookup_insert_eq. by eexists.
  - intros item. rewrite Hplan.
    intros [Hin| ->%list_elem_of_singleton]%elem_of_app.
    + rewrite <- (inv_plan_satisfied _ _ _ _ HI _ Hin). apply rangeSatisfied_frame.
      rewrite Hfirst, lookup_insert_ne; [done|]. intros Heq. by apply (Hold _ Hin).
    + unfold rangeSatisfied, slotOf, entryOf; simpl.
      rewrite Hfirst, lookup_insert_eq, Hsat, String.eqb_refl. done.
  - intros k d. rewrite Hfirst. intros Hk.
    destruct (decide (depKeyOf parentDirectory (dep_name dep) = k)) as [<-|Hne].
    + rewrite lookup_insert_eq in Hk. injection Hk as <-. eauto.
    + rewrite lookup_insert_ne in Hk by done.
      destruct (inv_sighted_resolved _ _ _ _ HI _ _ Hk) as (i & w & Hi & Hw & Hs). eauto 6.
  - intros k. rewrite Hfirst, Hmap. intros Hk.
    destruct (decide (depKeyOf parentDirectory (dep_name dep) = k)) as [<-|Hne].
    + rewrite lookup_insert_eq. by eexists.
    + rewrite lookup_insert_ne in Hk by done. rewrite lookup_insert_ne by done.
      by apply (inv_sighted_keys _ _ _ _ HI).
  - intros k Hk. rewrite Hplan. destruct (Husage _ Hk) as [Hold'| ->].
    + destruct (inv_usage _ _ _ _ HI _ Hold') as (item & w & Hin & Hw & ->).
      exists item, w. split; [|done]. apply elem_of_app. by left.
    + exists (entryOf dep v parentDirectory), v. split; [|done].
      apply elem_of_app. right. by apply list_elem_of_singleton.
Qed.

(** The state in which a first sighting fails to fetch. *)
Lemma Failed_fetch st st' dep depKey :
  Inv satisfies fetch revision st →
  packageInfoCache st !! dep_name dep = None →
  status (fetch (acceptHeader revision) (dep_name dep)) ≠ 200 →
  requests st' = requests st ++ [dep_name dep] →
  packageInfoCache st' = packageInfoCache st →
  firstSighted st' = <[depKey := dep]> (firstSighted st) →
  Failed satisfies fetch revision (FetchError (dep_name dep)) st'.
Proof.
  intros HI Hmiss Hstatus Hreq Hcache Hfirst. split.
  - rewrite Hreq. apply NoDup_app. split; [by apply (inv_requests_nodup _ _ _ _ HI)|].
    split; [|apply NoDup_singleton].
    intros m Hm ->%list_elem_of_singleton.
    destruct (inv_requests_ok _ _ _ _ HI _ Hm) as [_ [x Hx]]. congruence.
  - intros n [Hin Hbad]. rewrite Hreq in Hin.
    apply elem_of_app in Hin as [Hin| ->%list_elem_of_singleton]; [|done].
    by destruct (inv_requests_ok _ _ _ _ HI _ Hin).
  - intros d [[k Hk] (info & Hinfo & Hnone)]. exfalso.
    rewrite Hcache in Hinfo. rewrite Hfirst in Hk.
    destruct (decide (depKey = k)) as [<-|Hne].
    + rewrite lookup_insert_eq in Hk. injection Hk as <-. congruence.
    + rewrite lookup_insert_ne in Hk by done.
      destruct (inv_sighted_resolved _ _ _ _ HI _ _ Hk) as (i & w & Hi & Hw & Hs).
      assert (i = info) as -> by congruence.
      rewrite Forall_forall in Hnone. specialize (Hnone _ Hw). congruence.
Qed.

(** The state in which a first sighting fails to resolve, or meets a
    version without an entry. *)
Lemma Failed_after_fetch e st st' dep depKey info :
  Inv satisfies fetch revision st →
  cacheStep fetch revision st st' (dep_name dep) info →
  firstSighted st' = <[depKey := dep]> (firstSighted st) →
  (Forall (fun v => satisfies v (dep_version dep) = false) (keys (versions info)) →
   e = UnsatisfiableRangeError (dep_version dep)) →
  Failed satisfies fetch revision e st'.
Proof.
  intros HI Hcache Hfirst He.
  destruct (Inv_requests _ _ _ _ HI Hcache) as (Hnd & Hok & Hinfo & Hmono).
  split; [done| |].
  - intros n [Hin Hbad]. by destruct (Hok _ Hin).
  - intros d [[k Hk] (i & Hi & Hnone)]. rewrite Hfirst in Hk.
    destruct (decide (depKey = k)) as [<-|Hne].
    + rewrite lookup_insert_eq in Hk. injection Hk as <-.
      apply He. congruence.
    + exfalso. rewrite lookup_insert_ne in Hk by done.
      destruct (inv_sighted_resolved _ _ _ _ HI _ _ Hk) as (i' & w & Hi' & Hw & Hs).
      apply Hmono in Hi'. assert (i' = i) as -> by congruence.
      rewrite Forall_forall in Hnone. specialize (Hnone _ Hw). congruence.
Qed.

End WalkInvariant.

(** ** The steps of a first sighting *)

Section Steps.

Variable satisfies : string → string → bool.
Variable semverLt : string → string → bool.
Variable validRange : string → option string.
Variable pathJoin : list string → string.
Variable fetch : string → string → Response.

Lemma getCachedPackageInfo_spec (revision : Variant) (packageName : string) (st : State) :
  post (getCachedPackageInfo fetch revision packageName st)
    (fun info st' =>
       cacheStep fetch revision st st' packageName info
       ∧ installationPlan st' = installationPlan st
       ∧ dependencyMap st' = dependencyMap st
       ∧ firstSighted st' = firstSighted st
       ∧ versionUsageCount st' = versionUsageCount st)
    (fun e st' =>
       e = FetchError packageName
       ∧ packageInfoCache st !! packageName = None
       ∧ status (fetch (acceptHeader revision) packageName) ≠ 200
       ∧ requests st' = requests st ++ [packageName]
       ∧ packageInfoCache st' = packageInfoCache st
       ∧ firstSighted st' = firstSighted st)
    (fun _ => False).
Proof.
  destruct (packageInfoCache st !! packageName) as [info|] eqn:Hc.
  - rewrite (getCachedPackageInfo_hit _ _ _ _ _ Hc). simpl.
    split; [|done]. left. done.
  - rewrite (getCachedPackageInfo_miss _ _ _ _ Hc). cbv zeta.
    destruct (Nat.eqb_spec (status (fetch (acceptHeader revision) packageName)) 200)
      as [Hok|Hbad]; simpl; [|done].
    split; [|by destruct revision].
    right. by destruct revision.
Qed.

Lemma trackUsage_spec (revision : Variant) (name' v : string) (pd : option string)
    (st : State) :
  post (trackUsage revision name' v pd st)
    (fun _ st' =>
       installationPlan st' = installationPlan st
       ∧ dependencyMap st' = dependencyMap st
       ∧ packageInfoCache st' = packageInfoCache st
       ∧ requests st' = requests st
       ∧ cacheFileWrites st' = cacheFileWrites st
       ∧ firstSighted st' = firstSighted st
       ∧ ∀ k, k ∈ keys (versionUsageCount st') →
           k ∈ keys (versionUsageCount st) ∨ k = versionCountKey name' v)
    (fun _ _ => False)
    (fun _ => False).
Proof.
  destruct revision; simpl; repeat (split; [done|]); auto.
  intros k Hk.
  set (usage := match prop _ (versionUsageCount st) with
                | Some _ => _ | None => _ end) in Hk.
  assert (Husage : ∀ k', k' ∈ keys usage →
            k' ∈ keys (versionUsageCount st) ∨ k' = versionCountKey name' v).
  { intros k' Hk'. subst usage. destruct (prop _ (versionUsageCount st)); [by left|].
    apply keys_mapSet in Hk' as [->|Hk']; auto. }
  destruct (prop _ usage) as [usageInfo|]; [|by apply Husage].
  apply keys_mapSet in Hk as [->|Hk]; auto.
Qed.

Lemma cacheStep_frame (revision : Variant) (st1 st2 st st' : State) (n : string)
    (info : PackageData) :
  cacheStep fetch revision st1 st2 n info →
  packageInfoCache st1 = packageInfoCache st → requests st1 = requests st →
  packageInfoCache st' = packageInfoCache st2 → requests st' = requests st2 →
  cacheStep fetch revision st st' n info.
Proof.
  unfold cacheStep. intros H <- <- -> ->. done.
Qed.

(** The body of [processDependency] on a first sighting, laid out by
    outcome. *)
Lemma processDependency_first (revision : Variant) (fuel : nat) (dep : Dependency)
    (pd : option string) (st : State) :
  dependencyMap st !! depKeyOf pd (dep_name dep) = None →
  processDependency satisfies semverLt validRange pathJoin fetch revision (S fuel) dep pd st =
    let depKey := depKeyOf pd (dep_name dep) in
    let st1 :=
      noteFirstSighting depKey dep
        (withDependencyMap
           <[depKey := {| slot_name := dep_name dep;
                          versionRange := Some (dep_version dep);
                          slot_parentDirectory := pd |}]> st) in
    match getCachedPackageInfo fetch revision (dep_name dep) st1 with
    | Return info st2 =>
        match resolveVersion satisfies semverLt (keys (versions info)) (dep_version dep) st2 with
        | Return v st3 =>
            match prop v (versions info) with
            | None => Throw TypeError st3
            | Some versionInfo =>
                match trackUsage revision (dep_name dep) v pd st3 with
                | Return _ st4 =>
                    forEach
                      (fun '(childName, childVersionRange) =>
                         processDependency satisfies semverLt validRange pathJoin fetch
                           revision fuel
                           {| dep_name := childName; dep_version := childVersionRange |}
                           (Some (childParentDirectoryOf pathJoin pd (dep_name dep))))
                      (default [] (dependencies versionInfo))
                      (withPlan (fun plan => plan ++ [entryOf dep v pd]) st4)
                | Throw e st4 => Throw e st4
                | OutOfFuel st4 => OutOfFuel st4
                end
            end
        | Throw e st3 => Throw e st3
        | OutOfFuel st3 => OutOfFuel st3
        end
    | Throw e st2 => Throw e st2
    | OutOfFuel st2 => OutOfFuel st2
    end.
Proof.
  intros Hfresh. cbv zeta. simpl. unfold bind at 1, gets. rewrite Hfresh.
  unfold bind, modify.
  destruct (getCachedPackageInfo _ _ _ _) as [info st2|e st2|st2]; [|done|done].
  destruct (resolveVersion _ _ _ _ _) as [v st3|e st3|st3]; [|done|done].
  destruct (prop v (versions info)) as [versionInfo|]; [|done].
  by destruct (trackUsage _ _ _ _ _).
Qed.

End Steps.

(** ** The walk keeps the invariant *)

Section Walk.

Variable satisfies : string → string → bool.
Variable semverLt : string → string → bool.
Variable validRange : string → option string.
Variable pathJoin : list string → string.
Variable fetch : string → string → Response.
Variable cacheFile : option (list (string * PackageData)).
Variable revision : Variant.

Lemma processDependency_post (fuel : nat) (dep : Dependency) (pd : option string)
    (st : State) :
  Inv satisfies fetch revision st →
  post (processDependency satisfies semverLt validRange pathJoin fetch revision fuel dep pd st)
    (fun _ st' => Inv satisfies fetch revision st' ∧ firstSighted st ⊆ firstSighted st')
    (fun e st' => Failed satisfies fetch revision e st' ∧ firstSighted st ⊆ firstSighted st')
    (fun st' => Inv satisfies fetch revision st' ∧ firstSighted st ⊆ firstSighted st').
Proof.
  revert dep pd st. induction fuel as [|fuel IH]; intros dep pd st HI; [done|].
  destruct (dependencyMap st !! depKeyOf pd (dep_name dep)) as [existing|] eqn:Hkey.
  { simpl. unfold bind, gets. rewrite Hkey. simpl. split; [by apply Inv_merge|done]. }
  rewrite (processDependency_first _ _ _ _ _ _ _ _ _ _ Hkey). cbv zeta.
  set (depKey := depKeyOf pd (dep_name dep)) in *.
  set (st1 := noteFirstSighting depKey dep _).
  assert (Hsub : firstSighted st ⊆ firstSighted st1).
  { apply insert_subseteq, eq_None_not_Some. intros Hsome.
    destruct (inv_sighted_keys _ _ _ _ HI _ Hsome) as [x Hx]. congruence. }
  pose proof (getCachedPackageInfo_spec fetch revision (dep_name dep) st1) as Hget.
  destruct (getCachedPackageInfo _ _ _ _) as [info st2|e st2|st2]; simpl in Hget; [| |done].
  2:{ destruct Hget as (-> & Hmiss & Hbad & Hreq & Hcache & Hfirst).
      split; [by eapply Failed_fetch|by rewrite Hfirst]. }
  destruct Hget as (Hstep & Hplan2 & Hmap2 & Hfirst2 & Husage2).
  destruct (resolveVersion_cases satisfies semverLt (keys (versions info))
              (dep_version dep) st2) as [(v & -> & Hv & Hsat & _)| ->]; simpl.
  2:{ split; [|by rewrite Hfirst2].
      eapply Failed_after_fetch; [done| | |done].
      - eapply cacheStep_frame; [exact Hstep|done..].
      - done. }
  destruct (prop_keys _ _ Hv) as [versionInfo ->].
  pose proof (trackUsage_spec revision (dep_name dep) v pd st2) as Htrack.
  destruct (trackUsage _ _ _ _ _) as [[] st4|e st4|st4]; simpl in Htrack; [|done|done].
  destruct Htrack as (Hplan4 & Hmap4 & Hcache4 & Hreq4 & _ & Hfirst4 & Husage4).
  apply (post_forEach _ _
           (fun s => Inv satisfies fetch revision s ∧ firstSighted st ⊆ firstSighted s)
           (fun e s => Failed satisfies fetch revision e s ∧ firstSighted st ⊆ firstSighted s)).
  - intros [childName childVersionRange] s [HIs Hsubs].
    specialize (IH {| dep_name := childName; dep_version := childVersionRange |}
                   (Some (childParentDirectoryOf pathJoin pd (dep_name dep))) s HIs).
    destruct (processDependency _ _ _ _ _ _ _ _ _ _) as [[] s'|e s'|s']; simpl in *;
      destruct IH as [IH1 IH2]; (split; [done|]); by transitivity (firstSighted s).
  - split; [|simpl; by rewrite Hfirst4, Hfirst2].
    eapply (Inv_sighted _ _ _ st _ dep pd info v); simpl; try done.
    + by rewrite Hplan4, Hplan2.
    + by rewrite Hmap4, Hmap2.
    + by rewrite Hfirst4, Hfirst2.
    + eapply cacheStep_frame; [exact Hstep|done..].
    + intros k Hk. rewrite <- Husage2. by apply Husage4.
Qed.

(** The history variable is a history: what a slot was first sighted with
    is never written again. *)
Lemma first_sighting_is_kept (fuel : nat) (dep first : Dependency) (pd : option string)
    (st : State) (depKey : string) :
  Inv satisfies fetch revision st →
  firstSighted st !! depKey = Some first →
  firstSighted
    (stateOf (processDependency satisfies semverLt validRange pathJoin fetch revision
                fuel dep pd st)) !! depKey = Some first.
Proof.
  intros HI Hfirst. pose proof (processDependency_post fuel dep pd st HI) as H.
  destruct (processDependency _ _ _ _ _ _ _ _ _ _) as [[] s'|e s'|s']; simpl in *;
    destruct H as [_ Hsub]; by eapply lookup_weaken.
Qed.

Lemma Inv_initial : Inv satisfies fetch revision (initialState cacheFile revision).
Proof.
  split; simpl; try apply NoDup_nil_2.
  - by intros item ?%elem_of_nil.
  - by intros item ?%elem_of_nil.
  - by intros n ?%elem_of_nil.
  - intros k d H. by rewrite lookup_empty in H.
  - intros k [d H]. by rewrite lookup_empty in H.
  - by intros k ?%elem_of_nil.
Qed.

Lemma walk_post (fuel : nat) (topLevelDependencies : list (string * string)) (st : State) :
  Inv satisfies fetch revision st →
  post (walk satisfies semverLt validRange pathJoin fetch revision fuel
          topLevelDependencies st)
    (fun _ => Inv satisfies fetch revision)
    (Failed satisfies fetch revision)
    (Inv satisfies fetch revision).
Proof.
  intros HI. unfold walk. apply post_forEach; [|done].
  intros [name' versionRange'] st' HI'.
  pose proof (processDependency_post fuel
                {| dep_name := name'; dep_version := versionRange' |} None st' HI') as H.
  destruct (processDependency _ _ _ _ _ _ _ _ _ _) as [[] s'|e s'|s']; simpl in *; tauto.
Qed.

(** The call by outcome of the walk: a normal end runs the hoisting loop
    and returns the plan; an error or an exhausted fuel is passed on. *)
Lemma constructInstallationPlan_cases (fuel : nat)
    (topLevelDependencies : list (string * string)) :
  constructInstallationPlan satisfies semverLt validRange pathJoin fetch cacheFile revision
    fuel topLevelDependencies =
  match walk satisfies semverLt validRange pathJoin fetch revision fuel
          topLevelDependencies (initialState cacheFile revision) with
  | Return _ st =>
      match revision with
      | Hoisting =>
          Return (hoist (versionUsageCount st) (installationPlan st))
                 (withPlan (hoist (versionUsageCount st)) st)
      | Plain | Persistent => Return (installationPlan st) st
      end
  | Throw e st => Throw e st
  | OutOfFuel st => OutOfFuel st
  end.
Proof.
  unfold constructInstallationPlan, bind.
  destruct (walk _ _ _ _ _ _ _ _ _) as [[] st|e st|st]; [|done|done].
  by destruct revision.
Qed.

End Walk.

(** ** More on the hoisting loop *)

Lemma hoistOne_NoDup plan pkgVersion : NoDup plan → NoDup (hoistOne plan pkgVersion).
Proof.
  intros Hnd. destruct (hoistOne_cases plan pkgVersion) as [[_ ->]|[Hnot ->]]; [done|].
  apply NoDup_app. split; [done|]. split; [|apply NoDup_singleton].
  by intros item Hin ->%list_elem_of_singleton.
Qed.

Lemma hoistKeys_NoDup pkgVersions plan :
  NoDup plan → NoDup (fold_left hoistOne pkgVersions plan).
Proof.
  revert plan. induction pkgVersions as [|k ks IH]; intros plan Hnd; simpl; [done|].
  by apply IH, hoistOne_NoDup.
Qed.

Lemma hoistKeys_appends pkgVersions plan :
  ∃ hoisted,
    fold_left hoistOne pkgVersions plan = plan ++ hoisted
    ∧ ∀ item, item ∈ hoisted →
        ∃ pkgVersion, pkgVersion ∈ pkgVersions ∧ item = rootEntry pkgVersion.
Proof.
  revert plan. induction pkgVersions as [|k ks IH]; intros plan; simpl.
  - exists []. split; [by rewrite app_nil_r|]. by intros item ?%elem_of_nil.
  - destruct (IH (hoistOne plan k)) as (hoisted & -> & Hall).
    destruct (hoistOne_cases plan k) as [[_ ->]|[_ ->]].
    + exists hoisted. split; [done|].
      intros item Hin. destruct (Hall _ Hin) as (k' & Hk' & ->).
      exists k'. split; [by right|done].
    + exists (rootEntry k :: hoisted). split; [by rewrite <- app_assoc|].
      intros item [->|Hin]%elem_of_cons.
      * exists k. split; [by left|done].
      * destruct (Hall _ Hin) as (k' & Hk' & ->). exists k'. split; [by right|done].
Qed.

Lemma hoistKeys_structure (pkgVersions : list string) (plan : InstallationPlan) :
  ∃ hoisted,
    fold_left hoistOne pkgVersions plan = plan ++ hoisted
    ∧ (∀ item, item ∈ hoisted →
         (item ∉ plan) ∧ ∃ k, k ∈ pkgVersions ∧ item = rootEntry k)
    ∧ NoDup hoisted
    ∧ (List.length hoisted ≤ List.length pkgVersions)%nat.
Proof.
  revert plan. induction pkgVersions as [|k ks IH]; intros plan; simpl.
  - exists []. rewrite app_nil_r. split; [done|].
    split; [by intros item ?%elem_of_nil|]. split; [apply NoDup_nil_2|done].
  - destruct (hoistOne_cases plan k) as [[Hin ->]|[Hnot ->]].
    + destruct (IH plan) as (hoisted & -> & Hall & Hnd & Hlen).
      exists hoisted. split; [done|]. split; [|split; [done|lia]].
      intros item Hitem. destruct (Hall _ Hitem) as (Hni & k' & Hk' & ->).
      split; [done|]. exists k'. split; [by right|done].
    + destruct (IH (plan ++ [rootEntry k])) as (hoisted & -> & Hall & Hnd & Hlen).
      exists (rootEntry k :: hoisted). split; [by rewrite <- app_assoc|].
      split; [|split].
      * intros item [->|Hitem]%elem_of_cons.
        { split; [done|]. exists k. split; [by left|done]. }
        destruct (Hall _ Hitem) as (Hni & k' & Hk' & ->).
        split; [|exists k'; split; [by right|done]].
        intros Hp. apply Hni, elem_of_app. by left.
      * apply NoDup_cons. split; [|done]. intros Hroot.
        destruct (Hall _ Hroot) as (Hni & _). apply Hni, elem_of_app. right.
        by apply list_elem_of_singleton.
      * simpl. lia.
Qed.

(** ** The whole call *)

Section Call.

Variable satisfies : string → string → bool.
Variable semverLt : string → string → bool.
Variable validRange : string → option string.
Variable pathJoin : list string → string.
Variable fetch : string → string → Response.
Variable cacheFile : option (list (string * PackageData)).

Lemma constructInstallationPlan_post (revision : Variant) (fuel : nat)
    (topLevelDependencies : list (string * string)) :
  post (constructInstallationPlan satisfies semverLt validRange pathJoin fetch cacheFile
          revision fuel topLevelDependencies)
    (afterWalk satisfies fetch revision)
    (Failed satisfies fetch revision)
    (Inv satisfies fetch revision).
Proof.
  rewrite constructInstallationPlan_cases.
  pose proof (walk_post satisfies semverLt validRange pathJoin fetch revision fuel
                topLevelDependencies _ (Inv_initial satisfies fetch cacheFile revision)) as H.
  destruct (walk _ _ _ _ _ _ _ _ _) as [[] st|e st|st]; simpl in *; [|done|done].
  destruct revision; simpl; by exists st.
Qed.

Lemma requests_NoDup (revision : Variant) (fuel : nat)
    (topLevelDependencies : list (string * string)) :
  NoDup (requests (stateOf
    (constructInstallationPlan satisfies semverLt validRange pathJoin fetch cacheFile
       revision fuel topLevelDependencies))).
Proof.
  pose proof (constructInstallationPlan_post revision fuel topLevelDependencies) as H.
  destruct (constructInstallationPlan _ _ _ _ _ _ _ _ _) as [plan st'|e st'|st']; simpl in *.
  - destruct H as (st & HI & _ & _ & -> & _). by destruct HI.
  - by destruct H.
  - by destruct H.
Qed.

(** C3. In a run of [constructInstallationPlan], whether it returns, throws
    or is still running, every package name has been requested from the
    registry at most once; and a request for metadata that has been
    answered once is answered again from the cache, with no effect at
    all. *)
Theorem registry_queried_at_most_once (revision : Variant) (fuel : nat)
    (topLevelDependencies : list (string * string)) (packageName : string) :
  (count_occ string_dec
    (requests (stateOf
       (constructInstallationPlan satisfies semverLt validRange pathJoin fetch cacheFile
          revision fuel topLevelDependencies)))
    packageName ≤ 1)%nat
  ∧ ∀ st info st',
      getCachedPackageInfo fetch revision packageName st = Return info st' →
      getCachedPackageInfo fetch revision packageName st' = Return info st'.
Proof.
  split.
  - apply List.NoDup_count_occ, NoDup_ListNoDup, requests_NoDup.
  - intros st info st' Hget.
    pose proof (getCachedPackageInfo_spec fetch revision packageName st) as H.
    rewrite Hget in H. simpl in H. destruct H as (Hstep & _).
    apply getCachedPackageInfo_hit.
    destruct Hstep as [(Hhit & -> & _)|(_ & -> & _)]; [done|apply lookup_insert_eq].
Qed.

(** As records, with an undefined parent directory kept apart from
    ["root"], the entries of a returned plan are pairwise distinct. *)
Lemma returned_records_are_distinct (revision : Variant) (fuel : nat)
    (topLevelDependencies : list (string * string)) (plan : InstallationPlan) :
  returned (constructInstallationPlan satisfies semverLt validRange pathJoin fetch cacheFile
              revision fuel topLevelDependencies) = Some plan →
  NoDup plan.
Proof.
  intros Hret.
  pose proof (constructInstallationPlan_post revision fuel topLevelDependencies) as H.
  destruct (constructInstallationPlan _ _ _ _ _ _ _ _ _) as [plan' st'|e st'|st'];
    simpl in *; [|done|done].
  injection Hret as ->. destruct H as (st & HI & -> & -> & _).
  destruct HI as [Hnd _ _ _ _ _ _ _].
  destruct revision; [done| |done]. by apply hoistKeys_NoDup.
Qed.

(** C1, amended. A returned plan is the plan the dependency walk has
    left, followed by what the hoisting loop appended.  Every entry the
    walk pushed has a version that satisfies the range with which its slot
    was first sighted.  What the hoisting loop appended are entries at
    ["root"] that the walk had not pushed, each the split of a ledger key;
    there is none outside the hoisting revision. *)
Theorem walked_entries_satisfy_first_range (revision : Variant) (fuel : nat)
    (topLevelDependencies : list (string * string)) (plan : InstallationPlan) :
  let outcome :=
    constructInstallationPlan satisfies semverLt validRange pathJoin fetch cacheFile
      revision fuel topLevelDependencies in
  let walked :=
    installationPlan (stateOf
      (walk satisfies semverLt validRange pathJoin fetch revision fuel
         topLevelDependencies (initialState cacheFile revision))) in
  returned outcome = Some plan →
  ∃ hoisted,
    plan = walked ++ hoisted
    ∧ (∀ item, item ∈ walked → rangeSatisfied satisfies (stateOf outcome) item = true)
    ∧ (∀ item, item ∈ hoisted →
         parentDirectory item = Some "root"
         ∧ (item ∉ walked)
         ∧ ∃ pkgVersion, pkgVersion ∈ keys (versionUsageCount (stateOf outcome))
                         ∧ item = rootEntry pkgVersion)
    ∧ (revision ≠ Hoisting → hoisted = []).
Proof.
  intros outcome walked Hret. subst outcome walked.
  rewrite constructInstallationPlan_cases in *.
  pose proof (walk_post satisfies semverLt validRange pathJoin fetch revision fuel
                topLevelDependencies _ (Inv_initial satisfies fetch cacheFile revision)) as HI.
  destruct (walk _ _ _ _ _ _ _ _ _) as [[] st|e st|st]; simpl in *; [|done|done].
  assert (Hsat : ∀ st', firstSighted st' = firstSighted st →
            ∀ item, item ∈ installationPlan st →
              rangeSatisfied satisfies st' item = true).
  { intros st' Hfirst item Hin. rewrite <- (inv_plan_satisfied _ _ _ _ HI _ Hin).
    apply rangeSatisfied_frame. by rewrite Hfirst. }
  destruct revision; simpl in *; injection Hret as <-.
  - exists []. rewrite app_nil_r.
    split; [done|]. split; [by apply Hsat|]. split; [by intros item ?%elem_of_nil|done].
  - destruct (hoistKeys_structure (keys (versionUsageCount st)) (installationPlan st))
      as (hoisted & Heq & Hall & _ & _).
    exists hoisted. split; [done|]. split; [by apply Hsat|]. split; [|done].
    intros item Hin. destruct (Hall _ Hin) as (Hni & k & Hk & ->).
    split; [done|]. split; [done|]. by exists k.
  - exists []. rewrite app_nil_r.
    split; [done|]. split; [by apply Hsat|]. split; [by intros item ?%elem_of_nil|done].
Qed.

(** C7. Whatever the run has come to, a registry request of the run that
    was answered with a status other than 200, or a visited dependency none
    of whose versions satisfies the range it was first sighted with, means
    that the call has thrown the error of that very dependency, and so has
    returned no plan. *)
Theorem failure_aborts_the_plan (revision : Variant) (fuel : nat)
    (topLevelDependencies : list (string * string)) :
  let outcome :=
    constructInstallationPlan satisfies semverLt validRange pathJoin fetch cacheFile
      revision fuel topLevelDependencies in
  (∀ packageName, fetchFailed fetch revision (stateOf outcome) packageName →
     outcome = Throw (FetchError packageName) (stateOf outcome)
     ∧ returned outcome = None)
  ∧ (∀ dep, unsatisfiable satisfies (stateOf outcome) dep →
       outcome = Throw (UnsatisfiableRangeError (dep_version dep)) (stateOf outcome)
       ∧ returned outcome = None).
Proof.
  intros outcome. subst outcome.
  pose proof (constructInstallationPlan_post revision fuel topLevelDependencies) as H.
  assert (Hclean : ∀ st st', Inv satisfies fetch revision st →
            requests st' = requests st → packageInfoCache st' = packageInfoCache st →
            firstSighted st' = firstSighted st →
            (∀ n, ¬ fetchFailed fetch revision st' n)
            ∧ (∀ dep, ¬ unsatisfiable satisfies st' dep)).
  { intros st st' HI Hreq Hcache Hfirst. split.
    - intros n [Hin Hbad]. rewrite Hreq in Hin.
      by destruct (inv_requests_ok _ _ _ _ HI _ Hin).
    - intros dep [[k Hk] (info & Hinfo & Hnone)].
      rewrite Hfirst in Hk. rewrite Hcache in Hinfo.
      destruct (inv_sighted_resolved _ _ _ _ HI _ _ Hk) as (i & w & Hi & Hw & Hs).
      assert (i = info) as -> by congruence.
      rewrite Forall_forall in Hnone. specialize (Hnone _ Hw). congruence. }
  destruct (constructInstallationPlan _ _ _ _ _ _ _ _ _) as [plan st'|e st'|st'];
    simpl in *.
  - destruct H as (st & HI & _ & _ & Hreq & Hcache & Hfirst & _).
    destruct (Hclean _ _ HI Hreq Hcache Hfirst) as [Hf Hu].
    split; [intros n Hn; by destruct (Hf n)|intros dep Hd; by destruct (Hu dep)].
  - destruct H as [_ Hf Hu]. split.
    + intros n Hn. by rewrite (Hf _ Hn).
    + intros dep Hd. by rewrite (Hu _ Hd).
  - destruct (Hclean _ _ H eq_refl eq_refl eq_refl) as [Hf Hu].
    split; [intros n Hn; by destruct (Hf n)|intros dep Hd; by destruct (Hu dep)].
Qed.

End Call.

(** ** Ledger keys *)

Section LedgerKeys.

Variable satisfies : string → string → bool.
Variable semverLt : string → string → bool.
Variable validRange : string → option string.
Variable pathJoin : list string → string.
Variable fetch : string → string → Response.
Variable cacheFile : option (list (string * PackageData)).

(** No version that [semver] finds to satisfy a range has an [@] in it:
    the grammar of versions has no such character. *)
Hypothesis satisfying_version_has_no_at :
  ∀ v range, satisfies v range = true → contains "@" v = false.

(** C9. Every key of the usage ledger is the name and the version of an
    entry of the plan joined by [@]; when that name has no [@], splitting
    the key on [@] gives back exactly the name and the version, so the
    entry that the hoisting loop looks for at ["root"], and that the
    returned plan holds, carries them unchanged. *)
Theorem hoisting_recovers_ledger_record (fuel : nat)
    (topLevelDependencies : list (string * string)) (plan : InstallationPlan)
    (pkgVersion : string) :
  let outcome :=
    constructInstallationPlan satisfies semverLt validRange pathJoin fetch cacheFile
      Hoisting fuel topLevelDependencies in
  returned outcome = Some plan →
  pkgVersion ∈ keys (versionUsageCount (stateOf outcome)) →
  ∃ item v,
    item ∈ plan
    ∧ version item = Some v
    ∧ pkgVersion = versionCountKey (name item) v
    ∧ (contains "@" (name item) = false →
       split "@" pkgVersion = [name item; v]
       ∧ rootEntry pkgVersion =
           {| name := name item; version := Some v; parentDirectory := Some "root" |}
       ∧ rootEntry pkgVersion ∈ plan).
Proof.
  intros outcome Hret Hkey. subst outcome.
  pose proof (constructInstallationPlan_post satisfies semverLt validRange pathJoin fetch
                cacheFile Hoisting fuel topLevelDependencies) as H.
  destruct (constructInstallationPlan _ _ _ _ _ _ _ _ _) as [plan' st'|e st'|st'];
    simpl in *; [|done|done].
  injection Hret as ->. destruct H as (st & HI & -> & Hplan & _ & _ & _ & Husage).
  rewrite Husage in Hkey. rewrite Hplan.
  destruct (inv_usage _ _ _ _ HI _ Hkey) as (item & v & Hin & Hv & ->).
  exists item, v. split; [by apply hoistKeys_incl|]. split; [done|]. split; [done|].
  intros Hname.
  assert (Hat : contains "@" v = false).
  { pose proof (inv_plan_satisfied _ _ _ _ HI _ Hin) as Hsat.
    unfold rangeSatisfied in Hsat. rewrite Hv in Hsat.
    destruct (firstSighted st !! slotOf item) as [dep|]; [|done].
    apply andb_true_iff in Hsat as [_ Hsat]. by eapply satisfying_version_has_no_at. }
  pose proof (split_versionCountKey _ _ Hname Hat) as Hsplit.
  split; [done|]. split.
  - unfold rootEntry. by rewrite Hsplit.
  - by apply hoistKeys_present.
Qed.

End LedgerKeys.

(** ** Scenario 1 *)

Section Scenario1.

Variable satisfies : string → string → bool.
Variable semverLt : string → string → bool.
Variable validRange : string → option string.
Variable pathJoin : list string → string.
Variable fetch : string → string → Response.
Variable cacheFile : option (list (string * PackageData)).

(** C2, on the code. With top-level dependencies [{"a": "^1.0.0"}], a
    registry that offers 1.0.0, 1.2.0 and 2.0.0 of [a], no dependency
    declared by 1.2.0, and a [semver] that picks 1.2.0, the hoisting
    revision returns two entries: the walk's [{a, 1.2.0, undefined}], and
    [{a, 1.2.0, "root"}], which the hoisting loop appends because its
    [find] compares [parentDirectory] with ["root"] and the walk stored
    [undefined]. *)
Theorem scenario1_returns_two_entries (fuel : nat) :
  let resp := fetch "application/json" "a" in
  status resp = 200 →
  keys (versions (body resp)) = ["1.0.0"; "1.2.0"; "2.0.0"] →
  (∀ versionInfo, prop "1.2.0" (versions (body resp)) = Some versionInfo →
                  default [] (dependencies versionInfo) = []) →
  maxSatisfying satisfies semverLt ["1.0.0"; "1.2.0"; "2.0.0"] "^1.0.0" = Some "1.2.0" →
  returned
    (constructInstallationPlan satisfies semverLt validRange pathJoin fetch cacheFile
       Hoisting (S fuel) [("a", "^1.0.0")])
  = Some [ {| name := "a"; version := Some "1.2.0"; parentDirectory := None |};
           {| name := "a"; version := Some "1.2.0"; parentDirectory := Some "root" |} ].
Proof.
  intros resp Hstatus Hkeys Hdeps Hmax.
  rewrite constructInstallationPlan_cases. unfold walk. cbn [forEach]. unfold bind at 1.
  rewrite processDependency_first by apply lookup_empty. cbv zeta.
  cbn [dep_name dep_version].
  rewrite getCachedPackageInfo_miss by apply lookup_empty. cbv zeta. cbn [acceptHeader].
  fold resp. rewrite Hstatus. cbn [Nat.eqb negb].
  unfold resolveVersion, cachedForm. cbn [versions].
  destruct (versions (body resp)) as [|[k1 v1] [|[k2 v2] [|[k3 v3] [|]]]];
    try discriminate Hkeys.
  injection Hkeys as -> -> ->.
  specialize (Hdeps v2 eq_refl).
  cbn [keys map fst]. rewrite Hmax. simpl.
  rewrite Hdeps. reflexivity.
Qed.

End Scenario1.

(** ** The small instance *)

Lemma Mini_numeral_no_at (s : string) (acc n : nat) :
  Mini.numeral s acc = Some n → contains "@" s = false.
Proof.
  revert acc. induction s as [|a s IH]; intros acc; simpl; [done|].
  destruct (Mini.digit a) as [d|] eqn:Hd; [|done]. intros H.
  apply orb_false_iff. split; [|by eapply IH].
  destruct (Ascii.eqb_spec a "@") as [->|]; [by vm_compute in Hd|done].
Qed.

Lemma Mini_number_no_at (s : string) (n : nat) :
  Mini.number s = Some n → contains "@" s = false.
Proof. destruct s; [done|]. apply Mini_numeral_no_at. Qed.

Lemma Mini_satisfies_no_at (v range : string) :
  Mini.satisfies v range = true → contains "@" v = false.
Proof.
  unfold Mini.satisfies, Mini.parseVersion. intros H.
  destruct (split "." v) as [|a [|b [|c [|]]]] eqn:Hs; try done.
  destruct (Mini.number a) eqn:Ha; [|done].
  destruct (Mini.number b) eqn:Hb; [|done].
  destruct (Mini.number c) eqn:Hc; [|done].
  apply (contains_split "."); [done|]. rewrite Hs.
  repeat constructor; by eapply Mini_number_no_at.
Qed.

Ltac evaluate := vm_compute; reflexivity.
Ltac decided := apply (bool_decide_unpack _); vm_compute; exact I.

(** C1 as stated fails on the code.  Top level [{c: ^2.0.0, a: ^1.0.0}],
    [a@1.0.0] needs [c ^1.0.0]: the walk puts [c@2.0.0] at the top level and
    [c@1.0.0] under [a]; the hoisting loop then appends [{c, 1.0.0, "root"}],
    and the slot [("root", c)] was first sighted with [^2.0.0]. *)
Lemma hoisted_entry_misses_first_range :
  let outcome :=
    Mini.plan Hoisting Mini.registry2 3 [("c", "^2.0.0"); ("a", "^1.0.0")] in
  let item := {| name := "c"; version := Some "1.0.0"; parentDirectory := Some "root" |} in
  ∃ plan,
    returned outcome = Some plan
    ∧ item ∈ plan
    ∧ firstSighted (stateOf outcome) !! slotOf item
        = Some {| dep_name := "c"; dep_version := "^2.0.0" |}
    ∧ Mini.satisfies "1.0.0" "^2.0.0" = false
    ∧ rangeSatisfied Mini.satisfies (stateOf outcome) item = false.
Proof.
  intros outcome item. eexists. split; [evaluate|].
  split; [decided|]. repeat split; evaluate.
Qed.

Lemma walked_entries_satisfy_first_range_witness :
  let top := [("c", "^2.0.0"); ("a", "^1.0.0")] in
  let outcome := Mini.plan Hoisting Mini.registry2 3 top in
  let walked :=
    installationPlan (stateOf
      (walk Mini.satisfies Mini.semverLt Mini.validRange Mini.pathJoin Mini.registry2
         Hoisting 3 top (initialState None Hoisting))) in
  let plan :=
    [ {| name := "c"; version := Some "2.0.0"; parentDirectory := None |};
      {| name := "a"; version := Some "1.0.0"; parentDirectory := None |};
      {| name := "c"; version := Some "1.0.0"; parentDirectory := Some "a" |};
      {| name := "c"; version := Some "2.0.0"; parentDirectory := Some "root" |};
      {| name := "a"; version := Some "1.0.0"; parentDirectory := Some "root" |};
      {| name := "c"; version := Some "1.0.0"; parentDirectory := Some "root" |} ] in
  returned outcome = Some plan
  ∧ walked = take 3 plan
  ∧ ∃ hoisted,
      plan = walked ++ hoisted
      ∧ (∀ item, item ∈ walked → rangeSatisfied Mini.satisfies (stateOf outcome) item = true)
      ∧ (∀ item, item ∈ hoisted →
           parentDirectory item = Some "root"
           ∧ (item ∉ walked)
           ∧ ∃ pkgVersion, pkgVersion ∈ keys (versionUsageCount (stateOf outcome))
                           ∧ item = rootEntry pkgVersion)
      ∧ (Hoisting ≠ Hoisting → hoisted = []).
Proof.
  intros top outcome walked plan.
  assert (H : returned outcome = Some plan) by evaluate.
  split; [exact H|]. split; [evaluate|].
  exact (walked_entries_satisfy_first_range Mini.satisfies Mini.semverLt Mini.validRange
           Mini.pathJoin Mini.registry2 None Hoisting 3 top plan H).
Defined.

Lemma scenario1_returns_two_entries_witness :
  let resp := Mini.registry1 "application/json" "a" in
  status resp = 200
  ∧ keys (versions (body resp)) = ["1.0.0"; "1.2.0"; "2.0.0"]
  ∧ (∀ versionInfo, prop "1.2.0" (versions (body resp)) = Some versionInfo →
                    default [] (dependencies versionInfo) = [])
  ∧ maxSatisfying Mini.satisfies Mini.semverLt ["1.0.0"; "1.2.0"; "2.0.0"] "^1.0.0"
      = Some "1.2.0"
  ∧ returned (Mini.plan Hoisting Mini.registry1 1 [("a", "^1.0.0")])
      = Some [ {| name := "a"; version := Some "1.2.0"; parentDirectory := None |};
               {| name := "a"; version := Some "1.2.0"; parentDirectory := Some "root" |} ].
Proof.
  intros resp.
  assert (H1 : status resp = 200) by reflexivity.
  assert (H2 : keys (versions (body resp)) = ["1.0.0"; "1.2.0"; "2.0.0"]) by reflexivity.
  assert (H3 : ∀ versionInfo, prop "1.2.0" (versions (body resp)) = Some versionInfo →
                 default [] (dependencies versionInfo) = []).
  { intros versionInfo [= <-]. reflexivity. }
  assert (H4 : maxSatisfying Mini.satisfies Mini.semverLt ["1.0.0"; "1.2.0"; "2.0.0"] "^1.0.0"
               = Some "1.2.0") by evaluate.
  repeat (split; [assumption|]).
  exact (scenario1_returns_two_entries Mini.satisfies Mini.semverLt Mini.validRange
           Mini.pathJoin Mini.registry1 None 0 H1 H2 H3 H4).
Defined.

Lemma registry_queried_at_most_once_witness :
  let outcome :=
    Mini.plan Hoisting Mini.registry2 3 [("c", "^2.0.0"); ("a", "^1.0.0")] in
  let st := initialState None Hoisting in
  let first := getCachedPackageInfo Mini.registry2 Hoisting "c" st in
  (count_occ string_dec (requests (stateOf outcome)) "c" ≤ 1)%nat
  ∧ first = Return (cachedForm Hoisting (body (Mini.registry2 "application/json" "c")))
                   (stateOf first)
  ∧ getCachedPackageInfo Mini.registry2 Hoisting "c" (stateOf first)
      = Return (cachedForm Hoisting (body (Mini.registry2 "application/json" "c")))
               (stateOf first).
Proof.
  intros outcome st first.
  assert (H : first = Return (cachedForm Hoisting (body (Mini.registry2 "application/json" "c")))
                             (stateOf first)) by evaluate.
  destruct (registry_queried_at_most_once Mini.satisfies Mini.semverLt Mini.validRange
              Mini.pathJoin Mini.registry2 None Hoisting 3
              [("c", "^2.0.0"); ("a", "^1.0.0")] "c") as [Hcount Hagain].
  split; [exact Hcount|]. split; [exact H|]. exact (Hagain _ _ _ H).
Defined.

Lemma merge_only_rewrites_range_witness :
  let st := stateOf (Mini.plan Plain Mini.registry1 2 [("a", "^1.0.0")]) in
  let dep := {| dep_name := "a"; dep_version := "^1.2.0" |} in
  let existing :=
    {| slot_name := "a"; versionRange := Some "^1.0.0"; slot_parentDirectory := None |} in
  dependencyMap st !! depKeyOf None (dep_name dep) = Some existing
  ∧ ∃ st',
      processDependency Mini.satisfies Mini.semverLt Mini.validRange Mini.pathJoin
        Mini.registry1 Plain 1 dep None st = Return tt st'
      ∧ dependencyMap st' =
          <[depKeyOf None (dep_name dep) :=
              {| slot_name := slot_name existing;
                 versionRange :=
                   Mini.validRange
                     (render (versionRange existing) +:+ " || " +:+ dep_version dep);
                 slot_parentDirectory := slot_parentDirectory existing |}]>
            (dependencyMap st)
      ∧ installationPlan st' = installationPlan st
      ∧ packageInfoCache st' = packageInfoCache st
      ∧ versionUsageCount st' = versionUsageCount st
      ∧ requests st' = requests st
      ∧ cacheFileWrites st' = cacheFileWrites st
      ∧ firstSighted st' = firstSighted st.
Proof.
  intros st dep existing.
  assert (H : dependencyMap st !! depKeyOf None (dep_name dep) = Some existing) by evaluate.
  split; [exact H|].
  exact (merge_only_rewrites_range Mini.satisfies Mini.semverLt Mini.validRange Mini.pathJoin
           Mini.registry1 Plain 0 dep None st existing H).
Defined.

Lemma failure_aborts_the_plan_witness :
  let failed := Mini.plan Hoisting Mini.registry2 3 [("a", "^1.0.0"); ("b", "^1.0.0")] in
  let unresolved := Mini.plan Hoisting Mini.registry2 3 [("a", "^1.0.0"); ("c", "^3.0.0")] in
  let c3 := {| dep_name := "c"; dep_version := "^3.0.0" |} in
  (fetchFailed Mini.registry2 Hoisting (stateOf failed) "b"
   ∧ failed = Throw (FetchError "b") (stateOf failed)
   ∧ returned failed = None)
  ∧ (unsatisfiable Mini.satisfies (stateOf unresolved) c3
     ∧ unresolved = Throw (UnsatisfiableRangeError (dep_version c3)) (stateOf unresolved)
     ∧ returned unresolved = None).
Proof.
  intros failed unresolved c3.
  assert (Hb : fetchFailed Mini.registry2 Hoisting (stateOf failed) "b").
  { split; [decided|]. vm_compute. discriminate. }
  assert (Hc : unsatisfiable Mini.satisfies (stateOf unresolved) c3).
  { split; [exists "root##c"; evaluate|].
    exists (cachedForm Hoisting (body (Mini.registry2 "application/json" "c"))).
    split; [evaluate|decided]. }
  split.
  - split; [exact Hb|].
    exact (proj1 (failure_aborts_the_plan Mini.satisfies Mini.semverLt Mini.validRange
                    Mini.pathJoin Mini.registry2 None Hoisting 3
                    [("a", "^1.0.0"); ("b", "^1.0.0")]) "b" Hb).
  - split; [exact Hc|].
    exact (proj2 (failure_aborts_the_plan Mini.satisfies Mini.semverLt Mini.validRange
                    Mini.pathJoin Mini.registry2 None Hoisting 3
                    [("a", "^1.0.0"); ("c", "^3.0.0")]) c3 Hc).
Defined.

(** C8 as stated fails on [construct-plan.ts], which caches the parsed
    response as it came: after the fetch of [a], the cached value still
    has the other fields. *)
Lemma plain_revision_caches_whole_response :
  let st := initialState None Plain in
  let outcome := getCachedPackageInfo Mini.registry1 Plain "a" st in
  packageInfoCache st !! "a" = None
  ∧ requests (stateOf outcome) = ["a"]
  ∧ ∃ info,
      outcome = Return info (stateOf outcome)
      ∧ packageInfoCache (stateOf outcome) !! "a" = Some info
      ∧ otherFields info = [("description", "...")]
      ∧ onlyDependencies info = false.
Proof.
  intros st outcome. split; [evaluate|]. split; [evaluate|].
  exists (body (Mini.registry1 "application/json" "a")). repeat split; evaluate.
Qed.

Lemma cache_keeps_only_dependencies_witness :
  let st := initialState None Persistent in
  let outcome := getCachedPackageInfo Mini.registry2 Persistent "a" st in
  let info :=
    cachedForm Persistent (body (Mini.registry2 "application/vnd.npm.install-v1+json" "a")) in
  Persistent ≠ Plain
  ∧ packageInfoCache st !! "a" = None
  ∧ outcome = Return info (stateOf outcome)
  ∧ packageInfoCache (stateOf outcome) !! "a" = Some info
  ∧ onlyDependencies info = true
  ∧ manifests info =
      manifests (body (Mini.registry2 (acceptHeader Persistent) "a")).
Proof.
  intros st outcome info.
  assert (H1 : Persistent ≠ Plain) by discriminate.
  assert (H2 : packageInfoCache st !! "a" = None) by evaluate.
  assert (H3 : outcome = Return info (stateOf outcome)) by evaluate.
  split; [exact H1|]. split; [exact H2|]. split; [exact H3|].
  exact (cache_keeps_only_dependencies Mini.registry2 Persistent "a" st (stateOf outcome)
           info H1 H2 H3).
Defined.

Lemma hoisting_recovers_ledger_record_witness :
  let outcome := Mini.plan Hoisting Mini.registry2 3 [("a", "^1.0.0")] in
  let plan :=
    [ {| name := "a"; version := Some "1.0.0"; parentDirectory := None |};
      {| name := "c"; version := Some "1.0.0"; parentDirectory := Some "a" |};
      {| name := "a"; version := Some "1.0.0"; parentDirectory := Some "root" |};
      {| name := "c"; version := Some "1.0.0"; parentDirectory := Some "root" |} ] in
  (∀ v range, Mini.satisfies v range = true → contains "@" v = false)
  ∧ returned outcome = Some plan
  ∧ "c@1.0.0" ∈ keys (versionUsageCount (stateOf outcome))
  ∧ ∃ item v,
      item ∈ plan
      ∧ version item = Some v
      ∧ "c@1.0.0" = versionCountKey (name item) v
      ∧ (contains "@" (name item) = false →
         split "@" "c@1.0.0" = [name item; v]
         ∧ rootEntry "c@1.0.0" =
             {| name := name item; version := Some v; parentDirectory := Some "root" |}
         ∧ rootEntry "c@1.0.0" ∈ plan).
Proof.
  intros outcome plan.
  assert (H1 : returned outcome = Some plan) by evaluate.
  assert (H2 : "c@1.0.0" ∈ keys (versionUsageCount (stateOf outcome))) by decided.
  split; [exact Mini_satisfies_no_at|]. split; [exact H1|]. split; [exact H2|].
  exact (hoisting_recovers_ledger_record Mini.satisfies Mini.semverLt Mini.validRange
           Mini.pathJoin Mini.registry2 None Mini_satisfies_no_at 3 [("a", "^1.0.0")]
           plan "c@1.0.0" H1 H2).
Defined.

(** * Further properties *)

(** ** First sightings, and a rule for invariants of the walk *)

Lemma trackUsage_Hoisting (name' v : string) (pd : option string) (st : State) :
  trackUsage Hoisting name' v pd st =
    Return tt (withUsage (recordUsage (versionCountKey name' v) (orRoot pd)) st).
Proof. reflexivity. Qed.

Section SightingFacts.

Variable satisfies : string → string → bool.
Variable semverLt : string → string → bool.
Variable validRange : string → option string.
Variable pathJoin : list string → string.
Variable fetch : string → string → Response.

Lemma getCachedPackageInfo_obtained (revision : Variant) (packageName : string)
    (st : State) :
  post (getCachedPackageInfo fetch revision packageName st)
    (fun info st' =>
       obtained fetch revision packageName info st st'
       ∧ installationPlan st' = installationPlan st
       ∧ dependencyMap st' = dependencyMap st
       ∧ firstSighted st' = firstSighted st
       ∧ versionUsageCount st' = versionUsageCount st)
    (fun e st' =>
       e = FetchError packageName
       ∧ packageInfoCache st !! packageName = None
       ∧ status (fetch (acceptHeader revision) packageName) ≠ 200
       ∧ st' = logRequest packageName st)
    (fun _ => False).
Proof.
  destruct (packageInfoCache st !! packageName) as [info|] eqn:Hc.
  - rewrite (getCachedPackageInfo_hit _ _ _ _ _ Hc). simpl.
    split; [|done]. by left.
  - rewrite (getCachedPackageInfo_miss _ _ _ _ Hc). cbv zeta.
    destruct (Nat.eqb_spec (status (fetch (acceptHeader revision) packageName)) 200)
      as [Hok|Hbad]; simpl; [|done].
    split; [|by destruct revision].
    right. by destruct revision.
Qed.

(** The two ways a first sighting can go, and what the call does next. *)
Lemma processDependency_sighting (revision : Variant) (fuel : nat) (dep : Dependency)
    (pd : option string) (st : State) :
  dependencyMap st !! depKeyOf pd (dep_name dep) = None →
  (∃ deps st1,
     Sighted satisfies semverLt fetch revision dep pd st st1 deps
     ∧ processDependency satisfies semverLt validRange pathJoin fetch revision
         (S fuel) dep pd st =
       forEach
         (fun '(childName, childVersionRange) =>
            processDependency satisfies semverLt validRange pathJoin fetch revision fuel
              {| dep_name := childName; dep_version := childVersionRange |}
              (Some (childParentDirectoryOf pathJoin pd (dep_name dep))))
         deps st1)
  ∨ (∃ e st1,
       SightFailed satisfies semverLt fetch revision dep pd st e st1
       ∧ processDependency satisfies semverLt validRange pathJoin fetch revision
           (S fuel) dep pd st = Throw e st1).
Proof.
  intros Hkey. rewrite (processDependency_first _ _ _ _ _ _ _ _ _ _ Hkey). cbv zeta.
  set (depKey := depKeyOf pd (dep_name dep)).
  set (st1 := noteFirstSighting depKey dep _).
  pose proof (getCachedPackageInfo_obtained revision (dep_name dep) st1) as Hget.
  destruct (getCachedPackageInfo _ _ _ _) as [info st2|e st2|st2]; simpl in Hget; [| |done].
  2:{ destruct Hget as (-> & Hmiss & Hbad & ->). right. eexists _, _. split; [|done].
      split; try done. left. by repeat split. }
  destruct Hget as (Hinfo & Hplan2 & Hmap2 & Hfirst2 & Husage2).
  assert (Hinfo' : obtained fetch revision (dep_name dep) info st st2).
  { destruct Hinfo as [H|H]; [left|right]; exact H. }
  unfold resolveVersion.
  destruct (maxSatisfying _ _ _ _) as [v|] eqn:Hmax.
  2:{ right. eexists _, _. split; [|done]. split; try done.
      right. split; [done|]. exists info. split; [done|by left]. }
  destruct (String.eqb_spec v "") as [->|Hne].
  { right. eexists _, _. split; [|done]. split; try done.
    right. split; [done|]. exists info. split; [done|by right]. }
  simpl.
  destruct (maxSatisfying_sound _ _ _ _ _ Hmax) as [Hv _].
  destruct (prop_keys _ _ Hv) as [versionInfo Hvi]. rewrite Hvi.
  left. destruct revision.
  all: eexists _, _; (split; [|reflexivity]);
    econstructor; simpl; rewrite ?Hplan2, ?Husage2; done.
Qed.

End SightingFacts.

Lemma post_mono {A} (o : Outcome A)
    (R R' : A → State → Prop) (T T' : Error → State → Prop) (F F' : State → Prop) :
  post o R T F →
  (∀ a st, R a st → R' a st) → (∀ e st, T e st → T' e st) → (∀ st, F st → F' st) →
  post o R' T' F'.
Proof. destruct o; simpl; auto. Qed.

Section Rule.

Variable satisfies : string → string → bool.
Variable semverLt : string → string → bool.
Variable validRange : string → option string.
Variable pathJoin : list string → string.
Variable fetch : string → string → Response.
Variable revision : Variant.

Variable I : State → Prop.
Variable Pre : option string → State → Prop.
Variable T : Error → State → Prop.

Hypothesis merge_keeps :
  ∀ st depKey pr, I st → is_Some (dependencyMap st !! depKey) →
    I (withDependencyMap <[depKey := pr]> st)
    ∧ ∀ q, Pre q st → Pre q (withDependencyMap <[depKey := pr]> st).

Hypothesis sighting_keeps :
  ∀ dep pd st st' deps, I st → Pre pd st →
    dependencyMap st !! depKeyOf pd (dep_name dep) = None →
    Sighted satisfies semverLt fetch revision dep pd st st' deps →
    I st' ∧ (∀ q, Pre q st → Pre q st')
    ∧ Pre (Some (childParentDirectoryOf pathJoin pd (dep_name dep))) st'.

Hypothesis failure_gives :
  ∀ dep pd st e st', I st → Pre pd st →
    dependencyMap st !! depKeyOf pd (dep_name dep) = None →
    SightFailed satisfies semverLt fetch revision dep pd st e st' →
    T e st'.

Hypothesis top_level : ∀ st, I st → Pre None st.

Lemma processDependency_rule (fuel : nat) (dep : Dependency) (pd : option string)
    (st : State) :
  I st → Pre pd st →
  post (processDependency satisfies semverLt validRange pathJoin fetch revision fuel dep pd st)
    (fun _ st' => I st' ∧ ∀ q, Pre q st → Pre q st')
    T
    (fun st' => I st' ∧ ∀ q, Pre q st → Pre q st').
Proof.
  revert dep pd st. induction fuel as [|fuel IH]; intros dep pd st HI Hpd; [done|].
  destruct (dependencyMap st !! depKeyOf pd (dep_name dep)) as [existing|] eqn:Hkey.
  { simpl. unfold bind, gets. rewrite Hkey. simpl. by apply merge_keeps. }
  destruct (processDependency_sighting satisfies semverLt validRange pathJoin fetch revision
              fuel dep pd st Hkey) as [(deps & st1 & HS & ->)|(e & st1 & HF & ->)].
  2:{ simpl. by eapply failure_gives. }
  destruct (sighting_keeps _ _ _ _ _ HI Hpd Hkey HS) as (HI1 & Hstable & Hchild).
  set (child := Some (childParentDirectoryOf pathJoin pd (dep_name dep))) in *.
  eapply post_mono.
  - apply (post_forEach _ _
             (fun s => I s ∧ (∀ q, Pre q st → Pre q s) ∧ Pre child s) T); [|done].
    intros [childName childVersionRange] s (HIs & Hs & Hcs).
    eapply post_mono; [apply (IH _ child s HIs Hcs)| | |]; simpl; try done.
    + intros _ s' [HIs' Hs']. auto.
    + intros s' [HIs' Hs']. auto.
  - simpl. tauto.
  - done.
  - simpl. tauto.
Qed.

Lemma walk_rule (fuel : nat) (topLevelDependencies : list (string * string)) (st : State) :
  I st →
  post (walk satisfies semverLt validRange pathJoin fetch revision fuel
          topLevelDependencies st)
    (fun _ => I) T I.
Proof.
  intros HI. unfold walk. apply post_forEach; [|done].
  intros [name' versionRange'] s HIs.
  eapply post_mono; [apply processDependency_rule; auto| | |]; simpl; tauto.
Qed.

End Rule.

Lemma post_stateOf {A} (o : Outcome A) (P : State → Prop) :
  post o (fun _ => P) (fun _ => P) P → P (stateOf o).
Proof. by destruct o. Qed.

Section Lifting.

Variable satisfies : string → string → bool.
Variable semverLt : string → string → bool.
Variable validRange : string → option string.
Variable pathJoin : list string → string.
Variable fetch : string → string → Response.
Variable cacheFile : option (list (string * PackageData)).

(** A property of the state that does not look at the plan passes from the
    walk to the whole call. *)
Lemma constructInstallationPlan_lift (revision : Variant) (fuel : nat)
    (topLevelDependencies : list (string * string))
    (P : State → Prop) (T : Error → State → Prop) :
  (∀ st f, P st → P (withPlan f st)) →
  post (walk satisfies semverLt validRange pathJoin fetch revision fuel
          topLevelDependencies (initialState cacheFile revision))
    (fun _ => P) T P →
  post (constructInstallationPlan satisfies semverLt validRange pathJoin fetch cacheFile
          revision fuel topLevelDependencies)
    (fun _ => P) T P.
Proof.
  intros Hblind H. rewrite constructInstallationPlan_cases.
  destruct (walk _ _ _ _ _ _ _ _ _) as [[] st|e st|st]; simpl in *; [|done|done].
  destruct revision; simpl; [done| |done]. by apply Hblind.
Qed.

Lemma obtained_cache (revision : Variant) (n : string) (info : PackageData)
    (st st' : State) :
  obtained fetch revision n info st st' →
  packageInfoCache st' !! n = Some info
  ∧ packageInfoCache st ⊆ packageInfoCache st'.
Proof.
  intros [(Hhit & -> & _)|(Hmiss & _ & _ & -> & _)].
  - done.
  - split; [apply lookup_insert_eq|by apply insert_subseteq].
Qed.

(** X1. A call of [processDependency], however it ends, only adds: the
    plan, the request log and the log of cache-file writes of the state it
    started from are prefixes of those it leaves, every cached document is
    still cached unchanged, and every recorded slot is still recorded. *)
Theorem processDependency_only_adds (revision : Variant) (fuel : nat) (dep : Dependency)
    (pd : option string) (st : State) :
  let st' :=
    stateOf (processDependency satisfies semverLt validRange pathJoin fetch revision
               fuel dep pd st) in
  installationPlan st `prefix_of` installationPlan st'
  ∧ requests st `prefix_of` requests st'
  ∧ cacheFileWrites st `prefix_of` cacheFileWrites st'
  ∧ packageInfoCache st ⊆ packageInfoCache st'
  ∧ ∀ depKey, is_Some (dependencyMap st !! depKey) → is_Some (dependencyMap st' !! depKey).
Proof.
  set (P := fun s : State =>
    installationPlan st `prefix_of` installationPlan s
    ∧ requests st `prefix_of` requests s
    ∧ cacheFileWrites st `prefix_of` cacheFileWrites s
    ∧ packageInfoCache st ⊆ packageInfoCache s
    ∧ ∀ depKey, is_Some (dependencyMap st !! depKey) → is_Some (dependencyMap s !! depKey)).
  intros st'. subst st'. apply (post_stateOf _ P).
  eapply post_mono;
    [apply (processDependency_rule satisfies semverLt validRange pathJoin fetch revision
              P (fun _ _ => True) (fun _ => P))| | |]; try done; try (simpl; tauto).
  - intros s k pr (H1 & H2 & H3 & H4 & H5) _. split; [|done].
    repeat (split; [done|]). intros k' Hk'. by apply is_Some_insert, H5.
  - intros d q s s' deps (H1 & H2 & H3 & H4 & H5) _ _ [info v vi Hplan Hmap _ Hinfo _ _ _ _ _].
    split; [|done]. unfold P. rewrite Hplan, Hmap.
    destruct (obtained_cache _ _ _ _ _ Hinfo) as [_ Hsub].
    split; [by apply prefix_app_r|].
    assert (Hrw : requests s `prefix_of` requests s'
                  ∧ cacheFileWrites s `prefix_of` cacheFileWrites s').
    { destruct Hinfo as [(_ & _ & -> & ->)|(_ & _ & _ & _ & -> & ->)]; [done|].
      split; [by apply prefix_app_r|]. destruct revision; try done. by apply prefix_app_r. }
    destruct Hrw as [Hr Hw].
    split; [by transitivity (requests s)|].
    split; [by transitivity (cacheFileWrites s)|].
    split; [by transitivity (packageInfoCache s)|].
    intros k' Hk'. by apply is_Some_insert, H5.
  - intros d q s e s' (H1 & H2 & H3 & H4 & H5) _ _ [Hplan Hmap _ _ Hwhy].
    unfold P. rewrite Hplan, Hmap.
    split; [done|].
    assert (Hrest : requests s `prefix_of` requests s'
                    ∧ cacheFileWrites s `prefix_of` cacheFileWrites s'
                    ∧ packageInfoCache s ⊆ packageInfoCache s').
    { destruct Hwhy as [(_ & _ & _ & -> & -> & ->)|(_ & info & Hinfo & _)].
      - split; [by apply prefix_app_r|done].
      - destruct (obtained_cache _ _ _ _ _ Hinfo) as [_ Hsub].
        destruct Hinfo as [(_ & _ & -> & ->)|(_ & _ & _ & _ & -> & ->)]; [done|].
        split; [by apply prefix_app_r|]. split; [|done].
        destruct revision; try done. by apply prefix_app_r. }
    destruct Hrest as (Hr & Hw & Hc).
    split; [by transitivity (requests s)|].
    split; [by transitivity (cacheFileWrites s)|].
    split; [by transitivity (packageInfoCache s)|].
    intros k' Hk'. by apply is_Some_insert, H5.
Qed.

End Lifting.

(** ** Invariants of the walk and of the whole call *)

Section MoreInvariants.

Variable satisfies : string → string → bool.
Variable semverLt : string → string → bool.
Variable validRange : string → option string.
Variable pathJoin : list string → string.
Variable fetch : string → string → Response.
Variable cacheFile : option (list (string * PackageData)).

(** X2. The walk makes exactly one plan entry per slot: when it ends
    normally, or is still going, the plan has as many entries as
    [dependencyMap] has keys; when it throws, [dependencyMap] has one key
    more, that of the dependency that failed. *)
Theorem one_entry_per_slot (revision : Variant) (fuel : nat)
    (topLevelDependencies : list (string * string)) :
  match walk satisfies semverLt validRange pathJoin fetch revision fuel
          topLevelDependencies (initialState cacheFile revision) with
  | Return _ st | OutOfFuel st =>
      List.length (installationPlan st) = size (dependencyMap st)
  | Throw _ st =>
      size (dependencyMap st) = S (List.length (installationPlan st))
  end.
Proof.
  pose proof (walk_rule satisfies semverLt validRange pathJoin fetch revision
    (fun s => List.length (installationPlan s) = size (dependencyMap s))
    (fun _ _ => True)
    (fun _ s => size (dependencyMap s) = S (List.length (installationPlan s)))) as H.
  lapply H; clear H.
  2:{ intros s k pr Hs Hk. split; [|done]. simpl.
      by rewrite map_size_insert_Some. }
  intros H. lapply H; clear H.
  2:{ intros d q s s' deps Hs _ Hkey [info v vi Hplan Hmap _ _ _ _ _ _ _].
      split; [|done]. rewrite Hplan, Hmap, length_app, map_size_insert_None by done.
      simpl. lia. }
  intros H. lapply H; clear H.
  2:{ intros d q s e s' Hs _ Hkey [Hplan Hmap _ _ _].
      rewrite Hplan, Hmap, map_size_insert_None by done. lia. }
  intros H. specialize (H (fun _ _ => I) fuel topLevelDependencies
                          (initialState cacheFile revision) eq_refl).
  by destruct (walk _ _ _ _ _ _ _ _ _).
Qed.

(** X3. Every entry that the walk pushes bears a version that the cached
    metadata of its package lists: a non-empty string that is a key of the
    [versions] object cached under the entry's name.  This holds in every
    outcome of the walk. *)
Theorem entries_bear_listed_versions (revision : Variant) (fuel : nat)
    (topLevelDependencies : list (string * string)) (item : DependencyInstallation) :
  let st :=
    stateOf (walk satisfies semverLt validRange pathJoin fetch revision fuel
               topLevelDependencies (initialState cacheFile revision)) in
  item ∈ installationPlan st →
  ∃ info v,
    packageInfoCache st !! name item = Some info
    ∧ version item = Some v
    ∧ v ≠ ""
    ∧ v ∈ keys (versions info).
Proof.
  set (P := fun s : State =>
    ∀ item, item ∈ installationPlan s →
      ∃ info v, packageInfoCache s !! name item = Some info
                ∧ version item = Some v ∧ v ≠ "" ∧ v ∈ keys (versions info)).
  intros st. subst st. revert item. apply (post_stateOf _ P).
  apply (walk_rule satisfies semverLt validRange pathJoin fetch revision
           P (fun _ _ => True) (fun _ => P)); try done.
  - intros d q s s' deps Hs _ _ [info v vi Hplan _ _ Hinfo _ Hmax Hne _ _].
    split; [|done]. intros item. rewrite Hplan.
    destruct (obtained_cache _ _ _ _ _ _ Hinfo) as [Hnew Hsub].
    intros [Hin| ->%list_elem_of_singleton]%elem_of_app.
    + destruct (Hs _ Hin) as (i & w & Hi & Hw & Hwne & Hwin).
      exists i, w. split; [by eapply lookup_weaken|done].
    + exists info, v. simpl. split; [done|]. split; [done|]. split; [done|].
      by destruct (maxSatisfying_sound _ _ _ _ _ Hmax).
  - intros d q s e s' Hs _ _ [Hplan _ _ _ Hwhy] item. rewrite Hplan. intros Hin.
    destruct (Hs _ Hin) as (i & w & Hi & Hw & Hwne & Hwin).
    exists i, w. split; [|done].
    destruct Hwhy as [(_ & _ & _ & -> & _)|(_ & info & Hinfo & _)]; [done|].
    destruct (obtained_cache _ _ _ _ _ _ Hinfo) as [_ Hsub]. by eapply lookup_weaken.
  - by intros item ?%elem_of_nil.
Qed.

(** X4. What the cache held at the start (the content of the cache file,
    in the persistent revision) is never requested from the registry and is
    never replaced: whatever the outcome of the call, such a package is
    absent from the request log and is cached with the value it had. *)
Theorem cache_file_entries_are_not_fetched (revision : Variant) (fuel : nat)
    (topLevelDependencies : list (string * string)) (packageName : string)
    (info : PackageData) :
  let st :=
    stateOf (constructInstallationPlan satisfies semverLt validRange pathJoin fetch
               cacheFile revision fuel topLevelDependencies) in
  initialCache cacheFile revision !! packageName = Some info →
  (packageName ∉ requests st)
  ∧ packageInfoCache st !! packageName = Some info.
Proof.
  set (P := fun s : State =>
    initialCache cacheFile revision ⊆ packageInfoCache s
    ∧ ∀ n, n ∈ requests s → initialCache cacheFile revision !! n = None).
  intros st. subst st.
  assert (HP : P (stateOf (constructInstallationPlan satisfies semverLt validRange pathJoin
                             fetch cacheFile revision fuel topLevelDependencies))).
  { apply post_stateOf, constructInstallationPlan_lift; [done|].
    apply (walk_rule satisfies semverLt validRange pathJoin fetch revision
             P (fun _ _ => True) (fun _ => P)); try done.
    - intros d q s s' deps [Hsub Hreq] _ _ [i v vi _ _ _ Hinfo _ _ _ _ _].
      split; [|done].
      destruct (obtained_cache _ _ _ _ _ _ Hinfo) as [_ Hsub'].
      split; [by transitivity (packageInfoCache s)|].
      destruct Hinfo as [(_ & _ & -> & _)|(Hmiss & _ & _ & _ & -> & _)]; [done|].
      intros n [Hn| ->%list_elem_of_singleton]%elem_of_app; [by apply Hreq|].
      by eapply lookup_weaken_None.
    - intros d q s e s' [Hsub Hreq] _ _ [_ _ _ _ Hwhy]. unfold P.
      destruct Hwhy as [(_ & Hmiss & _ & -> & -> & _)|(_ & i & Hinfo & _)].
      + split; [done|].
        intros n [Hn| ->%list_elem_of_singleton]%elem_of_app; [by apply Hreq|].
        by eapply lookup_weaken_None.
      + destruct (obtained_cache _ _ _ _ _ _ Hinfo) as [_ Hsub'].
        split; [by transitivity (packageInfoCache s)|].
        destruct Hinfo as [(_ & _ & -> & _)|(Hmiss & _ & _ & _ & -> & _)]; [done|].
        intros n [Hn| ->%list_elem_of_singleton]%elem_of_app; [by apply Hreq|].
        by eapply lookup_weaken_None.
    - split; [done|]. by intros n ?%elem_of_nil. }
  destruct HP as [Hsub Hreq]. intros Hinit. split.
  - intros Hin. specialize (Hreq _ Hin). congruence.
  - by eapply lookup_weaken.
Qed.

(** X5. Every document in the cache has one of two origins, whatever the
    outcome of the call: it was in the cache at the start, or it is the
    cached form of the registry's 200 answer to a request of the log; and
    every request of the log that was answered 200 is cached in that
    form. *)
Theorem cache_holds_file_or_registry_documents (revision : Variant) (fuel : nat)
    (topLevelDependencies : list (string * string)) (packageName : string) :
  let st :=
    stateOf (constructInstallationPlan satisfies semverLt validRange pathJoin fetch
               cacheFile revision fuel topLevelDependencies) in
  let answer := fetch (acceptHeader revision) packageName in
  (∀ info, packageInfoCache st !! packageName = Some info →
     initialCache cacheFile revision !! packageName = Some info
     ∨ (packageName ∈ requests st ∧ status answer = 200
        ∧ info = cachedForm revision (body answer)))
  ∧ (packageName ∈ requests st → status answer = 200 →
     packageInfoCache st !! packageName = Some (cachedForm revision (body answer))).
Proof.
  set (P := fun s : State =>
    (∀ n info, packageInfoCache s !! n = Some info →
       initialCache cacheFile revision !! n = Some info
       ∨ (n ∈ requests s ∧ status (fetch (acceptHeader revision) n) = 200
          ∧ info = cachedForm revision (body (fetch (acceptHeader revision) n))))
    ∧ (∀ n, n ∈ requests s → status (fetch (acceptHeader revision) n) = 200 →
         packageInfoCache s !! n
           = Some (cachedForm revision (body (fetch (acceptHeader revision) n))))).
  intros st answer. subst st answer.
  assert (HP : P (stateOf (constructInstallationPlan satisfies semverLt validRange pathJoin
                             fetch cacheFile revision fuel topLevelDependencies))).
  { assert (Hstep : ∀ s s' n i, P s → obtained fetch revision n i s s' → P s').
    { intros s s' n i [Hcache Hreq] Hob. unfold P.
      destruct Hob as [(_ & -> & -> & _)|(Hmiss & Hok & -> & -> & -> & _)]; [done|].
      split.
      - intros m info. destruct (decide (n = m)) as [<-|Hne].
        + rewrite lookup_insert_eq. intros [= <-]. right.
          split; [|done]. apply elem_of_app. right. by apply list_elem_of_singleton.
        + rewrite lookup_insert_ne by done. intros Hm.
          destruct (Hcache _ _ Hm) as [?|(? & ? & ?)]; [by left|right].
          split; [|done]. apply elem_of_app. by left.
      - intros m [Hm| ->%list_elem_of_singleton]%elem_of_app Hstatus.
        + destruct (decide (n = m)) as [<-|Hne]; [by rewrite lookup_insert_eq|].
          rewrite lookup_insert_ne by done. by apply Hreq.
        + by rewrite lookup_insert_eq. }
    apply post_stateOf, constructInstallationPlan_lift; [done|].
    apply (walk_rule satisfies semverLt validRange pathJoin fetch revision
             P (fun _ _ => True) (fun _ => P)); try done.
    - intros d q s s' deps Hs _ _ [i v vi _ _ _ Hinfo _ _ _ _ _].
      split; [|done]. by eapply Hstep.
    - intros d q s e s' [Hcache Hreq] _ _ [_ _ _ _ Hwhy]. unfold P.
      destruct Hwhy as [(_ & Hmiss & Hbad & -> & -> & _)|(_ & i & Hinfo & _)].
      + split.
        * intros m info Hm. destruct (Hcache _ _ Hm) as [?|(? & ? & ?)]; [by left|right].
          split; [|done]. apply elem_of_app. by left.
        * intros m [Hm| ->%list_elem_of_singleton]%elem_of_app Hstatus; [by apply Hreq|done].
      + by eapply (Hstep s s').
    - split; [by left|]. by intros n ?%elem_of_nil. }
  destruct HP as [Hcache Hreq]. split; [apply Hcache|apply Hreq].
Qed.

End MoreInvariants.

(** ** The cache file, the shape of the plan, the ledger *)

Lemma prop_mapSet_eq {V} (k : string) (v : V) (m : list (string * V)) :
  prop k (mapSet k v m) = Some v.
Proof.
  induction m as [|[k0 v0] m IH]; simpl.
  - by rewrite String.eqb_refl.
  - destruct (String.eqb_spec k0 k) as [->|Hne]; simpl.
    + by rewrite String.eqb_refl.
    + by destruct (String.eqb_spec k0 k).
Qed.

Lemma prop_mapSet_ne {V} (k k' : string) (v : V) (m : list (string * V)) :
  k ≠ k' → prop k' (mapSet k v m) = prop k' m.
Proof.
  intros Hne. induction m as [|[k0 v0] m IH]; simpl.
  - by destruct (String.eqb_spec k k').
  - destruct (String.eqb_spec k0 k) as [->|Hne0]; simpl.
    + by destruct (String.eqb_spec k k').
    + by rewrite IH.
Qed.

Lemma prop_None_keys {V} (k : string) (m : list (string * V)) :
  prop k m = None → k ∉ keys m.
Proof.
  intros Hnone Hin. destruct (prop_keys _ _ Hin) as [x Hx]. congruence.
Qed.

Lemma keys_mapSet_old {V} (k : string) (v : V) (m : list (string * V)) :
  is_Some (prop k m) → keys (mapSet k v m) = keys m.
Proof.
  unfold keys. induction m as [|[k0 v0] m IH]; simpl; intros [x Hx]; [done|].
  destruct (String.eqb_spec k0 k) as [->|Hne]; simpl; [done|].
  rewrite IH; [done|by eexists].
Qed.

Lemma keys_mapSet_new {V} (k : string) (v : V) (m : list (string * V)) :
  prop k m = None → keys (mapSet k v m) = keys m ++ [k].
Proof.
  unfold keys. induction m as [|[k0 v0] m IH]; simpl; intros Hnone; [done|].
  destruct (String.eqb_spec k0 k) as [->|Hne]; simpl; [done|].
  by rewrite IH.
Qed.

(** What [recordUsage] does to the ledger: the record of the key gains one
    count and one directory, starting from nothing; no other record moves;
    a new key goes to the end. *)
Lemma recordUsage_prop (key dir k : string) (usage : list (string * PackageVersionInfo)) :
  prop k (recordUsage key dir usage) =
    if decide (k = key) then
      Some {| count := S (from_option count 0 (prop key usage));
              parentDirectories :=
                from_option parentDirectories [] (prop key usage) ++ [dir] |}
    else prop k usage.
Proof.
  unfold recordUsage. destruct (prop key usage) as [i|] eqn:Hkey; simpl.
  - rewrite Hkey. destruct (decide (k = key)) as [->|Hne].
    + apply prop_mapSet_eq.
    + by apply prop_mapSet_ne.
  - rewrite prop_mapSet_eq. destruct (decide (k = key)) as [->|Hne].
    + apply prop_mapSet_eq.
    + rewrite !prop_mapSet_ne by done. done.
Qed.

Lemma recordUsage_keys (key dir : string) (usage : list (string * PackageVersionInfo)) :
  keys (recordUsage key dir usage) =
    match prop key usage with
    | Some _ => keys usage
    | None => keys usage ++ [key]
    end.
Proof.
  unfold recordUsage. destruct (prop key usage) as [i|] eqn:Hkey.
  - rewrite Hkey. apply keys_mapSet_old. by eexists.
  - rewrite prop_mapSet_eq.
    rewrite keys_mapSet_old by (rewrite prop_mapSet_eq; by eexists).
    by apply keys_mapSet_new.
Qed.

Lemma ledgerOf_snoc (plan : list DependencyInstallation) (item : DependencyInstallation) (k : string) :
  ledgerOf (plan ++ [item]) k =
    if decide (k = ledgerKey item) then
      Some {| count := S (from_option count 0 (ledgerOf plan k));
              parentDirectories :=
                from_option parentDirectories [] (ledgerOf plan k)
                ++ [orRoot (parentDirectory item)] |}
    else ledgerOf plan k.
Proof.
  unfold ledgerOf. rewrite filter_app, filter_cons, filter_nil.
  destruct (decide (k = ledgerKey item)) as [->|Hne].
  - rewrite decide_True by done.
    destruct (filter _ plan) as [|x xs]; simpl; [done|].
    by rewrite length_app, map_app, Nat.add_1_r.
  - rewrite decide_False by done. by rewrite app_nil_r.
Qed.

Section CacheFileAndShape.

Variable satisfies : string → string → bool.
Variable semverLt : string → string → bool.
Variable validRange : string → option string.
Variable pathJoin : list string → string.
Variable fetch : string → string → Response.
Variable cacheFile : option (list (string * PackageData)).

Lemma writes_without_cache_file (revision : Variant) (s s' : State) (n : string)
    (i : PackageData) :
  revision ≠ Persistent → obtained fetch revision n i s s' →
  cacheFileWrites s' = cacheFileWrites s.
Proof.
  intros Hrev [(_ & _ & _ & ->)|(_ & _ & _ & _ & _ & ->)]; [done|]. by destruct revision.
Qed.

Lemma mirrored_step (s s' : State) (n : string) (i : PackageData) :
  mirrored fetch Persistent s → obtained fetch Persistent n i s s' →
  mirrored fetch Persistent s'.
Proof.
  unfold mirrored, answered.
  intros [Hlen Hlast] [(_ & -> & -> & ->)|(Hmiss & Hok & _ & _ & -> & ->)]; [done|].
  rewrite filter_app, filter_cons, filter_nil, decide_True by done.
  rewrite !length_app, last_snoc, Hlen. split; [done|]. by intros w [= <-].
Qed.

(** X6. The two revisions without a cache file never write one.  The
    persistent revision writes the file once for every request that the
    registry answered with 200, and what it wrote last is the cache it
    holds in memory, whatever the outcome of the call. *)
Theorem cache_file_mirrors_the_cache (revision : Variant) (fuel : nat)
    (topLevelDependencies : list (string * string)) :
  let st :=
    stateOf (constructInstallationPlan satisfies semverLt validRange pathJoin fetch
               cacheFile revision fuel topLevelDependencies) in
  match revision with
  | Persistent => mirrored fetch Persistent st
  | Plain | Hoisting => cacheFileWrites st = []
  end.
Proof.
  intros st. subst st.
  assert (Hnone : ∀ revision, revision ≠ Persistent →
            cacheFileWrites
              (stateOf (constructInstallationPlan satisfies semverLt validRange pathJoin fetch
                          cacheFile revision fuel topLevelDependencies)) = []).
  { intros rev Hrev. apply (post_stateOf _ (fun s => cacheFileWrites s = [])).
    apply constructInstallationPlan_lift; [done|].
    apply (walk_rule satisfies semverLt validRange pathJoin fetch rev
             (fun s => cacheFileWrites s = []) (fun _ _ => True)
             (fun _ s => cacheFileWrites s = [])); try done.
    - intros d q s s' deps Hs _ _ [i v vi _ _ _ Hinfo _ _ _ _ _].
      split; [|done]. by rewrite (writes_without_cache_file _ _ _ _ _ Hrev Hinfo).
    - intros d q s e s' Hs _ _ [_ _ _ _ Hwhy].
      destruct Hwhy as [(_ & _ & _ & _ & _ & ->)|(_ & i & Hinfo & _)]; [done|].
      by rewrite (writes_without_cache_file _ _ _ _ _ Hrev Hinfo). }
  destruct revision; [by apply Hnone|by apply Hnone|].
  apply (post_stateOf _ (mirrored fetch Persistent)).
  apply constructInstallationPlan_lift; [done|].
  apply (walk_rule satisfies semverLt validRange pathJoin fetch Persistent
           (mirrored fetch Persistent) (fun _ _ => True)
           (fun _ => mirrored fetch Persistent)); try done.
  - intros d q s s' deps Hs _ _ [i v vi _ _ _ Hinfo _ _ _ _ _].
    split; [|done]. by eapply mirrored_step.
  - intros d q s e s' Hs _ _ [_ _ _ _ Hwhy].
    destruct Hwhy as [(_ & Hmiss & Hbad & Hc & Hr & Hw)|(_ & i & Hinfo & _)];
      [|by eapply mirrored_step].
    unfold mirrored, answered in *. rewrite Hc, Hr, Hw.
    by rewrite filter_app, filter_cons, filter_nil, decide_False, app_nil_r.
Qed.

Lemma placed_app (plan more : InstallationPlan) (pd : option string) :
  placed pathJoin plan pd → placed pathJoin (plan ++ more) pd.
Proof.
  intros [->|(parent & Hin & ->)]; [by left|right].
  exists parent. split; [|done]. apply elem_of_app. by left.
Qed.

(** X7. The entries of the walk form a forest of directories: every entry
    is either at the top level ([parentDirectory] undefined) or in the
    child directory of another entry of the plan, that is [name] of a
    top-level parent and [path.join(dir, 'node_modules', name)] of a parent
    in [dir].  This holds in every outcome of the walk. *)
Theorem entries_sit_under_their_parents (revision : Variant) (fuel : nat)
    (topLevelDependencies : list (string * string)) (item : DependencyInstallation) :
  let st :=
    stateOf (walk satisfies semverLt validRange pathJoin fetch revision fuel
               topLevelDependencies (initialState cacheFile revision)) in
  item ∈ installationPlan st →
  parentDirectory item = None
  ∨ ∃ parent, parent ∈ installationPlan st
              ∧ parentDirectory item = Some (childDirectory pathJoin parent).
Proof.
  set (P := fun s : State =>
    ∀ item, item ∈ installationPlan s →
      placed pathJoin (installationPlan s) (parentDirectory item)).
  intros st. subst st. revert item. apply (post_stateOf _ P).
  apply (walk_rule satisfies semverLt validRange pathJoin fetch revision
           P (fun q s => placed pathJoin (installationPlan s) q) (fun _ => P)); try done.
  - intros d q s s' deps Hs Hq _ [i v vi Hplan _ _ _ _ _ _ _ _].
    split; [|split].
    + intros item. rewrite Hplan.
      intros [Hin| ->%list_elem_of_singleton]%elem_of_app; apply placed_app; auto.
    + intros q' Hq'. rewrite Hplan. by apply placed_app.
    + right. exists (entryOf d v q). split; [|done].
      rewrite Hplan. apply elem_of_app. right. by apply list_elem_of_singleton.
  - intros d q s e s' Hs _ _ [Hplan _ _ _ _] item. rewrite Hplan. apply Hs.
  - intros s _. by left.
  - by intros item ?%elem_of_nil.
Qed.

(** X8. In the hoisting revision the ledger is a faithful account of the
    walk, in every outcome: its keys are distinct, and the record under a
    key [name@version] has for [parentDirectories] the install locations
    ([parentDirectory || 'root']) of the walk's entries with that name and
    version, in the order of the plan, and for [count] their number; a key
    of no entry has no record. *)
Theorem ledger_accounts_for_the_walk (fuel : nat)
    (topLevelDependencies : list (string * string)) :
  let st :=
    stateOf (walk satisfies semverLt validRange pathJoin fetch Hoisting fuel
               topLevelDependencies (initialState cacheFile Hoisting)) in
  NoDup (keys (versionUsageCount st))
  ∧ ∀ pkgVersion,
      prop pkgVersion (versionUsageCount st) = ledgerOf (installationPlan st) pkgVersion.
Proof.
  set (P := fun s : State =>
    NoDup (keys (versionUsageCount s))
    ∧ ∀ pkgVersion,
        prop pkgVersion (versionUsageCount s) = ledgerOf (installationPlan s) pkgVersion).
  intros st. subst st. apply (post_stateOf _ P).
  apply (walk_rule satisfies semverLt validRange pathJoin fetch Hoisting
           P (fun _ _ => True) (fun _ => P)); try done.
  - intros d q s s' deps [Hnd Hs] _ _ [i v vi Hplan _ _ _ Husage _ _ _ _].
    split; [|done]. unfold P. rewrite Hplan, Husage. split.
    + rewrite recordUsage_keys.
      destruct (prop _ (versionUsageCount s)) eqn:Hp; [done|].
      apply NoDup_app. split; [done|]. split; [|apply NoDup_singleton].
      intros k Hk ->%list_elem_of_singleton. by apply (prop_None_keys _ _ Hp).
    + intros k. rewrite recordUsage_prop, ledgerOf_snoc.
      change (ledgerKey (entryOf d v q)) with (versionCountKey (dep_name d) v).
      destruct (decide (k = versionCountKey (dep_name d) v)) as [->|Hne]; [|apply Hs].
      by rewrite Hs.
  - intros d q s e s' [Hnd Hs] _ _ [Hplan _ _ Husage _].
    unfold P. by rewrite Hplan, Husage.
  - split; [apply NoDup_nil_2|done].
Qed.

End CacheFileAndShape.

(** ** Top-level dependencies *)

Lemma post_conj {A} (o : Outcome A)
    (R R' : A → State → Prop) (T T' : Error → State → Prop) (F F' : State → Prop) :
  post o R T F → post o R' T' F' →
  post o (fun a st => R a st ∧ R' a st) (fun e st => T e st ∧ T' e st)
    (fun st => F st ∧ F' st).
Proof. destruct o; simpl; auto. Qed.

Section TopLevel.

Variable satisfies : string → string → bool.
Variable semverLt : string → string → bool.
Variable validRange : string → option string.
Variable pathJoin : list string → string.
Variable fetch : string → string → Response.
Variable cacheFile : option (list (string * PackageData)).
Variable revision : Variant.

Let any_error : Error → State → Prop := fun _ _ => True.
Let any_state : State → Prop := fun _ => True.
Let covered (s : State) : Prop :=
  ∀ k, is_Some (dependencyMap s !! k) → ∃ item, item ∈ installationPlan s ∧ slotOf item = k.

Lemma processDependency_keeps_slot (k : string) (fuel : nat) (dep : Dependency)
    (pd : option string) (st : State) :
  is_Some (dependencyMap st !! k) →
  post (processDependency satisfies semverLt validRange pathJoin fetch revision fuel dep pd st)
    (fun _ s => is_Some (dependencyMap s !! k)) any_error
    (fun s => is_Some (dependencyMap s !! k)).
Proof.
  intros Hk. eapply post_mono;
    [apply (processDependency_rule satisfies semverLt validRange pathJoin fetch revision
              (fun s => is_Some (dependencyMap s !! k)) (fun _ _ => True) any_error)
    | | |]; try done; try (simpl; tauto).
  - intros s k' pr Hs _. split; [|done]. by apply is_Some_insert.
  - intros d q s s' deps Hs _ _ [i v vi _ Hmap _ _ _ _ _ _ _].
    split; [|done]. rewrite Hmap. by apply is_Some_insert.
Qed.

Lemma processDependency_records_slot (fuel : nat) (dep : Dependency) (pd : option string)
    (st : State) :
  post (processDependency satisfies semverLt validRange pathJoin fetch revision fuel dep pd st)
    (fun _ s => is_Some (dependencyMap s !! depKeyOf pd (dep_name dep))) any_error any_state.
Proof.
  destruct fuel as [|fuel]; [done|].
  destruct (dependencyMap st !! depKeyOf pd (dep_name dep)) as [existing|] eqn:Hkey.
  { simpl. unfold bind, gets. rewrite Hkey. simpl. rewrite lookup_insert_eq. by eexists. }
  destruct (processDependency_sighting satisfies semverLt validRange pathJoin fetch revision
              fuel dep pd st Hkey) as [(deps & st1 & HS & ->)|(e & st1 & HF & ->)]; [|done].
  destruct HS as [i v vi _ Hmap _ _ _ _ _ _ _].
  eapply post_mono;
    [apply (post_forEach _ _
              (fun s => is_Some (dependencyMap s !! depKeyOf pd (dep_name dep))) any_error)
    | | |]; try done.
  - intros [childName childVersionRange] s Hs.
    by apply processDependency_keeps_slot.
  - rewrite Hmap, lookup_insert_eq. by eexists.
Qed.

Lemma processDependency_covers (fuel : nat) (dep : Dependency) (pd : option string)
    (st : State) :
  covered st →
  post (processDependency satisfies semverLt validRange pathJoin fetch revision fuel dep pd st)
    (fun _ => covered) any_error covered.
Proof.
  intros Hst. eapply post_mono;
    [apply (processDependency_rule satisfies semverLt validRange pathJoin fetch revision
              covered (fun _ _ => True) any_error)
    | | |]; try done; try (simpl; tauto).
  - intros s k pr Hs Hk. split; [|done]. intros k'. simpl.
    destruct (decide (k = k')) as [<-|Hne]; [intros _; by apply Hs|].
    rewrite lookup_insert_ne by done. apply Hs.
  - intros d q s s' deps Hs _ _ [i v vi Hplan Hmap _ _ _ _ _ _ _].
    split; [|done]. intros k'. rewrite Hplan, Hmap.
    destruct (decide (depKeyOf q (dep_name d) = k')) as [<-|Hne].
    + intros _. exists (entryOf d v q). split; [|done].
      apply elem_of_app. right. by apply list_elem_of_singleton.
    + rewrite lookup_insert_ne by done. intros Hk'.
      destruct (Hs _ Hk') as (item & Hin & Hslot).
      exists item. split; [|done]. apply elem_of_app. by left.
Qed.

Lemma walk_covers (fuel : nat) (topLevelDependencies : list (string * string)) (st : State) :
  covered st →
  post (walk satisfies semverLt validRange pathJoin fetch revision fuel
          topLevelDependencies st)
    (fun _ s =>
       covered s
       ∧ (∀ k, is_Some (dependencyMap st !! k) → is_Some (dependencyMap s !! k))
       ∧ ∀ n r, (n, r) ∈ topLevelDependencies →
           is_Some (dependencyMap s !! depKeyOf None n))
    any_error any_state.
Proof.
  revert st. unfold walk.
  induction topLevelDependencies as [|[n r] rest IH]; intros st Hst; simpl.
  { split; [done|]. split; [done|]. by intros n r ?%elem_of_nil. }
  unfold bind.
  pose proof (post_conj _ _ _ _ _ _ _
                (processDependency_covers fuel {| dep_name := n; dep_version := r |} None st Hst)
                (processDependency_records_slot fuel {| dep_name := n; dep_version := r |}
                   None st)) as H1.
  assert (Hkeep : ∀ k, is_Some (dependencyMap st !! k) →
            post (processDependency satisfies semverLt validRange pathJoin fetch revision fuel
                    {| dep_name := n; dep_version := r |} None st)
              (fun _ s => is_Some (dependencyMap s !! k)) any_error
              (fun s => is_Some (dependencyMap s !! k))).
  { intros k Hk. by apply processDependency_keeps_slot. }
  destruct (processDependency _ _ _ _ _ _ _ _ _ _) as [[] s1|e s1|s1]; simpl in *;
    [|done|done].
  destruct H1 as [Hc1 Hn1]. specialize (IH s1 Hc1).
  eapply post_mono; [exact IH| | |]; simpl; try done.
  intros _ s (Hc & Hmono & Hrest). split; [done|]. split.
  - intros k Hk. by apply Hmono, Hkeep.
  - intros n' r' [[= -> ->]|Hin]%elem_of_cons; [by apply Hmono|by eapply Hrest].
Qed.

(** X9. When the call returns, every top-level dependency has its slot in
    the plan: for each name of the top-level map there is an entry whose
    slot key is that of the name at the top level, ['root##' + name]. *)
Theorem top_level_dependencies_are_planned (fuel : nat)
    (topLevelDependencies : list (string * string)) (plan : InstallationPlan)
    (name' versionRange' : string) :
  returned (constructInstallationPlan satisfies semverLt validRange pathJoin fetch cacheFile
              revision fuel topLevelDependencies) = Some plan →
  (name', versionRange') ∈ topLevelDependencies →
  ∃ item, item ∈ plan ∧ slotOf item = depKeyOf None name'.
Proof.
  rewrite constructInstallationPlan_cases. intros Hret Hin.
  pose proof (walk_covers fuel topLevelDependencies (initialState cacheFile revision)) as H.
  lapply H; clear H.
  2:{ intros k [x Hx]. simpl in Hx. by rewrite lookup_empty in Hx. }
  intros H.
  destruct (walk _ _ _ _ _ _ _ _ _) as [[] st|e st|st]; simpl in *; [|done|done].
  destruct H as (Hc & _ & Htop).
  destruct (Hc _ (Htop _ _ Hin)) as (item & Hitem & Hslot).
  exists item. split; [|done].
  destruct revision; simpl in Hret; injection Hret as <-; [done| |done].
  by apply hoistKeys_incl.
Qed.

End TopLevel.

(** ** The version resolver, further *)

Section ResolverOrder.

Variable satisfies : string → string → bool.
Variable semverLt : string → string → bool.

(** [semver]'s comparison is a strict order. *)
Hypothesis semverLt_irreflexive : ∀ v, semverLt v v = false.
Hypothesis semverLt_transitive :
  ∀ a b c, semverLt a b = true → semverLt b c = true → semverLt a c = true.

Let pick (range : string) (max : option string) (v : string) : option string :=
  if satisfies v range then
    match max with
    | None => Some v
    | Some m => if semverLt m v then Some v else max
    end
  else max.

Lemma semverLt_asymmetric (a b : string) : semverLt a b = true → semverLt b a = false.
Proof.
  intros Hab. destruct (semverLt b a) eqn:Hba; [|done].
  by rewrite <- (semverLt_irreflexive a), (semverLt_transitive a b a).
Qed.

Lemma pick_from_some (range : string) (versions : list string) (m r : string) :
  fold_left (pick range) versions (Some m) = Some r →
  (r = m ∨ semverLt m r = true)
  ∧ ∀ w, w ∈ versions → satisfies w range = true → semverLt r w = false.
Proof.
  revert m. induction versions as [|w ws IH]; intros m; simpl.
  - intros [= ->]. split; [by left|]. by intros w ?%elem_of_nil.
  - unfold pick at 2. destruct (satisfies w range) eqn:Hw.
    + destruct (semverLt m w) eqn:Hmw; intros Hfold;
        destruct (IH _ Hfold) as [Hr Hws].
      * assert (Hmr : semverLt m r = true).
        { destruct Hr as [->|Hr]; [done|]. by eapply semverLt_transitive. }
        split; [by right|].
        intros x [->|Hx]%elem_of_cons Hsat; [|by apply Hws].
        destruct Hr as [->|Hr]; [apply semverLt_irreflexive|by apply semverLt_asymmetric].
      * split; [done|].
        intros x [->|Hx]%elem_of_cons Hsat; [|by apply Hws].
        destruct Hr as [->|Hr]; [done|].
        destruct (semverLt r w) eqn:Hrx; [|done].
        by rewrite (semverLt_transitive m r w) in Hmw.
    + intros Hfold. destruct (IH _ Hfold) as [Hr Hws]. split; [done|].
      intros x [->|Hx]%elem_of_cons Hsat; [congruence|by apply Hws].
Qed.

Lemma pick_from_none (range : string) (versions : list string) (r : string) :
  fold_left (pick range) versions None = Some r →
  ∀ w, w ∈ versions → satisfies w range = true → semverLt r w = false.
Proof.
  induction versions as [|w ws IH]; simpl; [done|].
  unfold pick at 2. destruct (satisfies w range) eqn:Hw; intros Hfold.
  - destruct (pick_from_some _ _ _ _ Hfold) as [Hr Hws].
    intros x [->|Hx]%elem_of_cons Hsat; [|by apply Hws].
    destruct Hr as [->|Hr]; [apply semverLt_irreflexive|by apply semverLt_asymmetric].
  - intros x [->|Hx]%elem_of_cons Hsat; [congruence|by apply IH].
Qed.

(** X10. When [semver]'s comparison is a strict order, the version that
    [resolveVersion] returns is the highest candidate: it is one of the
    listed versions, it satisfies the range, no listed version that
    satisfies the range is above it, and the state is left as it was. *)
Theorem resolveVersion_returns_the_highest (versions : list string) (range : string)
    (st st' : State) (v : string) :
  resolveVersion satisfies semverLt versions range st = Return v st' →
  st' = st
  ∧ v ∈ versions
  ∧ satisfies v range = true
  ∧ ∀ w, w ∈ versions → satisfies w range = true → semverLt v w = false.
Proof.
  unfold resolveVersion.
  destruct (maxSatisfying _ _ _ _) as [m|] eqn:Hmax; [|done].
  destruct (String.eqb m ""); [done|]. intros [= -> ->].
  destruct (maxSatisfying_sound _ _ _ _ _ Hmax) as [Hin Hsat].
  split; [done|]. split; [done|]. split; [done|].
  by apply (pick_from_none range).
Qed.

End ResolverOrder.

Section ResolverErrors.

Variable satisfies : string → string → bool.
Variable semverLt : string → string → bool.

(** X11. [resolveVersion] throws "Could not find a version for <range>",
    leaving the state as it was, whenever no listed version satisfies the
    range, so in particular on an empty list; and, the empty string not
    satisfying the range, it returns a version as soon as one listed
    version satisfies it. *)
Theorem resolveVersion_needs_a_candidate (versions : list string) (range : string)
    (st : State) :
  (Forall (fun v => satisfies v range = false) versions →
   resolveVersion satisfies semverLt versions range st
     = Throw (UnsatisfiableRangeError range) st)
  ∧ (satisfies "" range = false →
     Exists (fun v => satisfies v range = true) versions →
     ∃ v, resolveVersion satisfies semverLt versions range st = Return v st).
Proof.
  split; [apply resolveVersion_unsatisfiable|].
  intros Hempty Hex.
  destruct (resolveVersion_cases satisfies semverLt versions range st)
    as [(v & Hv & _)|Hthrow]; [by exists v|].
  exfalso. unfold resolveVersion in Hthrow.
  destruct (maxSatisfying _ _ _ _) as [m|] eqn:Hmax.
  - destruct (String.eqb_spec m "") as [->|]; [|done].
    destruct (maxSatisfying_sound _ _ _ _ _ Hmax). congruence.
  - apply maxSatisfying_none in Hmax. apply Exists_exists in Hex as (v & Hin & Hsat).
    rewrite Forall_forall in Hmax. specialize (Hmax _ Hin). congruence.
Qed.

End ResolverErrors.

(** ** The hoisting loop, further *)

(** X12. The hoisting loop only appends.  What it appends to a plan are
    distinct entries that the plan did not hold, each the ["root"] entry
    split from a key of the ledger, at most one per key; and afterwards the
    ["root"] entry of every key of the ledger is in the plan. *)
Theorem hoist_appends_missing_root_entries (usage : list (string * PackageVersionInfo))
    (plan : InstallationPlan) :
  ∃ hoisted,
    hoist usage plan = plan ++ hoisted
    ∧ (∀ item, item ∈ hoisted →
         (item ∉ plan) ∧ ∃ k, k ∈ keys usage ∧ item = rootEntry k)
    ∧ NoDup hoisted
    ∧ (List.length hoisted ≤ List.length usage)%nat
    ∧ ∀ k, k ∈ keys usage → rootEntry k ∈ plan ++ hoisted.
Proof.
  unfold hoist.
  destruct (hoistKeys_structure (keys usage) plan) as (hoisted & Heq & Hall & Hnd & Hlen).
  exists hoisted. split; [done|]. split; [done|]. split; [done|].
  split; [unfold keys in Hlen; by rewrite length_map in Hlen|].
  intros k Hk. rewrite <- Heq. by apply hoistKeys_present.
Qed.

(** ** What the outcome depends on *)

Lemma forEach_ext {A} (f g : A → M unit) (l : list A) :
  (∀ x st, f x st = g x st) → ∀ st, forEach f l st = forEach g l st.
Proof.
  intros Hfg. induction l as [|x l IH]; intros st; simpl; [done|].
  unfold bind. rewrite Hfg. by destruct (g x st).
Qed.

Lemma map_factor {A B C} (g : A → B) (h : B → C) (f : A → C) (l l' : list A) :
  (∀ x, f x = h (g x)) → map g l = map g l' → map f l = map f l'.
Proof.
  intros Hf Hg. transitivity (map h (map g l)).
  - rewrite List.map_map. by apply List.map_ext.
  - rewrite Hg, List.map_map. symmetry. by apply List.map_ext.
Qed.

Lemma cachedForm_dependencyTable (revision : Variant) (data data' : PackageData) :
  revision ≠ Plain → dependencyTable data = dependencyTable data' →
  cachedForm revision data = cachedForm revision data'.
Proof.
  intros Hrev Htable. unfold dependencyTable in Htable.
  destruct revision; [done| |]; simpl; f_equal.
  - eapply (map_factor _
              (fun '(k, d) => (k, {| dependencies := d; otherVersionFields := [] |})));
      [|exact Htable]. by intros [k v].
  - eapply (map_factor _
              (fun '(k, d) => (k, {| dependencies := Some (default [] d);
                                     otherVersionFields := [] |})));
      [|exact Htable]. by intros [k v].
Qed.

Lemma processDependency_merged
    (satisfies semverLt : string → string → bool) (validRange : string → option string)
    (pathJoin : list string → string) (fetch : string → string → Response)
    (revision : Variant) (fuel : nat) (dep : Dependency) (pd : option string) (st : State)
    (existing : PendingResolution) :
  dependencyMap st !! depKeyOf pd (dep_name dep) = Some existing →
  processDependency satisfies semverLt validRange pathJoin fetch revision (S fuel) dep pd st =
    Return tt
      (withDependencyMap
         <[depKeyOf pd (dep_name dep) :=
             {| slot_name := slot_name existing;
                versionRange :=
                  validRange (render (versionRange existing) +:+ " || " +:+ dep_version dep);
                slot_parentDirectory := slot_parentDirectory existing |}]> st).
Proof. intros Hkey. simpl. unfold bind, gets. by rewrite Hkey. Qed.

Section Dependence.

Variable satisfies : string → string → bool.
Variable semverLt : string → string → bool.
Variable validRange : string → option string.
Variable pathJoin : list string → string.
Variable cacheFile : option (list (string * PackageData)).

Lemma getCachedPackageInfo_ext (fetch fetch' : string → string → Response)
    (revision : Variant) :
  (∀ accept n, status (fetch accept n) = status (fetch' accept n)) →
  (∀ accept n, cachedForm revision (body (fetch accept n))
               = cachedForm revision (body (fetch' accept n))) →
  ∀ n st, getCachedPackageInfo fetch revision n st = getCachedPackageInfo fetch' revision n st.
Proof.
  intros Hstatus Hform n st.
  destruct (packageInfoCache st !! n) as [info|] eqn:Hc.
  - by rewrite !(getCachedPackageInfo_hit _ _ _ _ _ Hc).
  - rewrite !(getCachedPackageInfo_miss _ _ _ _ Hc). cbv zeta.
    by rewrite Hstatus, Hform.
Qed.

Lemma processDependency_ext (fetch fetch' : string → string → Response)
    (revision : Variant) :
  (∀ accept n, status (fetch accept n) = status (fetch' accept n)) →
  (∀ accept n, cachedForm revision (body (fetch accept n))
               = cachedForm revision (body (fetch' accept n))) →
  ∀ fuel dep pd st,
    processDependency satisfies semverLt validRange pathJoin fetch revision fuel dep pd st
    = processDependency satisfies semverLt validRange pathJoin fetch' revision fuel dep pd st.
Proof.
  intros Hstatus Hform. induction fuel as [|fuel IH]; intros dep pd st; [done|].
  destruct (dependencyMap st !! depKeyOf pd (dep_name dep)) as [existing|] eqn:Hkey.
  { by rewrite !(processDependency_merged _ _ _ _ _ _ _ _ _ _ _ Hkey). }
  rewrite !(processDependency_first _ _ _ _ _ _ _ _ _ _ Hkey). cbv zeta.
  rewrite (getCachedPackageInfo_ext fetch fetch' revision Hstatus Hform).
  destruct (getCachedPackageInfo _ _ _ _) as [info st2|e st2|st2]; [|done|done].
  destruct (resolveVersion _ _ _ _ _) as [v st3|e st3|st3]; [|done|done].
  destruct (prop v (versions info)) as [versionInfo|]; [|done].
  destruct (trackUsage _ _ _ _ _) as [[] st4|e st4|st4]; [|done|done].
  apply forEach_ext. intros [childName childVersionRange] s. apply IH.
Qed.

(** X13. In the two revisions that minimise what they cache, the outcome of
    a call (the plan or the error, and the whole final state) depends on a
    registry answer only through its status and, for each version in
    order, its [dependencies]: two registries that agree on those give the
    same outcome, whatever else their documents hold. *)
Theorem outcome_ignores_discarded_fields (fetch fetch' : string → string → Response)
    (revision : Variant) (fuel : nat) (topLevelDependencies : list (string * string)) :
  revision ≠ Plain →
  (∀ accept n, status (fetch accept n) = status (fetch' accept n)) →
  (∀ accept n, dependencyTable (body (fetch accept n))
               = dependencyTable (body (fetch' accept n))) →
  constructInstallationPlan satisfies semverLt validRange pathJoin fetch cacheFile
    revision fuel topLevelDependencies
  = constructInstallationPlan satisfies semverLt validRange pathJoin fetch' cacheFile
      revision fuel topLevelDependencies.
Proof.
  intros Hrev Hstatus Htable.
  assert (Hform : ∀ accept n, cachedForm revision (body (fetch accept n))
                              = cachedForm revision (body (fetch' accept n))).
  { intros accept n. by apply cachedForm_dependencyTable. }
  unfold constructInstallationPlan, walk, bind.
  rewrite (forEach_ext _
             (fun '(name', versionRange') =>
                processDependency satisfies semverLt validRange pathJoin fetch' revision fuel
                  {| dep_name := name'; dep_version := versionRange' |} None)); [done|].
  intros [name' versionRange'] st. by apply processDependency_ext.
Qed.

End Dependence.

(** ** The three revisions walk alike *)

Lemma keys_manifests (data : PackageData) : keys (manifests data) = keys (versions data).
Proof.
  unfold keys, manifests. rewrite List.map_map. apply List.map_ext. by intros [k v].
Qed.

Lemma prop_manifests (v : string) (data : PackageData) :
  prop v (manifests data) = (fun vi => default [] (dependencies vi)) <$> prop v (versions data).
Proof.
  unfold manifests. induction (versions data) as [|[k vi] vs IH]; simpl; [done|].
  by destruct (String.eqb k v).
Qed.

Section Alike.

Variable satisfies : string → string → bool.
Variable semverLt : string → string → bool.
Variable validRange : string → option string.
Variable pathJoin : list string → string.
Variable fetch : string → string → Response.
Variable r1 r2 : Variant.

(** The registry gives the two [Accept] headers the same status and the
    same dependency manifests. *)
Hypothesis same_answers :
  ∀ n, status (fetch (acceptHeader r1) n) = status (fetch (acceptHeader r2) n)
       ∧ manifests (body (fetch (acceptHeader r1) n))
         = manifests (body (fetch (acceptHeader r2) n)).

Lemma obtained_alike (n : string) (i1 i2 : PackageData) (s1 s1' s2 s2' : State) :
  requests s1 = requests s2 →
  (∀ m, manifests <$> (packageInfoCache s1 !! m) = manifests <$> (packageInfoCache s2 !! m)) →
  obtained fetch r1 n i1 s1 s1' → obtained fetch r2 n i2 s2 s2' →
  manifests i1 = manifests i2
  ∧ requests s1' = requests s2'
  ∧ ∀ m, manifests <$> (packageInfoCache s1' !! m)
         = manifests <$> (packageInfoCache s2' !! m).
Proof.
  intros Hreq Hcache
    [(Hhit1 & Hc1 & Hr1 & _)|(Hmiss1 & Hok1 & Hi1 & Hc1 & Hr1 & _)]
    [(Hhit2 & Hc2 & Hr2 & _)|(Hmiss2 & Hok2 & Hi2 & Hc2 & Hr2 & _)];
    pose proof (Hcache n) as Hn.
  - rewrite Hhit1, Hhit2 in Hn. injection Hn as Hn.
    rewrite Hc1, Hc2, Hr1, Hr2. done.
  - by rewrite Hhit1, Hmiss2 in Hn.
  - by rewrite Hmiss1, Hhit2 in Hn.
  - assert (Hm : manifests i1 = manifests i2).
    { rewrite Hi1, Hi2, !cachedForm_manifests. apply same_answers. }
    rewrite Hc1, Hc2, Hr1, Hr2, Hreq. split; [done|]. split; [done|].
    intros m. destruct (decide (n = m)) as [<-|Hne].
    + rewrite !lookup_insert_eq. simpl. by rewrite Hm.
    + by rewrite !lookup_insert_ne.
Qed.

Lemma maxSatisfying_alike (i1 i2 : PackageData) (range : string) :
  manifests i1 = manifests i2 →
  maxSatisfying satisfies semverLt (keys (versions i1)) range
  = maxSatisfying satisfies semverLt (keys (versions i2)) range.
Proof. intros Hm. by rewrite <- !keys_manifests, Hm. Qed.

Lemma sighted_alike (dep : Dependency) (pd : option string)
    (s1 s1' s2 s2' : State) (deps1 deps2 : list (string * string)) :
  alike s1 s2 →
  Sighted satisfies semverLt fetch r1 dep pd s1 s1' deps1 →
  Sighted satisfies semverLt fetch r2 dep pd s2 s2' deps2 →
  deps1 = deps2 ∧ alike s1' s2'.
Proof.
  intros (Hplan & Hmap & Hreq & Hfirst & Hcache)
    [i1 v1 vi1 Hp1 Hm1 Hf1 Ho1 _ Hmax1 _ Hv1 ->]
    [i2 v2 vi2 Hp2 Hm2 Hf2 Ho2 _ Hmax2 _ Hv2 ->].
  destruct (obtained_alike _ _ _ _ _ _ _ Hreq Hcache Ho1 Ho2) as (Hi & Hreq' & Hcache').
  rewrite (maxSatisfying_alike _ _ _ Hi), Hmax2 in Hmax1. injection Hmax1 as <-.
  split.
  - pose proof (prop_manifests v2 i1) as H1. pose proof (prop_manifests v2 i2) as H2.
    rewrite Hv1 in H1. rewrite Hv2 in H2. rewrite Hi, H2 in H1. by injection H1.
  - unfold alike. by rewrite Hp1, Hp2, Hm1, Hm2, Hf1, Hf2, Hplan, Hmap, Hfirst.
Qed.

Lemma sightFailed_alike (dep : Dependency) (pd : option string)
    (s1 s1' s2 s2' : State) (e1 e2 : Error) :
  alike s1 s2 →
  SightFailed satisfies semverLt fetch r1 dep pd s1 e1 s1' →
  SightFailed satisfies semverLt fetch r2 dep pd s2 e2 s2' →
  e1 = e2 ∧ alike s1' s2'.
Proof.
  intros (Hplan & Hmap & Hreq & Hfirst & Hcache)
    [Hp1 Hm1 Hf1 _ Hw1] [Hp2 Hm2 Hf2 _ Hw2].
  unfold alike. rewrite Hp1, Hp2, Hm1, Hm2, Hf1, Hf2, Hplan, Hmap, Hfirst.
  destruct Hw1 as [(-> & Hmiss1 & Hbad1 & Hc1 & Hr1 & _)|(-> & i1 & Ho1 & Hno1)];
    destruct Hw2 as [(-> & Hmiss2 & Hbad2 & Hc2 & Hr2 & _)|(-> & i2 & Ho2 & Hno2)].
  - by rewrite Hc1, Hc2, Hr1, Hr2, Hreq.
  - exfalso. pose proof (Hcache (dep_name dep)) as Hn.
    destruct Ho2 as [(Hhit2 & _)|(_ & Hok2 & _)].
    + by rewrite Hmiss1, Hhit2 in Hn.
    + apply Hbad1. by rewrite (proj1 (same_answers _)).
  - exfalso. pose proof (Hcache (dep_name dep)) as Hn.
    destruct Ho1 as [(Hhit1 & _)|(_ & Hok1 & _)].
    + by rewrite Hhit1, Hmiss2 in Hn.
    + apply Hbad2. by rewrite <- (proj1 (same_answers _)).
  - destruct (obtained_alike _ _ _ _ _ _ _ Hreq Hcache Ho1 Ho2) as (Hi & Hreq' & Hcache').
    done.
Qed.

Lemma sighted_not_failed (ra rb : Variant) (dep : Dependency) (pd : option string)
    (s1 s1' s2 s2' : State) (deps : list (string * string)) (e : Error) :
  (∀ n, status (fetch (acceptHeader ra) n) = status (fetch (acceptHeader rb) n)
        ∧ manifests (body (fetch (acceptHeader ra) n))
          = manifests (body (fetch (acceptHeader rb) n))) →
  requests s1 = requests s2 →
  (∀ m, manifests <$> (packageInfoCache s1 !! m) = manifests <$> (packageInfoCache s2 !! m)) →
  Sighted satisfies semverLt fetch ra dep pd s1 s1' deps →
  SightFailed satisfies semverLt fetch rb dep pd s2 e s2' →
  False.
Proof.
  intros Hsame Hreq Hcache [i1 v1 vi1 _ _ _ Ho1 _ Hmax1 Hne1 _ _] [_ _ _ _ Hw2].
  pose proof (Hcache (dep_name dep)) as Hn.
  destruct Hw2 as [(_ & Hmiss2 & Hbad2 & _)|(_ & i2 & Ho2 & Hno2)].
  - destruct Ho1 as [(Hhit1 & _)|(_ & Hok1 & _)].
    + by rewrite Hhit1, Hmiss2 in Hn.
    + apply Hbad2. by rewrite <- (proj1 (Hsame _)).
  - assert (Hi : manifests i1 = manifests i2).
    { destruct Ho1 as [(Hhit1 & _)|(Hmiss1 & _ & Hi1 & _)];
        destruct Ho2 as [(Hhit2 & _)|(Hmiss2 & _ & Hi2 & _)].
      - rewrite Hhit1, Hhit2 in Hn. by injection Hn.
      - by rewrite Hhit1, Hmiss2 in Hn.
      - by rewrite Hmiss1, Hhit2 in Hn.
      - rewrite Hi1, Hi2, !cachedForm_manifests. apply Hsame. }
    rewrite (maxSatisfying_alike _ _ _ Hi) in Hmax1.
    destruct Hno2 as [Hno2|Hno2]; rewrite Hno2 in Hmax1; [done|].
    injection Hmax1 as <-. done.
Qed.

Lemma forEach_alike {A} (f g : A → M unit) (l : list A) :
  (∀ x s1 s2, alike s1 s2 → sameOutcome (f x s1) (g x s2)) →
  ∀ s1 s2, alike s1 s2 → sameOutcome (forEach f l s1) (forEach g l s2).
Proof.
  intros Hfg. induction l as [|x l IH]; intros s1 s2 Hs; simpl; [done|].
  unfold bind. specialize (Hfg x s1 s2 Hs).
  destruct (f x s1) as [[] t1|e1 t1|t1], (g x s2) as [[] t2|e2 t2|t2]; simpl in *;
    try done. by apply IH.
Qed.

Lemma processDependency_alike (fuel : nat) :
  ∀ dep pd s1 s2, alike s1 s2 →
    sameOutcome
      (processDependency satisfies semverLt validRange pathJoin fetch r1 fuel dep pd s1)
      (processDependency satisfies semverLt validRange pathJoin fetch r2 fuel dep pd s2).
Proof.
  induction fuel as [|fuel IH]; intros dep pd s1 s2 Hs; [done|].
  pose proof Hs as (Hplan & Hmap & Hreq & Hfirst & Hcache).
  destruct (dependencyMap s1 !! depKeyOf pd (dep_name dep)) as [existing|] eqn:Hkey.
  { rewrite (processDependency_merged _ _ _ _ _ _ _ _ _ _ _ Hkey).
    rewrite Hmap in Hkey. rewrite (processDependency_merged _ _ _ _ _ _ _ _ _ _ _ Hkey).
    simpl. unfold alike. simpl. by rewrite Hmap. }
  pose proof Hkey as Hkey2. rewrite Hmap in Hkey2.
  destruct (processDependency_sighting satisfies semverLt validRange pathJoin fetch r1
              fuel dep pd s1 Hkey) as [(deps1 & t1 & HS1 & ->)|(e1 & t1 & HF1 & ->)];
    destruct (processDependency_sighting satisfies semverLt validRange pathJoin fetch r2
                fuel dep pd s2 Hkey2) as [(deps2 & t2 & HS2 & ->)|(e2 & t2 & HF2 & ->)].
  - destruct (sighted_alike _ _ _ _ _ _ _ _ Hs HS1 HS2) as [<- Ht].
    apply forEach_alike; [|done].
    intros [childName childVersionRange] u1 u2 Hu. by apply IH.
  - exfalso. by eapply (sighted_not_failed r1 r2).
  - exfalso. eapply (sighted_not_failed r2 r1); [| | |exact HS2|exact HF1]; try done.
    intros n. destruct (same_answers n). done.
  - simpl. by eapply sightFailed_alike.
Qed.

End Alike.

Section Revisions.

Variable satisfies : string → string → bool.
Variable semverLt : string → string → bool.
Variable validRange : string → option string.
Variable pathJoin : list string → string.
Variable fetch : string → string → Response.

Lemma walk_alike (r1 r2 : Variant) (fuel : nat)
    (topLevelDependencies : list (string * string)) (s1 s2 : State) :
  (∀ n, status (fetch (acceptHeader r1) n) = status (fetch (acceptHeader r2) n)
        ∧ manifests (body (fetch (acceptHeader r1) n))
          = manifests (body (fetch (acceptHeader r2) n))) →
  alike s1 s2 →
  sameOutcome
    (walk satisfies semverLt validRange pathJoin fetch r1 fuel topLevelDependencies s1)
    (walk satisfies semverLt validRange pathJoin fetch r2 fuel topLevelDependencies s2).
Proof.
  intros Hsame Hs. unfold walk. apply forEach_alike; [|done].
  intros [name' versionRange'] u1 u2 Hu. by apply processDependency_alike.
Qed.

(** X15. The three revisions walk alike.  Take any two of them, a registry
    that answers their two [Accept] headers with the same status and the
    same dependency manifests, and starting caches that hold documents with
    the same manifests under the same names (two empty caches, say): on the
    same input and fuel their walks push the same entries, send the same
    requests, and end the same way, with the same error if they throw. *)
Theorem revisions_walk_alike (r1 r2 : Variant)
    (cacheFile1 cacheFile2 : option (list (string * PackageData))) (fuel : nat)
    (topLevelDependencies : list (string * string)) :
  (∀ n, status (fetch (acceptHeader r1) n) = status (fetch (acceptHeader r2) n)
        ∧ manifests (body (fetch (acceptHeader r1) n))
          = manifests (body (fetch (acceptHeader r2) n))) →
  (∀ n, manifests <$> (initialCache cacheFile1 r1 !! n)
        = manifests <$> (initialCache cacheFile2 r2 !! n)) →
  let o1 :=
    walk satisfies semverLt validRange pathJoin fetch r1 fuel topLevelDependencies
      (initialState cacheFile1 r1) in
  let o2 :=
    walk satisfies semverLt validRange pathJoin fetch r2 fuel topLevelDependencies
      (initialState cacheFile2 r2) in
  installationPlan (stateOf o1) = installationPlan (stateOf o2)
  ∧ requests (stateOf o1) = requests (stateOf o2)
  ∧ thrown o1 = thrown o2
  ∧ (finished o1 ↔ finished o2).
Proof.
  intros Hsame Hcaches o1 o2.
  pose proof (walk_alike r1 r2 fuel topLevelDependencies
                (initialState cacheFile1 r1) (initialState cacheFile2 r2) Hsame) as H.
  lapply H; [|by repeat split]. clear H. fold o1 o2. intros H.
  destruct o1 as [[] t1|e1 t1|t1], o2 as [[] t2|e2 t2|t2]; simpl in *; try done.
  - destruct H as (Hp & _ & Hr & _). by rewrite Hp, Hr.
  - destruct H as (-> & Hp & _ & Hr & _). by rewrite Hp, Hr.
  - destruct H as (Hp & _ & Hr & _). by rewrite Hp, Hr.
Qed.

(** X16. The hoisting revision returns what [construct-plan.ts] returns,
    followed by the entries of its hoisting loop, all at ["root"]: on the
    same input, registry and fuel, one returns a plan exactly when the
    other does, and they throw the same errors. *)
Theorem hoisting_revision_extends_plain
    (cacheFile : option (list (string * PackageData))) (fuel : nat)
    (topLevelDependencies : list (string * string)) :
  let plain :=
    constructInstallationPlan satisfies semverLt validRange pathJoin fetch cacheFile
      Plain fuel topLevelDependencies in
  let hoisting :=
    constructInstallationPlan satisfies semverLt validRange pathJoin fetch cacheFile
      Hoisting fuel topLevelDependencies in
  thrown plain = thrown hoisting
  ∧ (∀ walked, returned plain = Some walked →
       ∃ hoisted, returned hoisting = Some (walked ++ hoisted)
                  ∧ ∀ item, item ∈ hoisted → parentDirectory item = Some "root")
  ∧ (∀ plan, returned hoisting = Some plan →
       ∃ walked hoisted, returned plain = Some walked ∧ plan = walked ++ hoisted).
Proof.
  intros plain hoisting. subst plain hoisting.
  rewrite !constructInstallationPlan_cases.
  pose proof (walk_alike Plain Hoisting fuel topLevelDependencies
                (initialState cacheFile Plain) (initialState cacheFile Hoisting)) as H.
  lapply H; [|done]. clear H. intros H. lapply H; [|by repeat split]. clear H. intros H.
  destruct (walk _ _ _ _ _ Plain _ _ _) as [[] t1|e1 t1|t1],
           (walk _ _ _ _ _ Hoisting _ _ _) as [[] t2|e2 t2|t2]; simpl in *; try done.
  - destruct H as (Hplan & _). split; [done|].
    destruct (hoistKeys_appends (keys (versionUsageCount t2)) (installationPlan t2))
      as (hoisted & Heq & Hall).
    unfold hoist. rewrite Heq, <- Hplan. split.
    + intros walked [= <-]. exists hoisted. split; [done|].
      intros item Hin. by destruct (Hall _ Hin) as (k & _ & ->).
    + intros plan [= <-]. by exists (installationPlan t1), hoisted.
  - destruct H as (-> & _). done.
Qed.

End Revisions.

(** ** When the walk ends *)

Lemma prop_cachedForm (revision : Variant) (data : PackageData) (v : string)
    (cachedInfo : VersionData) :
  prop v (versions (cachedForm revision data)) = Some cachedInfo →
  ∃ versionInfo,
    prop v (versions data) = Some versionInfo
    ∧ default [] (dependencies cachedInfo) = default [] (dependencies versionInfo).
Proof.
  intros Hc.
  pose proof (prop_manifests v (cachedForm revision data)) as H1.
  rewrite cachedForm_manifests, prop_manifests, Hc in H1. simpl in H1.
  destruct (prop v (versions data)) as [versionInfo|]; [|done].
  exists versionInfo. split; [done|]. by injection H1.
Qed.

Lemma forEach_finished {A} (f : A → M unit) (l : list A)
    (P : State → Prop) (T : Error → State → Prop) :
  (∀ x st, P st → post (f x st) (fun _ => P) T (fun _ => False)) →
  ∀ st, P st → post (forEach f l st) (fun _ => P) T (fun _ => False).
Proof.
  intros Hf. induction l as [|x l IH]; intros st Hst; simpl; [done|].
  unfold bind. specialize (Hf x st Hst).
  destruct (f x st) as [[] s|e s|s]; simpl in *; auto.
Qed.

Section Flat.

Variable satisfies : string → string → bool.
Variable semverLt : string → string → bool.
Variable validRange : string → option string.
Variable pathJoin : list string → string.
Variable fetch : string → string → Response.
Variable cacheFile : option (list (string * PackageData)).
Variable revision : Variant.

Let flat (data : PackageData) : Prop :=
  ∀ v versionInfo, prop v (versions data) = Some versionInfo →
    default [] (dependencies versionInfo) = [].

(** X17. If no version of any package declares a dependency, neither in
    what the registry answers nor in what the cache holds at the start,
    then one level of recursion is enough: with fuel 1 the call returns or
    throws, for every top-level map. *)
Theorem flat_registry_needs_no_recursion (topLevelDependencies : list (string * string)) :
  (∀ n, flat (body (fetch (acceptHeader revision) n))) →
  (∀ n data, initialCache cacheFile revision !! n = Some data → flat data) →
  finished (constructInstallationPlan satisfies semverLt validRange pathJoin fetch cacheFile
              revision 1 topLevelDependencies).
Proof.
  intros Hregistry Hinitial.
  set (P := fun s : State => ∀ n data, packageInfoCache s !! n = Some data → flat data).
  assert (Hstep : ∀ s s' n i, P s → obtained fetch revision n i s s' → P s' ∧ flat i).
  { intros s s' n i Hs [(Hhit & Hc & _)|(Hmiss & _ & Hi & Hc & _)].
    - split; [|by eapply Hs]. intros m d. rewrite Hc. apply Hs.
    - assert (Hflat : flat i).
      { rewrite Hi. intros v vi Hv.
        destruct (prop_cachedForm _ _ _ _ Hv) as (vi' & Hv' & ->). by eapply Hregistry. }
      split; [|done]. intros m d. rewrite Hc.
      destruct (decide (n = m)) as [<-|Hne].
      + rewrite lookup_insert_eq. by intros [= <-].
      + rewrite lookup_insert_ne by done. apply Hs. }
  assert (Hcall : ∀ dep pd s, P s →
            post (processDependency satisfies semverLt validRange pathJoin fetch revision
                    1 dep pd s)
              (fun _ => P) (fun _ _ => True) (fun _ => False)).
  { intros dep pd s Hs.
    destruct (dependencyMap s !! depKeyOf pd (dep_name dep)) as [existing|] eqn:Hkey.
    { by rewrite (processDependency_merged _ _ _ _ _ _ _ _ _ _ _ Hkey). }
    destruct (processDependency_sighting satisfies semverLt validRange pathJoin fetch
                revision 0 dep pd s Hkey) as [(deps & s1 & HS & ->)|(e & s1 & HF & ->)];
      [|done].
    destruct HS as [i v vi _ _ _ Ho _ _ _ Hv ->].
    destruct (Hstep _ _ _ _ Hs Ho) as [Hs1 Hflat].
    by rewrite (Hflat _ _ Hv). }
  unfold constructInstallationPlan, walk. unfold bind at 1.
  pose proof (forEach_finished
    (fun '(name', versionRange') =>
       processDependency satisfies semverLt validRange pathJoin fetch revision 1
         {| dep_name := name'; dep_version := versionRange' |} None)
    topLevelDependencies P (fun _ _ => True)) as H.
  lapply H; [|intros [name' versionRange'] s Hs; by apply Hcall]. clear H. intros H.
  specialize (H (initialState cacheFile revision) Hinitial).
  destruct (forEach _ _ _) as [[] s|e s|s]; simpl in *; [|done|done].
  by destruct revision.
Qed.

End Flat.

Section Cycle.

Variable satisfies : string → string → bool.
Variable semverLt : string → string → bool.
Variable validRange : string → option string.
Variable pathJoin : list string → string.
Variable fetch : string → string → Response.
Variable cacheFile : option (list (string * PackageData)).
Variable revision : Variant.
Variable n : string.

Let selfish (data : PackageData) : Prop :=
  ∀ v versionInfo, prop v (versions data) = Some versionInfo →
    ∃ range, default [] (dependencies versionInfo) = [(n, range)].

(** The nested directories give pairwise distinct slot keys, as they do
    with Node's [path.join] and an ordinary package name. *)
Hypothesis slots_are_distinct :
  ∀ i j, i ≠ j → slotAtDepth pathJoin n i ≠ slotAtDepth pathJoin n j.

(** Every version of [n] declares [n], and nothing else, as a dependency. *)
Hypothesis depends_on_itself : selfish (body (fetch (acceptHeader revision) n)).

Lemma self_dependency_never_returns_from (fuel : nat) :
  ∀ depth range st,
    (∀ k, is_Some (dependencyMap st !! k) →
          ∃ j, (j < depth)%nat ∧ k = slotAtDepth pathJoin n j) →
    (∀ data, packageInfoCache st !! n = Some data → selfish data) →
    returned (processDependency satisfies semverLt validRange pathJoin fetch revision fuel
                {| dep_name := n; dep_version := range |}
                (directoryAtDepth pathJoin n depth) st) = None.
Proof.
  induction fuel as [|fuel IH]; intros depth range st Hslots Hcache; [done|].
  set (dep := {| dep_name := n; dep_version := range |}).
  assert (Hkey : dependencyMap st !! depKeyOf (directoryAtDepth pathJoin n depth) (dep_name dep)
                 = None).
  { apply eq_None_not_Some. intros Hsome.
    destruct (Hslots _ Hsome) as (j & Hj & Heq).
    apply (slots_are_distinct depth j); [lia|done]. }
  destruct (processDependency_sighting satisfies semverLt validRange pathJoin fetch revision
              fuel dep (directoryAtDepth pathJoin n depth) st Hkey)
    as [(deps & s1 & HS & ->)|(e & s1 & HF & ->)]; [|done].
  destruct HS as [i v vi _ Hmap _ Ho _ _ _ Hv ->].
  assert (Hi : selfish i ∧ ∀ data, packageInfoCache s1 !! n = Some data → selfish data).
  { destruct Ho as [(Hhit & Hc & _)|(Hmiss & _ & Hi & Hc & _)].
    - split; [by apply Hcache|]. intros data. rewrite Hc. apply Hcache.
    - assert (Hself : selfish i).
      { rewrite Hi. intros w wi Hw.
        destruct (prop_cachedForm _ _ _ _ Hw) as (wi' & Hw' & ->).
        by eapply depends_on_itself. }
      split; [done|]. intros data. rewrite Hc. simpl.
      rewrite lookup_insert_eq. by intros [= <-]. }
  destruct Hi as [Hself Hcache1].
  destruct (Hself _ _ Hv) as (range' & ->).
  assert (Hdir : Some (childParentDirectoryOf pathJoin (directoryAtDepth pathJoin n depth)
                         (dep_name dep))
                 = directoryAtDepth pathJoin n (S depth)) by (by destruct depth).
  rewrite Hdir. cbn [forEach]. unfold bind.
  specialize (IH (S depth) range' s1). lapply IH; clear IH.
  - intros IH. specialize (IH Hcache1).
    by destruct (processDependency _ _ _ _ _ _ _ _ _ _).
  - intros k. rewrite Hmap. intros Hk.
    destruct (decide (depKeyOf (directoryAtDepth pathJoin n depth) (dep_name dep) = k))
      as [<-|Hne].
    + exists depth. split; [lia|done].
    + rewrite lookup_insert_ne in Hk by done.
      destruct (Hslots _ Hk) as (j & Hj & ->). exists j. split; [lia|done].
Qed.

(** X18. A package that depends on itself is never planned.  If every
    version of [n] declares [n] as its only dependency and the slot keys of
    the nested directories are pairwise distinct, a call whose first
    top-level dependency is [n], [n] not being cached at the start, returns
    no plan, however much fuel it is given: it recurses until the fuel is
    out, unless an error stops it before. *)
Theorem self_dependency_never_returns (fuel : nat) (versionRange' : string)
    (others : list (string * string)) :
  initialCache cacheFile revision !! n = None →
  returned (constructInstallationPlan satisfies semverLt validRange pathJoin fetch cacheFile
              revision fuel ((n, versionRange') :: others)) = None.
Proof.
  intros Hinit. unfold constructInstallationPlan, walk. unfold bind at 1. simpl forEach.
  unfold bind at 1.
  pose proof (self_dependency_never_returns_from fuel 0 versionRange'
                (initialState cacheFile revision)) as H.
  lapply H; clear H.
  2:{ intros k [x Hx]. simpl in Hx. by rewrite lookup_empty in Hx. }
  intros H. lapply H; clear H.
  2:{ intros data. simpl. by rewrite Hinit. }
  simpl directoryAtDepth. intros H.
  by destruct (processDependency _ _ _ _ _ _ _ _ _ _).
Qed.

End Cycle.

(** ** The small instance, further *)

Lemma string_length_append (a b : string) :
  String.length (a +:+ b) = (String.length a + String.length b)%nat.
Proof. induction a as [|c a IH]; simpl; [done|]. by rewrite IH. Qed.

Lemma Mini_nestedDirectory_length (depth : nat) :
  String.length (nestedDirectory Mini.pathJoin "a" depth) = (1 + 15 * depth)%nat.
Proof.
  induction depth as [|depth IH]; [done|]. cbn [nestedDirectory].
  destruct (nestedDirectory Mini.pathJoin "a" depth) as [|c x] eqn:Hx; [done|].
  unfold childParentDirectoryOf, truthy, Mini.pathJoin. cbn [String.eqb negb String.concat].
  rewrite string_length_append. simpl in IH. simpl. lia.
Qed.

Lemma Mini_slotAtDepth_length (depth : nat) :
  String.length (slotAtDepth Mini.pathJoin "a" depth) =
    match depth with
    | 0 => 7
    | S depth' => 4 + 15 * depth'
    end%nat.
Proof.
  destruct depth as [|depth]; [done|].
  unfold slotAtDepth, depKeyOf. cbn [directoryAtDepth].
  pose proof (Mini_nestedDirectory_length depth) as Hlen.
  destruct (nestedDirectory Mini.pathJoin "a" depth) as [|c x]; [done|].
  cbn [orRoot String.eqb]. rewrite string_length_append. simpl in *. lia.
Qed.

Lemma Mini_slots_are_distinct (i j : nat) :
  i ≠ j → slotAtDepth Mini.pathJoin "a" i ≠ slotAtDepth Mini.pathJoin "a" j.
Proof.
  intros Hne Heq. apply (f_equal String.length) in Heq.
  rewrite !Mini_slotAtDepth_length in Heq. destruct i, j; lia.
Qed.

Lemma Mini_ltVersion_irreflexive (v : nat * nat * nat) : Mini.ltVersion v v = false.
Proof.
  destruct v as [[a b] c]. unfold Mini.ltVersion.
  by rewrite !Nat.ltb_irrefl, !Nat.eqb_refl.
Qed.

Lemma Mini_ltVersion_transitive (x y z : nat * nat * nat) :
  Mini.ltVersion x y = true → Mini.ltVersion y z = true → Mini.ltVersion x z = true.
Proof.
  destruct x as [[a1 a2] a3], y as [[b1 b2] b3], z as [[c1 c2] c3]. unfold Mini.ltVersion.
  rewrite !orb_true_iff, !andb_true_iff, !orb_true_iff, !andb_true_iff,
    !Nat.ltb_lt, !Nat.eqb_eq. lia.
Qed.

Lemma Mini_semverLt_irreflexive (v : string) : Mini.semverLt v v = false.
Proof.
  unfold Mini.semverLt. destruct (Mini.parseVersion v); [|done].
  apply Mini_ltVersion_irreflexive.
Qed.

Lemma Mini_semverLt_transitive (a b c : string) :
  Mini.semverLt a b = true → Mini.semverLt b c = true → Mini.semverLt a c = true.
Proof.
  unfold Mini.semverLt.
  destruct (Mini.parseVersion a), (Mini.parseVersion b), (Mini.parseVersion c); try done.
  apply Mini_ltVersion_transitive.
Qed.

Lemma entries_bear_listed_versions_witness :
  let st :=
    stateOf (walk Mini.satisfies Mini.semverLt Mini.validRange Mini.pathJoin Mini.registry2
               Hoisting 3 [("a", "^1.0.0")] (initialState None Hoisting)) in
  let item := {| name := "c"; version := Some "1.0.0"; parentDirectory := Some "a" |} in
  item ∈ installationPlan st
  ∧ ∃ info v,
      packageInfoCache st !! name item = Some info
      ∧ version item = Some v
      ∧ v ≠ ""
      ∧ v ∈ keys (versions info).
Proof.
  intros st item. assert (H : item ∈ installationPlan st) by decided.
  split; [exact H|].
  exact (entries_bear_listed_versions Mini.satisfies Mini.semverLt Mini.validRange
           Mini.pathJoin Mini.registry2 None Hoisting 3 [("a", "^1.0.0")] item H).
Defined.

Lemma cache_file_entries_are_not_fetched_witness :
  let info := cachedForm Persistent (body (Mini.registry2 "" "a")) in
  let cacheFile := Some [("a", info)] in
  let st :=
    stateOf (constructInstallationPlan Mini.satisfies Mini.semverLt Mini.validRange
               Mini.pathJoin Mini.registry2 cacheFile Persistent 3 [("a", "^1.0.0")]) in
  initialCache cacheFile Persistent !! "a" = Some info
  ∧ ("a" ∉ requests st)
  ∧ packageInfoCache st !! "a" = Some info.
Proof.
  intros info cacheFile st.
  assert (H : initialCache cacheFile Persistent !! "a" = Some info) by evaluate.
  split; [exact H|].
  exact (cache_file_entries_are_not_fetched Mini.satisfies Mini.semverLt Mini.validRange
           Mini.pathJoin Mini.registry2 cacheFile Persistent 3 [("a", "^1.0.0")] "a" info H).
Defined.

Lemma cache_holds_file_or_registry_documents_witness :
  let st := stateOf (Mini.plan Hoisting Mini.registry2 3 [("a", "^1.0.0")]) in
  let answer := Mini.registry2 (acceptHeader Hoisting) "c" in
  let info := cachedForm Hoisting (body answer) in
  packageInfoCache st !! "c" = Some info
  ∧ "c" ∈ requests st
  ∧ status answer = 200
  ∧ (initialCache None Hoisting !! "c" = Some info
     ∨ ("c" ∈ requests st ∧ status answer = 200 ∧ info = cachedForm Hoisting (body answer)))
  ∧ packageInfoCache st !! "c" = Some (cachedForm Hoisting (body answer)).
Proof.
  intros st answer info.
  assert (H1 : packageInfoCache st !! "c" = Some info) by evaluate.
  assert (H2 : "c" ∈ requests st) by decided.
  assert (H3 : status answer = 200) by reflexivity.
  destruct (cache_holds_file_or_registry_documents Mini.satisfies Mini.semverLt
              Mini.validRange Mini.pathJoin Mini.registry2 None Hoisting 3
              [("a", "^1.0.0")] "c") as [Horigin Hcached].
  split; [exact H1|]. split; [exact H2|]. split; [exact H3|].
  split; [exact (Horigin info H1)|exact (Hcached H2 H3)].
Defined.

Lemma entries_sit_under_their_parents_witness :
  let st :=
    stateOf (walk Mini.satisfies Mini.semverLt Mini.validRange Mini.pathJoin Mini.registry2
               Plain 3 [("a", "^1.0.0")] (initialState None Plain)) in
  let item := {| name := "c"; version := Some "1.0.0"; parentDirectory := Some "a" |} in
  item ∈ installationPlan st
  ∧ (parentDirectory item = None
     ∨ ∃ parent, parent ∈ installationPlan st
                 ∧ parentDirectory item = Some (childDirectory Mini.pathJoin parent)).
Proof.
  intros st item. assert (H : item ∈ installationPlan st) by decided.
  split; [exact H|].
  exact (entries_sit_under_their_parents Mini.satisfies Mini.semverLt Mini.validRange
           Mini.pathJoin Mini.registry2 None Plain 3 [("a", "^1.0.0")] item H).
Defined.

Lemma top_level_dependencies_are_planned_witness :
  let top := [("c", "^2.0.0"); ("a", "^1.0.0")] in
  let plan :=
    [ {| name := "c"; version := Some "2.0.0"; parentDirectory := None |};
      {| name := "a"; version := Some "1.0.0"; parentDirectory := None |};
      {| name := "c"; version := Some "1.0.0"; parentDirectory := Some "a" |} ] in
  returned (Mini.plan Persistent Mini.registry2 3 top) = Some plan
  ∧ ("a", "^1.0.0") ∈ top
  ∧ ∃ item, item ∈ plan ∧ slotOf item = depKeyOf None "a".
Proof.
  intros top plan.
  assert (H1 : returned (Mini.plan Persistent Mini.registry2 3 top) = Some plan) by evaluate.
  assert (H2 : ("a", "^1.0.0") ∈ top) by decided.
  split; [exact H1|]. split; [exact H2|].
  exact (top_level_dependencies_are_planned Mini.satisfies Mini.semverLt Mini.validRange
           Mini.pathJoin Mini.registry2 None Persistent 3 top plan "a" "^1.0.0" H1 H2).
Defined.

Lemma resolveVersion_returns_the_highest_witness :
  let versions := ["1.0.0"; "1.2.0"; "2.0.0"] in
  let st := initialState None Plain in
  (∀ v, Mini.semverLt v v = false)
  ∧ (∀ a b c, Mini.semverLt a b = true → Mini.semverLt b c = true →
              Mini.semverLt a c = true)
  ∧ resolveVersion Mini.satisfies Mini.semverLt versions "^1.0.0" st = Return "1.2.0" st
  ∧ st = st
  ∧ "1.2.0" ∈ versions
  ∧ Mini.satisfies "1.2.0" "^1.0.0" = true
  ∧ ∀ w, w ∈ versions → Mini.satisfies w "^1.0.0" = true → Mini.semverLt "1.2.0" w = false.
Proof.
  intros versions st.
  assert (H : resolveVersion Mini.satisfies Mini.semverLt versions "^1.0.0" st
              = Return "1.2.0" st) by evaluate.
  split; [exact Mini_semverLt_irreflexive|]. split; [exact Mini_semverLt_transitive|].
  split; [exact H|].
  exact (resolveVersion_returns_the_highest Mini.satisfies Mini.semverLt
           Mini_semverLt_irreflexive Mini_semverLt_transitive versions "^1.0.0" st st
           "1.2.0" H).
Defined.

Lemma resolveVersion_needs_a_candidate_witness :
  let st := initialState None Plain in
  (Forall (fun v => Mini.satisfies v "^2.0.0" = false) ["1.0.0"; "1.2.0"]
   ∧ resolveVersion Mini.satisfies Mini.semverLt ["1.0.0"; "1.2.0"] "^2.0.0" st
       = Throw (UnsatisfiableRangeError "^2.0.0") st)
  ∧ (Mini.satisfies "" "^1.0.0" = false
     ∧ Exists (fun v => Mini.satisfies v "^1.0.0" = true) ["1.0.0"; "1.2.0"]
     ∧ ∃ v, resolveVersion Mini.satisfies Mini.semverLt ["1.0.0"; "1.2.0"] "^1.0.0" st
            = Return v st).
Proof.
  intros st.
  assert (H1 : Forall (fun v => Mini.satisfies v "^2.0.0" = false) ["1.0.0"; "1.2.0"])
    by decided.
  assert (H2 : Mini.satisfies "" "^1.0.0" = false) by reflexivity.
  assert (H3 : Exists (fun v => Mini.satisfies v "^1.0.0" = true) ["1.0.0"; "1.2.0"])
    by decided.
  destruct (resolveVersion_needs_a_candidate Mini.satisfies Mini.semverLt
              ["1.0.0"; "1.2.0"] "^2.0.0" st) as [Hthrow _].
  destruct (resolveVersion_needs_a_candidate Mini.satisfies Mini.semverLt
              ["1.0.0"; "1.2.0"] "^1.0.0" st) as [_ Hreturn].
  split; [split; [exact H1|exact (Hthrow H1)]|].
  split; [exact H2|]. split; [exact H3|exact (Hreturn H2 H3)].
Defined.

Lemma outcome_ignores_discarded_fields_witness :
  Hoisting ≠ Plain
  ∧ (∀ accept n, status (verboseRegistry accept n) = status (terseRegistry accept n))
  ∧ (∀ accept n, dependencyTable (body (verboseRegistry accept n))
                 = dependencyTable (body (terseRegistry accept n)))
  ∧ constructInstallationPlan Mini.satisfies Mini.semverLt Mini.validRange Mini.pathJoin
      verboseRegistry None Hoisting 2 [("a", "^1.0.0")]
    = constructInstallationPlan Mini.satisfies Mini.semverLt Mini.validRange Mini.pathJoin
        terseRegistry None Hoisting 2 [("a", "^1.0.0")].
Proof.
  assert (H1 : Hoisting ≠ Plain) by discriminate.
  assert (H2 : ∀ accept n, status (verboseRegistry accept n) = status (terseRegistry accept n)).
  { intros accept n. unfold verboseRegistry, terseRegistry.
    destruct (String.eqb n "a"); reflexivity. }
  assert (H3 : ∀ accept n, dependencyTable (body (verboseRegistry accept n))
                           = dependencyTable (body (terseRegistry accept n))).
  { intros accept n. unfold verboseRegistry, terseRegistry.
    destruct (String.eqb n "a"); reflexivity. }
  split; [exact H1|]. split; [exact H2|]. split; [exact H3|].
  exact (outcome_ignores_discarded_fields Mini.satisfies Mini.semverLt Mini.validRange
           Mini.pathJoin None verboseRegistry terseRegistry Hoisting 2 [("a", "^1.0.0")]
           H1 H2 H3).
Defined.

Lemma revisions_walk_alike_witness :
  let top := [("c", "^2.0.0"); ("a", "^1.0.0"); ("b", "^1.0.0")] in
  let o1 :=
    walk Mini.satisfies Mini.semverLt Mini.validRange Mini.pathJoin Mini.registry2
      Plain 3 top (initialState None Plain) in
  let o2 :=
    walk Mini.satisfies Mini.semverLt Mini.validRange Mini.pathJoin Mini.registry2
      Persistent 3 top (initialState None Persistent) in
  (∀ n, status (Mini.registry2 (acceptHeader Plain) n)
        = status (Mini.registry2 (acceptHeader Persistent) n)
        ∧ manifests (body (Mini.registry2 (acceptHeader Plain) n))
          = manifests (body (Mini.registry2 (acceptHeader Persistent) n)))
  ∧ (∀ n, manifests <$> (initialCache None Plain !! n)
          = manifests <$> (initialCache None Persistent !! n))
  ∧ installationPlan (stateOf o1) = installationPlan (stateOf o2)
  ∧ requests (stateOf o1) = requests (stateOf o2)
  ∧ thrown o1 = thrown o2
  ∧ (finished o1 ↔ finished o2).
Proof.
  intros top o1 o2.
  assert (H1 : ∀ n, status (Mini.registry2 (acceptHeader Plain) n)
                    = status (Mini.registry2 (acceptHeader Persistent) n)
                    ∧ manifests (body (Mini.registry2 (acceptHeader Plain) n))
                      = manifests (body (Mini.registry2 (acceptHeader Persistent) n))).
  { intros n. split; reflexivity. }
  assert (H2 : ∀ n, manifests <$> (initialCache None Plain !! n)
                    = manifests <$> (initialCache None Persistent !! n)).
  { intros n. reflexivity. }
  split; [exact H1|]. split; [exact H2|].
  exact (revisions_walk_alike Mini.satisfies Mini.semverLt Mini.validRange Mini.pathJoin
           Mini.registry2 Plain Persistent None None 3 top H1 H2).
Defined.

Lemma hoisting_revision_extends_plain_witness :
  let top := [("a", "^1.0.0")] in
  let walked :=
    [ {| name := "a"; version := Some "1.0.0"; parentDirectory := None |};
      {| name := "c"; version := Some "1.0.0"; parentDirectory := Some "a" |} ] in
  returned (Mini.plan Plain Mini.registry2 3 top) = Some walked
  ∧ ∃ hoisted,
      returned (Mini.plan Hoisting Mini.registry2 3 top) = Some (walked ++ hoisted)
      ∧ ∀ item, item ∈ hoisted → parentDirectory item = Some "root".
Proof.
  intros top walked.
  assert (H : returned (Mini.plan Plain Mini.registry2 3 top) = Some walked) by evaluate.
  split; [exact H|].
  exact (proj1 (proj2 (hoisting_revision_extends_plain Mini.satisfies Mini.semverLt
                         Mini.validRange Mini.pathJoin Mini.registry2 None 3 top))
           walked H).
Defined.

Lemma flat_registry_needs_no_recursion_witness :
  let flat := fun data : PackageData =>
    ∀ v versionInfo, prop v (versions data) = Some versionInfo →
      default [] (dependencies versionInfo) = [] in
  (∀ n, flat (body (terseRegistry (acceptHeader Hoisting) n)))
  ∧ (∀ n data, initialCache None Hoisting !! n = Some data → flat data)
  ∧ finished (constructInstallationPlan Mini.satisfies Mini.semverLt Mini.validRange
                Mini.pathJoin terseRegistry None Hoisting 1
                [("a", "^1.0.0"); ("b", "*")]).
Proof.
  intros flat.
  assert (H1 : ∀ n, flat (body (terseRegistry (acceptHeader Hoisting) n))).
  { intros n v versionInfo. unfold terseRegistry.
    destruct (String.eqb n "a"); unfold Mini.notFound; cbn [body versions prop]; [|done].
    destruct (String.eqb "1.0.0" v); [intros H; by injection H as <-|].
    destruct (String.eqb "1.2.0" v); [intros H; by injection H as <-|done]. }
  assert (H2 : ∀ n data, initialCache None Hoisting !! n = Some data → flat data).
  { intros n data Hn. simpl in Hn. by rewrite lookup_empty in Hn. }
  split; [exact H1|]. split; [exact H2|].
  exact (flat_registry_needs_no_recursion Mini.satisfies Mini.semverLt Mini.validRange
           Mini.pathJoin terseRegistry None Hoisting [("a", "^1.0.0"); ("b", "*")] H1 H2).
Defined.

Lemma self_dependency_never_returns_witness :
  (∀ i j, i ≠ j → slotAtDepth Mini.pathJoin "a" i ≠ slotAtDepth Mini.pathJoin "a" j)
  ∧ (∀ v versionInfo,
       prop v (versions (body (selfRegistry (acceptHeader Plain) "a"))) = Some versionInfo →
       ∃ range, default [] (dependencies versionInfo) = [("a", range)])
  ∧ initialCache None Plain !! "a" = None
  ∧ returned (constructInstallationPlan Mini.satisfies Mini.semverLt Mini.validRange
                Mini.pathJoin selfRegistry None Plain 1000 [("a", "^1.0.0")]) = None.
Proof.
  assert (H2 : ∀ v versionInfo,
            prop v (versions (body (selfRegistry (acceptHeader Plain) "a"))) = Some versionInfo →
            ∃ range, default [] (dependencies versionInfo) = [("a", range)]).
  { intros v versionInfo.
    change (body (selfRegistry (acceptHeader Plain) "a"))
      with (body (Mini.package [("1.0.0", [("a", "^1.0.0")])])).
    unfold Mini.package. cbn [body versions map prop].
    destruct (String.eqb "1.0.0" v); [|done]. intros H. injection H as <-. by eexists. }
  assert (H3 : initialCache None Plain !! "a" = None) by evaluate.
  split; [exact Mini_slots_are_distinct|]. split; [exact H2|]. split; [exact H3|].
  exact (self_dependency_never_returns Mini.satisfies Mini.semverLt Mini.validRange
           Mini.pathJoin selfRegistry None Plain "a" Mini_slots_are_distinct H2
           1000 "^1.0.0" [] H3).
Defined.

(** * The top level and the hoisting loop *)

Lemma prop_Some_keys {V} (k : string) (m : list (string * V)) :
  is_Some (prop k m) → k ∈ keys m.
Proof.
  unfold keys. induction m as [|[k0 v0] m IH]; simpl; intros [x Hx]; [done|].
  destruct (String.eqb_spec k0 k) as [->|Hne]; [by left|].
  right. apply IH. by eexists.
Qed.

Lemma recordUsage_records (key dir : string) (usage : list (string * PackageVersionInfo)) :
  key ∈ keys (recordUsage key dir usage)
  ∧ ∀ k, k ∈ keys usage → k ∈ keys (recordUsage key dir usage).
Proof.
  rewrite recordUsage_keys. destruct (prop key usage) as [i|] eqn:Hkey.
  - split; [|done]. apply prop_Some_keys. by eexists.
  - split.
    + apply elem_of_app. right. by apply list_elem_of_singleton.
    + intros k Hk. apply elem_of_app. by left.
Qed.

Section TopLevelTwice.

Variable satisfies : string → string → bool.
Variable semverLt : string → string → bool.
Variable validRange : string → option string.
Variable pathJoin : list string → string.
Variable fetch : string → string → Response.
Variable cacheFile : option (list (string * PackageData)).

(** The versions of [semver] hold no [@]. *)
Hypothesis versions_hold_no_at :
  ∀ v range, satisfies v range = true → contains "@" v = false.

(** In the hoisting revision every entry the walk pushes has its version,
    and its ledger key is in the usage ledger. *)
Lemma walked_entries_are_recorded (fuel : nat)
    (topLevelDependencies : list (string * string)) :
  let st := stateOf (walk satisfies semverLt validRange pathJoin fetch Hoisting fuel
                       topLevelDependencies (initialState cacheFile Hoisting)) in
  ∀ item, item ∈ installationPlan st →
    ∃ v, version item = Some v
         ∧ versionCountKey (name item) v ∈ keys (versionUsageCount st).
Proof.
  pose (P := fun s : State =>
    ∀ item, item ∈ installationPlan s →
      ∃ v, version item = Some v
           ∧ versionCountKey (name item) v ∈ keys (versionUsageCount s)).
  intros st. change (P st). subst st. apply post_stateOf.
  pose proof (walk_rule satisfies semverLt validRange pathJoin fetch Hoisting
                P (fun _ _ => True) (fun _ => P)) as H.
  lapply H; clear H.
  2:{ intros s k pr Hs Hk. by split. }
  intros H. lapply H; clear H.
  2:{ intros d q s s' deps Hs _ Hkey [info v vi Hplan _ _ _ Husage _ _ _ _].
      split; [|done]. intros item Hin. rewrite Hplan in Hin. rewrite Husage.
      destruct (recordUsage_records (versionCountKey (dep_name d) v) (orRoot q)
                  (versionUsageCount s)) as [Hnew Hold].
      apply elem_of_app in Hin as [Hin|Hin].
      - destruct (Hs _ Hin) as (w & Hw & Hk). exists w. split; [done|]. by apply Hold.
      - apply list_elem_of_singleton in Hin as ->. by exists v. }
  intros H. lapply H; clear H.
  2:{ intros d q s e s' Hs _ Hkey [Hplan _ _ Husage _].
      intros item Hin. rewrite Hplan in Hin. rewrite Husage. by apply Hs. }
  intros H. apply (H (fun _ _ => I)).
  intros item Hin. simpl in Hin. by apply elem_of_nil in Hin.
Qed.

(** C5, on the code. In the hoisting revision a returned plan holds every
    top-level entry whose name has no [@] twice at one install location:
    beside the entry the walk pushed with an undefined parent directory,
    the hoisting loop has appended another entry with the same name and
    the same version at ["root"], which is the install location of the
    first. *)
Theorem top_level_entry_is_planned_twice (fuel : nat)
    (topLevelDependencies : list (string * string)) (plan : InstallationPlan)
    (item : DependencyInstallation) :
  returned (constructInstallationPlan satisfies semverLt validRange pathJoin fetch cacheFile
              Hoisting fuel topLevelDependencies) = Some plan →
  item ∈ plan →
  parentDirectory item = None →
  contains "@" (name item) = false →
  ∃ twin,
    twin ∈ plan
    ∧ twin ≠ item
    ∧ name twin = name item
    ∧ version twin = version item
    ∧ installLocation twin = installLocation item.
Proof.
  intros Hret Hin Hpd Hname.
  rewrite constructInstallationPlan_cases in Hret.
  pose proof (walked_entries_are_recorded fuel topLevelDependencies) as Hrec.
  pose proof (walk_post satisfies semverLt validRange pathJoin fetch Hoisting fuel
                topLevelDependencies _ (Inv_initial satisfies fetch cacheFile Hoisting)) as HI.
  destruct (walk _ _ _ _ _ _ _ _ _) as [[] st|e st|st]; simpl in *; [|done|done].
  injection Hret as <-.
  destruct (hoistKeys_appends (keys (versionUsageCount st)) (installationPlan st))
    as (hoisted & Heq & Hall).
  assert (Hwalked : item ∈ installationPlan st).
  { unfold hoist in Hin. rewrite Heq in Hin. apply elem_of_app in Hin as [Hin|Hin]; [done|].
    destruct (Hall _ Hin) as (k & _ & ->). done. }
  destruct (Hrec _ Hwalked) as (v & Hv & Hkey).
  assert (Hat : contains "@" v = false).
  { pose proof (inv_plan_satisfied _ _ _ _ HI _ Hwalked) as Hsat.
    unfold rangeSatisfied in Hsat. rewrite Hv in Hsat.
    destruct (firstSighted st !! slotOf item) as [dep|]; [|done].
    apply andb_true_iff in Hsat as [_ Hsat]. by eapply versions_hold_no_at. }
  pose proof (split_versionCountKey _ _ Hname Hat) as Hsplit.
  exists (rootEntry (versionCountKey (name item) v)).
  split; [by apply hoistKeys_present|].
  unfold rootEntry, installLocation. rewrite Hsplit, Hpd, Hv. simpl.
  split; [|done]. intros Htwin. rewrite <- Htwin in Hpd. done.
Qed.

End TopLevelTwice.

Lemma top_level_entry_is_planned_twice_witness :
  let item := {| name := "a"; version := Some "1.2.0"; parentDirectory := None |} in
  let plan := [ item;
                {| name := "a"; version := Some "1.2.0"; parentDirectory := Some "root" |} ] in
  returned (Mini.plan Hoisting Mini.registry1 1 [("a", "^1.0.0")]) = Some plan
  ∧ item ∈ plan
  ∧ parentDirectory item = None
  ∧ contains "@" (name item) = false
  ∧ ∃ twin,
      twin ∈ plan
      ∧ twin ≠ item
      ∧ name twin = name item
      ∧ version twin = version item
      ∧ installLocation twin = installLocation item.
Proof.
  intros item plan.
  assert (H1 : returned (Mini.plan Hoisting Mini.registry1 1 [("a", "^1.0.0")]) = Some plan)
    by evaluate.
  assert (H2 : item ∈ plan) by decided.
  assert (H3 : parentDirectory item = None) by reflexivity.
  assert (H4 : contains "@" (name item) = false) by evaluate.
  split; [exact H1|]. split; [exact H2|]. split; [exact H3|]. split; [exact H4|].
  exact (top_level_entry_is_planned_twice Mini.satisfies Mini.semverLt Mini.validRange
           Mini.pathJoin Mini.registry1 None Mini_satisfies_no_at 1 [("a", "^1.0.0")]
           plan item H1 H2 H3 H4).
Defined.
